(** * A transit network as a graph: construction, traversal, weighted search

    A shallow embedding of the three scripts of the repository:

    - [task_1.py]: [create_graph_from_ubahn] and the transfer-station listing
      of [analyze_graph];
    - [task_2.py]: [dfs_path] and [bfs_path];
    - [task_3.py]: [add_random_weights] and [dijkstra_shortest_path].

    The scripts run on top of the networkx library.  The part of networkx
    they use (the adjacency structure of [Graph], [add_edge], [copy],
    [edges], [neighbors] and the Dijkstra search) is modelled below next to
    the program, in module [nx].

    Modelling conventions.
    - A Python [dict] whose iteration order is observable is an association
      list in insertion order with unique keys ([dict_get], [dict_set]); a
      [dict] used only for lookup is a [gmap]; a Python [set] is a [gset].
    - Python numbers ([int] and [float] weights) are exact rationals [Q]:
      the rounding error of a single floating-point operation is not part of
      the model.
    - Loops that Python runs until a condition holds are recursive functions
      on a fuel argument; the entry points compute a fuel from the graph that
      is proved sufficient, and running out of fuel is the separate outcome
      [OutOfFuel].
    - Exceptions are values of [exn]; a call returns an [outcome]. *)

From Stdlib Require Import QArith Qround Lqa.
From stdpp Require Import base option list gmap strings sets fin_sets sorting.

#[local] Set Warnings "-clear-no-such-hyp".

Open Scope string_scope.
Open Scope list_scope.
Open Scope nat_scope.

(** ** Outcomes of a call *)

Inductive exn : Set :=
  | NodeNotFound
  | NetworkXNoPath
  | NetworkXError
  | KeyError
  | ValueError
  | ZeroDivisionError.

Inductive outcome (A : Type) : Type :=
  | Return (a : A)
  | Raise (e : exn)
  | OutOfFuel.
Arguments Return {A} a.
Arguments Raise {A} e.
Arguments OutOfFuel {A}.

Definition obind {A B} (m : outcome A) (k : A → outcome B) : outcome B :=
  match m with
  | Return a => k a
  | Raise e => Raise e
  | OutOfFuel => OutOfFuel
  end.

Notation "'call' x ':=' m 'in' k" := (obind m (λ x, k))
  (at level 10, x name, m at level 100, k at level 200, only parsing).

(** ** Insertion-ordered dictionaries *)

Section dict.
Context {K V : Type} `{EqDecision K}.

(** [d[k]] / [d.get(k)]. *)
Fixpoint dict_get (k : K) (d : list (K * V)) : option V :=
  match d with
  | [] => None
  | (k', v) :: d' => if decide (k = k') then Some v else dict_get k d'
  end.

(** [d[k] = v]: an existing key keeps its position, a new key goes last. *)
Fixpoint dict_set (k : K) (v : V) (d : list (K * V)) : list (K * V) :=
  match d with
  | [] => [(k, v)]
  | (k', v') :: d' =>
      if decide (k = k') then (k, v) :: d' else (k', v') :: dict_set k v d'
  end.

(** In-place change of the value stored under [k] (no effect when absent). *)
Fixpoint dict_alter (f : V → V) (k : K) (d : list (K * V)) : list (K * V) :=
  match d with
  | [] => []
  | (k', v') :: d' =>
      if decide (k = k') then (k', f v') :: d' else (k', v') :: dict_alter f k d'
  end.

Definition dict_keys (d : list (K * V)) : list K := d.*1.

Definition dict_mem (k : K) (d : list (K * V)) : bool :=
  bool_decide (k ∈ dict_keys d).
End dict.

(** ** The networkx graph *)

#[global] Instance Q_eq_dec : EqDecision Q.
Proof. solve_decision. Defined.

(** Attribute dictionaries, restricted to the keys the scripts use. *)
Record edge_attr : Type := EdgeAttr {
  e_line : option string;
  e_color : option string;
  e_weight : option Q
}.

Record node_attr : Type := NodeAttr {
  n_lines : option (gset string);
  n_is_transfer : option bool
}.

#[global] Instance edge_attr_eq_dec : EqDecision edge_attr.
Proof. solve_decision. Defined.

#[global] Instance node_attr_eq_dec : EqDecision node_attr.
Proof. solve_decision. Defined.

(** [Graph._node] and [Graph._adj]. *)
Record Graph : Type := MkGraph {
  g_node : list (string * node_attr);
  g_adj : list (string * list (string * edge_attr))
}.

Module nx.

Definition empty_graph : Graph := MkGraph [] [].

Definition no_edge_attr : edge_attr := EdgeAttr None None None.
Definition no_node_attr : node_attr := NodeAttr None None.

Definition nodes (g : Graph) : list string := dict_keys (g_node g).

(** [n in G] *)
Definition has_node (g : Graph) (n : string) : bool := dict_mem n (g_node g).

(** [G.neighbors(n)]: the keys of [G._adj[n]], in insertion order. *)
Definition neighbors (g : Graph) (n : string) : outcome (list string) :=
  match dict_get n (g_adj g) with
  | Some nbrs => Return (dict_keys nbrs)
  | None => Raise NetworkXError
  end.

(** [G[u][v]] *)
Definition edge_data (g : Graph) (u v : string) : option edge_attr :=
  dict_get u (g_adj g) ≫= dict_get v.

(** [datadict.update(attr)]: the keys present in [attr] overwrite. *)
Definition or_else {A} (new old : option A) : option A :=
  match new with Some a => Some a | None => old end.

Definition attr_update (old new : edge_attr) : edge_attr :=
  EdgeAttr (or_else (e_line new) (e_line old))
           (or_else (e_color new) (e_color old))
           (or_else (e_weight new) (e_weight old)).

(** The first half of [add_edge]: a node not yet known gets an empty
    adjacency and an empty attribute dictionary. *)
Definition touch_node (n : string) (g : Graph) : Graph :=
  if has_node g n then g
  else MkGraph (g_node g ++ [(n, no_node_attr)]) (g_adj g ++ [(n, [])]).

(** [G.add_edge(u, v, **attr)] *)
Definition add_edge (u v : string) (attr : edge_attr) (g : Graph) : Graph :=
  let g1 := touch_node v (touch_node u g) in
  let datadict := attr_update (default no_edge_attr (edge_data g1 u v)) attr in
  let adj1 := dict_alter (dict_set v datadict) u (g_adj g1) in
  let adj2 := dict_alter (dict_set u datadict) v adj1 in
  MkGraph (g_node g1) adj2.

(** [G.edges()]: every node in order, every neighbour in order, an edge is
    reported from the endpoint met first. *)
Fixpoint edges_from (seen : gset string) (adj : list (string * list (string * edge_attr)))
    : list (string * string) :=
  match adj with
  | [] => []
  | (n, nbrs) :: adj' =>
      ((λ nbr, (n, nbr)) <$> filter (λ nbr, nbr ∉ seen) (dict_keys nbrs))
      ++ edges_from ({[n]} ∪ seen) adj'
  end.

Definition edges (g : Graph) : list (string * string) := edges_from ∅ (g_adj g).

(** [G.copy()]: the nodes with their attributes, then every adjacency entry
    re-inserted with [add_edge]. *)
Definition adjacency_items (g : Graph) : list (string * string * edge_attr) :=
  '(u, nbrs) ← g_adj g; (λ '(v, dd), (u, v, dd)) <$> nbrs.

Definition copy (g : Graph) : Graph :=
  fold_left (λ h '(u, v, dd), add_edge u v dd h)
            (adjacency_items g)
            (MkGraph (g_node g) ((λ '(n, _), (n, [])) <$> g_node g)).

(** [G[u][v][key] = value]: both directions share one attribute dictionary. *)
Definition set_edge_attr (u v : string) (f : edge_attr → edge_attr) (g : Graph)
    : outcome Graph :=
  match edge_data g u v with
  | None => Raise KeyError
  | Some _ =>
      let adj1 := dict_alter (dict_alter f v) u (g_adj g) in
      let adj2 := if decide (u = v) then adj1
                  else dict_alter (dict_alter f u) v adj1 in
      Return (MkGraph (g_node g) adj2)
  end.

(** [G.degree()]: a self-loop counts twice. *)
Definition degree_of (n : string) (nbrs : list (string * edge_attr)) : nat :=
  length nbrs + (if dict_mem n nbrs then 1 else 0).

Definition degree (g : Graph) : list (string * nat) :=
  (λ '(n, nbrs), (n, degree_of n nbrs)) <$> g_adj g.

Definition number_of_adjacencies (g : Graph) : nat :=
  sum_list ((λ x, length x.2) <$> g_adj g).

(** The representation invariant of an undirected [Graph]. *)
Definition wf_adjacency (g : Graph) (x : string * list (string * edge_attr)) : Prop :=
  NoDup (dict_keys x.2) ∧
  Forall (λ y, edge_data g y.1 x.1 = Some y.2) x.2.

Definition wf (g : Graph) : Prop :=
  NoDup (nodes g) ∧
  dict_keys (g_adj g) = nodes g ∧
  Forall (wf_adjacency g) (g_adj g).

#[global] Instance wf_dec g : Decision (wf g).
Proof. unfold wf, wf_adjacency. apply _. Defined.


(** *** Weighted shortest paths ([networkx.algorithms.shortest_paths.weighted]) *)

(** [data.get('weight', 1)]: an edge without the attribute costs 1. *)
Definition weight_of (e : edge_attr) : Q := default 1%Q (e_weight e).

Definition Qltb (x y : Q) : bool := negb (Qle_bool y x).

(** The fringe holds triples [(distance, count, node)]; Python compares them
    as tuples, so the distance decides and the running count breaks ties. *)
Definition entry : Type := Q * nat * string.

Definition entry_lt (a b : entry) : bool :=
  Qltb a.1.1 b.1.1 || (Qeq_bool a.1.1 b.1.1 && (a.1.2 <? b.1.2)).

(** [heappop]: the least entry comes out, the rest stays.  The array layout
    of [heapq] is not modelled; the counts are pairwise different, so the
    least entry is unique. *)
Fixpoint pop_min (e : entry) (l : list entry) : entry * list entry :=
  match l with
  | [] => (e, [])
  | x :: l' =>
      if entry_lt x e then let r := pop_min x l' in (r.1, e :: r.2)
      else let r := pop_min e l' in (r.1, x :: r.2)
  end.

Definition heappop (fringe : list entry) : option (entry * list entry) :=
  match fringe with
  | [] => None
  | e :: l => Some (pop_min e l)
  end.

Definition heappush (fringe : list entry) (e : entry) : list entry := e :: fringe.

(** The local variables of [_dijkstra_multisource]. *)
Record search : Type := Search {
  dist : gmap string Q;
  seen : gmap string Q;
  fringe : list entry;
  count : nat;
  paths : option (gmap string (list string))
}.

(** The body of [for u, e in G_succ[v].items()], with [d = dist[v]]. *)
Definition relax (v : string) (d : Q) (st : outcome search)
    (item : string * edge_attr) : outcome search :=
  call st := st in
  let u := item.1 in
  let vu_dist := (d + weight_of item.2)%Q in
  match dist st !! u with
  | Some u_dist => if Qltb vu_dist u_dist then Raise ValueError else Return st
  | None =>
      if match seen st !! u with
         | None => true
         | Some seen_u => Qltb vu_dist seen_u
         end
      then
        call paths' :=
          match paths st with
          | None => Return None
          | Some ps =>
              match ps !! v with
              | Some pv => Return (Some (<[u := pv ++ [u]]> ps))
              | None => Raise KeyError
              end
          end in
        Return (Search (dist st) (<[u := vu_dist]> (seen st))
                       (heappush (fringe st) (vu_dist, count st, u))
                       (S (count st)) paths')
      else Return st
  end.

(** The [while fringe] loop of [_dijkstra_multisource]. *)
Fixpoint dijkstra_loop (g : Graph) (target : string) (fuel : nat) (st : search)
    : outcome search :=
  match fuel with
  | O => OutOfFuel
  | S fuel' =>
      match heappop (fringe st) with
      | None => Return st
      | Some ((d, _, v), rest) =>
          if decide (v ∈ dom (dist st)) then
            dijkstra_loop g target fuel'
              (Search (dist st) (seen st) rest (count st) (paths st))
          else
            let st1 := Search (<[v := d]> (dist st)) (seen st) rest (count st)
                              (paths st) in
            if decide (v = target) then Return st1
            else
              match dict_get v (g_adj g) with
              | None => Raise KeyError
              | Some nbrs =>
                  call st2 := fold_left (relax v d) nbrs (Return st1) in
                  dijkstra_loop g target fuel' st2
              end
      end
  end.

Definition dijkstra_fuel (g : Graph) : nat :=
  S (S (length (g_adj g) + number_of_adjacencies g)).

(** [_dijkstra_multisource(G, {source}, weight, paths=paths, target=target)] *)
Definition dijkstra_multisource (g : Graph) (source target : string)
    (paths : option (gmap string (list string))) : outcome search :=
  dijkstra_loop g target (dijkstra_fuel g)
    (Search ∅ {[source := 0%Q]} [(0%Q, 0, source)] 1 paths).

(** [nx.dijkstra_path(G, source, target, weight='weight')], through
    [single_source_dijkstra] and [multi_source_dijkstra]. *)
Definition dijkstra_path (g : Graph) (source target : string)
    : outcome (list string) :=
  if negb (has_node g source) then Raise NodeNotFound
  else if decide (target = source) then Return [target]
  else
    call st := dijkstra_multisource g source target (Some {[source := [source]]}) in
    match dist st !! target, paths st ≫= (.!! target) with
    | Some _, Some p => Return p
    | _, _ => Raise NetworkXNoPath
    end.

(** [nx.dijkstra_path_length(G, source, target, weight='weight')] *)
Definition dijkstra_path_length (g : Graph) (source target : string)
    : outcome Q :=
  if negb (has_node g source) then Raise NodeNotFound
  else if decide (source = target) then Return 0%Q
  else
    call st := dijkstra_multisource g source target None in
    match dist st !! target with
    | Some d => Return d
    | None => Raise NetworkXNoPath
    end.
End nx.

(** ** task_2.py: depth-first and breadth-first search *)

Definition dfs_push (visited : gset string) (path : list string)
    (stack : list (string * list string)) (neighbor : string)
    : list (string * list string) :=
  if decide (neighbor ∈ visited) then stack
  else (neighbor, path ++ [neighbor]) :: stack.

(** The [while stack] loop; the head of the list is the top of the stack. *)
Fixpoint dfs_loop (graph : Graph) (goal : string) (fuel : nat)
    (visited : gset string) (stack : list (string * list string))
    : outcome (option (list string)) :=
  match fuel with
  | O => OutOfFuel
  | S fuel' =>
      match stack with
      | [] => Return None
      | (current, path) :: stack' =>
          if decide (current = goal) then Return (Some path)
          else if decide (current ∈ visited) then
            dfs_loop graph goal fuel' visited stack'
          else
            let visited' := {[current]} ∪ visited in
            call neighbors := nx.neighbors graph current in
            dfs_loop graph goal fuel' visited'
              (fold_left (dfs_push visited' path) (reverse neighbors) stack')
      end
  end.

Definition dfs_fuel (graph : Graph) : nat :=
  S (S (length (nx.nodes graph) + nx.number_of_adjacencies graph)).

Definition dfs_path (graph : Graph) (start goal : string)
    : outcome (option (list string)) :=
  if negb (nx.has_node graph start) || negb (nx.has_node graph goal) then Return None
  else dfs_loop graph goal (dfs_fuel graph) ∅ [(start, [start])].

Definition bfs_enqueue (path : list string)
    (st : gset string * list (string * list string)) (neighbor : string)
    : gset string * list (string * list string) :=
  if decide (neighbor ∈ st.1) then st
  else ({[neighbor]} ∪ st.1, st.2 ++ [(neighbor, path ++ [neighbor])]).

(** The [while queue] loop; the head of the list is the left end of the deque. *)
Fixpoint bfs_loop (graph : Graph) (goal : string) (fuel : nat)
    (visited : gset string) (queue : list (string * list string))
    : outcome (option (list string)) :=
  match fuel with
  | O => OutOfFuel
  | S fuel' =>
      match queue with
      | [] => Return None
      | (current, path) :: queue' =>
          if decide (current = goal) then Return (Some path)
          else
            call neighbors := nx.neighbors graph current in
            let st := fold_left (bfs_enqueue path) neighbors (visited, queue') in
            bfs_loop graph goal fuel' st.1 st.2
      end
  end.

Definition bfs_fuel (graph : Graph) : nat := S (length (nx.nodes graph)).

Definition bfs_path (graph : Graph) (start goal : string)
    : outcome (option (list string)) :=
  if negb (nx.has_node graph start) || negb (nx.has_node graph goal) then Return None
  else bfs_loop graph goal (bfs_fuel graph) {[start]} [(start, [start])].

(** A small network for examples: two lines crossing at C, and a separate
    pair X - Y. *)
Definition plain (line : string) : edge_attr := EdgeAttr (Some line) (Some "grey") None.

Definition demo_graph : Graph :=
  nx.add_edge "X" "Y" (plain "U3")
    (nx.add_edge "C" "E" (plain "U2")
      (nx.add_edge "D" "C" (plain "U2")
        (nx.add_edge "B" "C" (plain "U1")
          (nx.add_edge "A" "B" (plain "U1") nx.empty_graph)))).


(** ** task_1.py: building the graph and listing the transfer stations *)

(** One value of the line-data mapping: [{'stations': [...], 'color': ...}]. *)
Record line_data : Type := LineData {
  stations : list string;
  color : string
}.

(** The pairs [(stations[i], stations[i + 1])] for [i in range(len(stations) - 1)]. *)
Fixpoint consecutive (l : list string) : list (string * string) :=
  match l with
  | [] => []
  | station1 :: l' =>
      match l' with
      | [] => []
      | station2 :: _ => (station1, station2) :: consecutive l'
      end
  end.

(** [if station not in station_lines: station_lines[station] = []] *)
Definition ensure_station (station : string)
    (station_lines : list (string * list string)) : list (string * list string) :=
  if dict_mem station station_lines then station_lines
  else dict_set station [] station_lines.

(** The body of the inner loop, for one pair of consecutive stations. *)
Definition connect (line_name color : string)
    (st : Graph * list (string * list string)) (pair : string * string)
    : Graph * list (string * list string) :=
  let '(station1, station2) := pair in
  let station_lines := ensure_station station2 (ensure_station station1 st.2) in
  let station_lines := dict_alter (λ l, l ++ [line_name]) station1 station_lines in
  let station_lines := dict_alter (λ l, l ++ [line_name]) station2 station_lines in
  (nx.add_edge station1 station2 (EdgeAttr (Some line_name) (Some color) None) st.1,
   station_lines).

(** The body of the outer loop, for one line. *)
Definition add_line
    (st : Graph * list (string * list string) * list (string * string))
    (item : string * line_data)
    : Graph * list (string * list string) * list (string * string) :=
  let '(line_name, data) := item in
  let line_colors := dict_set line_name (color data) st.2 in
  (fold_left (connect line_name (color data)) (consecutive (stations data)) st.1,
   line_colors).

(** [G.nodes[station]['lines'] = list(set(lines))] and
    [G.nodes[station]['is_transfer'] = len(set(lines)) > 1].  The order in
    which [list(set(...))] lists the names depends on string hashing and is
    not modelled: the attribute holds the set. *)
Definition set_station_attrs (G : Graph) (item : string * list string) : Graph :=
  let unique : gset string := list_to_set item.2 in
  MkGraph
    (dict_alter (λ _, NodeAttr (Some unique) (Some (bool_decide (1 < size unique))))
                item.1 (g_node G))
    (g_adj G).

Definition create_graph_from_ubahn (data : list (string * line_data))
    : Graph * list (string * list string) * list (string * string) :=
  let '(G, station_lines, line_colors) :=
    fold_left add_line data (nx.empty_graph, [], []) in
  (fold_left set_station_attrs station_lines G, station_lines, line_colors).

(** [sorted(unique_lines)]: strings compare by code point. *)
Fixpoint insert_sorted (x : string) (l : list string) : list string :=
  match l with
  | [] => [x]
  | y :: l' => if String.leb x y then x :: l else y :: insert_sorted x l'
  end.

Definition sorted (l : list string) : list string := foldr insert_sorted [] l.

(** [list.sort(key=..., reverse=True)]: descending by key and stable, entries
    with equal keys keep the order they had. *)
Fixpoint insert_desc {A} (key : A → nat) (x : A) (l : list A) : list A :=
  match l with
  | [] => [x]
  | y :: l' => if decide (key x < key y) then y :: insert_desc key x l' else x :: l
  end.

Definition sort_desc {A} (key : A → nat) (l : list A) : list A :=
  foldr (insert_desc key) [] l.

(** Lines 87-93 of [analyze_graph]: the list [transfer_stations]. *)
Definition transfer_entry (item : string * list string)
    : option (string * nat * list string) :=
  let unique_lines : gset string := list_to_set item.2 in
  if decide (1 < size unique_lines)
  then Some (item.1, size unique_lines, sorted (elements unique_lines))
  else None.

Definition transfer_stations (station_lines : list (string * list string))
    : list (string * nat * list string) :=
  sort_desc (λ x, x.1.2) (omap transfer_entry station_lines).

(** [analyze_graph]: what it returns.  The printed report is not modelled;
    the statistics it prints fail only on a graph without stations (the
    average degree divides by the number of stations), and printing a
    transfer station looks its degree up. *)
Definition analyze_graph (G : Graph) (station_lines : list (string * list string))
    : outcome (list (string * nat) * list (string * nat * list string)) :=
  let degrees := nx.degree G in
  if decide (degrees = []) then Raise ZeroDivisionError
  else
    let transfers := transfer_stations station_lines in
    if forallb (λ x, dict_mem x.1.1 degrees) (take 10 transfers)
    then Return (degrees, transfers)
    else Raise KeyError.

(** ** task_3.py: random weights and the weighted query *)

(** The pseudo-random generator behind Python's [random] module is part of
    the Python runtime, not of this repository.  It enters as a parameter:
    a type of generator states, [random.seed], and [random.random], which
    draws from the half-open unit interval and moves the state on.  The
    module keeps one state, shared by every caller; the model threads it
    through. *)
Record generator : Type := Generator {
  gen_state : Type;
  gen_seed : Z → gen_state;
  gen_random : gen_state → Q * gen_state;
  gen_unit : ∀ st, (0 <= (gen_random st).1 < 1)%Q
}.

(** [random.seed(seed)]: the shared state is replaced. *)
Definition random_seed (R : generator) (seed : Z) (shared : gen_state R)
    : gen_state R :=
  gen_seed R seed.

(** [random.uniform(a, b)] is [a + (b - a) * random()]. *)
Definition random_uniform (R : generator) (a b : Q) (shared : gen_state R)
    : Q * gen_state R :=
  let r := gen_random R shared in
  ((a + (b - a) * r.1)%Q, r.2).

(** Rounding to the nearest integer, ties to the even one. *)
Definition round_half_even (x : Q) : Z :=
  let f := Qfloor x in
  match ((x - inject_Z f) ?= 1 # 2)%Q with
  | Lt => f
  | Gt => (f + 1)%Z
  | Eq => if Z.even f then f else (f + 1)%Z
  end.

(** [round(x, 2)] *)
Definition round2 (x : Q) : Q := (round_half_even (x * 100) # 100)%Q.

Definition set_weight (w : Q) (e : edge_attr) : edge_attr :=
  EdgeAttr (e_line e) (e_color e) (Some w).

(** The body of [for u, v in weighted_graph.edges()]. *)
Definition assign_weight (R : generator) (min_weight max_weight : Q)
    (st : outcome (Graph * gen_state R)) (edge : string * string)
    : outcome (Graph * gen_state R) :=
  call st := st in
  let draw := random_uniform R min_weight max_weight st.2 in
  call weighted_graph := nx.set_edge_attr edge.1 edge.2 (set_weight (round2 draw.1)) st.1 in
  Return (weighted_graph, draw.2).

(** [add_random_weights]; the second component of the result is the state
    in which the call leaves the shared generator. *)
Definition add_random_weights (R : generator) (graph : Graph)
    (min_weight max_weight : Q) (seed : Z) (shared : gen_state R)
    : outcome (Graph * gen_state R) :=
  let shared := random_seed R seed shared in
  let weighted_graph := nx.copy graph in
  fold_left (assign_weight R min_weight max_weight) (nx.edges weighted_graph)
            (Return (weighted_graph, shared)).

(** [graph[u][v]['weight']] *)
Definition edge_weight (graph : Graph) (u v : string) : outcome Q :=
  match nx.edge_data graph u v ≫= e_weight with
  | Some w => Return w
  | None => Raise KeyError
  end.

(** The loop that collects [edge_details] along [path]. *)
Fixpoint edge_details (graph : Graph) (path : list string)
    : outcome (list (string * string * Q)) :=
  match path with
  | [] => Return []
  | u :: path' =>
      match path' with
      | [] => Return []
      | v :: _ =>
          call weight := edge_weight graph u v in
          call rest := edge_details graph path' in
          Return ((u, v, weight) :: rest)
      end
  end.

(** [dijkstra_shortest_path]: [Return None] stands for the triple
    [(None, None, None)]; the two exceptions of the [except] clauses are
    caught, any other goes to the caller. *)
Definition dijkstra_shortest_path (graph : Graph) (start goal : string)
    : outcome (option (list string * Q * list (string * string * Q))) :=
  match
    (call path := nx.dijkstra_path graph start goal in
     call total_distance := nx.dijkstra_path_length graph start goal in
     call details := edge_details graph path in
     Return (path, total_distance, details))
  with
  | Return r => Return (Some r)
  | Raise NetworkXNoPath => Return None
  | Raise NodeNotFound => Return None
  | Raise e => Raise e
  | OutOfFuel => OutOfFuel
  end.

(** The loop of [compare_with_bfs] that adds up the weights along the
    unweighted route: [bfs_weighted_distance]. *)
Fixpoint weighted_distance_from (graph : Graph) (acc : Q) (path : list string)
    : outcome Q :=
  match path with
  | [] => Return acc
  | u :: path' =>
      match path' with
      | [] => Return acc
      | v :: _ =>
          call weight := edge_weight graph u v in
          weighted_distance_from graph (acc + weight)%Q path'
      end
  end.

Definition bfs_weighted_distance (graph : Graph) (bfs_path : list string)
    : outcome Q :=
  weighted_distance_from graph 0%Q bfs_path.

(** A generator for examples: it draws 1/4, 1/2, 3/4, 1/4, ... *)
Definition demo_random (st : nat) : Q * nat :=
  ((Z.of_nat (S (st `mod` 3)) # 4)%Q, S st `mod` 3).

Lemma demo_random_unit st : (0 <= (demo_random st).1 < 1)%Q.
Proof.
  assert (st `mod` 3 < 3) by (apply Nat.mod_upper_bound; lia).
  unfold demo_random, Qle, Qlt. simpl. lia.
Qed.

Definition demo_generator : generator :=
  Generator nat (λ seed, Z.to_nat (Z.abs seed)) demo_random demo_random_unit.

From Stdlib Require Qabs.

(** ** task_1.py: the degree statistics and the station lists of the drawing *)

(** Lines 74-79 of [analyze_graph]: [avg_degree], [max_degree] and
    [min_degree].  The average divides by [len(degrees)] before [max] and
    [min] look at the values. *)
Definition degree_statistics (G : Graph) : outcome (Q * nat * nat) :=
  let degrees := nx.degree G in
  if decide (length degrees = 0) then Raise ZeroDivisionError
  else
    let avg_degree :=
      (inject_Z (Z.of_nat (sum_list degrees.*2))
       / inject_Z (Z.of_nat (length degrees)))%Q in
    match degrees.*2 with
    | [] => Raise ValueError
    | d :: ds => Return (avg_degree, foldl Nat.max d ds, foldl Nat.min d ds)
    end.

(** [G.nodes[node].get('is_transfer', False)], for a node of [G]. *)
Definition is_transfer (G : Graph) (node : string) : bool :=
  default false (dict_get node (g_node G) ≫= n_is_transfer).

(** Lines 148-149 of [visualize_graph]: the stations drawn as transfer
    stations and those drawn as regular stations.  The drawing itself is
    not modelled. *)
Definition visualize_transfer_stations (G : Graph) : list string :=
  filter (λ node, is_transfer G node = true) (nx.nodes G).

Definition visualize_regular_stations (G : Graph) : list string :=
  filter (λ node, is_transfer G node ≠ true) (nx.nodes G).

(** ** task_2.py: comparing the two searches *)

(** The truth value of a search result: [None] and the empty list are
    false. *)
Definition truthy (result : option (list string)) : bool :=
  match result with
  | Some (_ :: _) => true
  | _ => false
  end.

Definition len (l : list string) : Z := Z.of_nat (length l).

(** The closing line of the comparison that [compare_paths] prints. *)
Inductive verdict : Type :=
  | SamePath
  | EqualLength
  | BfsShorter (stations : Z).

(** What section 3 of the report displays: the difference of the two
    lengths, the verdict, and [efficiency_diff]. *)
Record comparison : Type := Comparison {
  cmp_difference : Z;
  cmp_verdict : verdict;
  cmp_efficiency_diff : Q
}.

(** Lines 110-125 of [compare_paths], entered when both results are true. *)
Definition compare_lengths (dfs_result bfs_result : list string)
    : outcome comparison :=
  let difference := (len dfs_result - len bfs_result)%Z in
  let verdict :=
    if decide (len dfs_result = len bfs_result) then
      if decide (dfs_result = bfs_result) then SamePath else EqualLength
    else BfsShorter difference in
  if decide (len bfs_result = 0%Z) then Raise ZeroDivisionError
  else
    Return (Comparison difference verdict
              (inject_Z difference / inject_Z (len bfs_result) * 100)%Q).

(** [compare_paths]: the report goes to the terminal, the two results are
    returned. *)
Definition compare_paths (graph : Graph) (start goal : string)
    : outcome (option (list string) * option (list string)) :=
  call dfs_result := dfs_path graph start goal in
  call bfs_result := bfs_path graph start goal in
  call _ :=
    if truthy dfs_result && truthy bfs_result then
      match dfs_result, bfs_result with
      | Some dfs, Some bfs =>
          call shown := compare_lengths dfs bfs in Return (Some shown)
      | _, _ => Return None
      end
    else Return None in
  Return (dfs_result, bfs_result).

(** The routes [demonstrate_algorithms] tries. *)
Definition test_cases : list (string * string) :=
  [("Alexanderplatz", "Zoologischer Garten");
   ("Warschauer Str.", "Rathaus Spandau");
   ("Nollendorfplatz", "Hauptbahnhof");
   ("Uhlandstr.", "Hoenow");
   ("Pankow", "Rudow")].

(** One entry of [all_results]. *)
Record case_result : Type := CaseResult {
  r_start : string;
  r_goal : string;
  r_dfs_length : option nat;
  r_bfs_length : option nat
}.

(** [len(result) if result else None] *)
Definition length_if_true (result : option (list string)) : option nat :=
  if truthy result then length <$> result else None.

(** The body of [for start, goal in test_cases]. *)
Definition run_case (graph : Graph) (all_results : outcome (list case_result))
    (case : string * string) : outcome (list case_result) :=
  call all_results := all_results in
  call results := compare_paths graph case.1 case.2 in
  Return (all_results ++
          [CaseResult case.1 case.2
             (length_if_true results.1) (length_if_true results.2)]).

(** The truth value of a stored length: [None] and 0 are false. *)
Definition true_length (n : option nat) : option nat :=
  match n with
  | Some (S m) => Some (S m)
  | _ => None
  end.

(** The body of [for result in all_results]: [total_diff] and [count]. *)
Definition summarize (st : Z * nat) (result : case_result) : Z * nat :=
  match true_length (r_dfs_length result), true_length (r_bfs_length result) with
  | Some dfs_length, Some bfs_length =>
      ((st.1 + (Z.of_nat dfs_length - Z.of_nat bfs_length))%Z, S st.2)
  | _, _ => st
  end.

(** [demonstrate_algorithms]: the entries of [all_results], then
    [total_diff], [count] and, when [count > 0], [avg_diff]. *)
Definition demonstrate_algorithms (graph : Graph)
    : outcome (list case_result * Z * nat * option Q) :=
  call all_results := fold_left (run_case graph) test_cases (Return []) in
  let totals := fold_left summarize all_results (0%Z, 0) in
  let avg_diff :=
    if decide (0 < totals.2)
    then Some (inject_Z totals.1 / inject_Z (Z.of_nat totals.2))%Q
    else None in
  Return (all_results, totals.1, totals.2, avg_diff).

(** ** task_3.py: showing the weighted route *)

(** [display_shortest_path]: [None] when the query found nothing, else the
    route and its total distance. *)
Definition display_shortest_path (graph : Graph) (start goal : string)
    : outcome (option (list string * Q)) :=
  call result := dijkstra_shortest_path graph start goal in
  match result with
  | None => Return None
  | Some (path, total_distance, edge_details) =>
      Return (Some (path, total_distance))
  end.

(** The analysis [compare_with_bfs] prints. *)
Inductive analysis : Type :=
  | SameDistance
  | DijkstraShorter (savings savings_percent : Q).

(** Lines 145-151 of [compare_with_bfs]. *)
Definition analyse (bfs_weighted_distance dijkstra_distance : Q)
    : outcome analysis :=
  if Qlt_le_dec (Qabs.Qabs (bfs_weighted_distance - dijkstra_distance)) (1 # 100)
  then Return SameDistance
  else
    let savings := (bfs_weighted_distance - dijkstra_distance)%Q in
    if Qeq_bool bfs_weighted_distance 0 then Raise ZeroDivisionError
    else
      Return (DijkstraShorter savings (savings / bfs_weighted_distance * 100)%Q).

(** How a run of a script-level function ends: normally, with an exception
    of the library, with the [TypeError] of unpacking [None], or without
    fuel. *)
Inductive run : Type :=
  | Completed
  | Uncaught (e : exn)
  | UnpackNone
  | Unfinished.

(** [graph.edges(data=True)] *)
Definition edges_with_data (graph : Graph) : list (string * string * edge_attr) :=
  (λ edge, (edge.1, edge.2,
            default nx.no_edge_attr (nx.edge_data graph edge.1 edge.2)))
    <$> nx.edges graph.

(** Lines 173-175 of [demonstrate_dijkstra]: the first five edges; the
    format [.2f] refuses the text ['N/A'] that stands in for a missing
    weight. *)
Definition sample_weight (edge : string * string * edge_attr) : outcome Q :=
  match e_weight edge.2 with
  | Some weight => Return weight
  | None => Raise ValueError
  end.

Fixpoint sample_weights (edges : list (string * string * edge_attr))
    : outcome (list Q) :=
  match edges with
  | [] => Return []
  | edge :: edges' =>
      call weight := sample_weight edge in
      call rest := sample_weights edges' in
      Return (weight :: rest)
  end.

(** [nx.shortest_path(graph, start, goal)] belongs to networkx; the two
    functions that call it take it as a parameter. *)
Section with_shortest_path.
Variable nx_shortest_path : Graph → string → string → outcome (list string).

(** [compare_with_bfs]: [None] stands for the branch that catches
    [NetworkXNoPath]. *)
Definition compare_with_bfs (graph : Graph) (start goal : string)
    (dijkstra_distance : Q) : outcome (option analysis) :=
  match
    (call bfs_path := nx_shortest_path graph start goal in
     call bfs_weighted_distance := bfs_weighted_distance graph bfs_path in
     call result := analyse bfs_weighted_distance dijkstra_distance in
     Return (Some result))
  with
  | Raise NetworkXNoPath => Return None
  | other => other
  end.

(** [demonstrate_dijkstra]: [path, distance = display_shortest_path(...)]
    unpacks the result, which fails on [None]. *)
Definition demonstrate_dijkstra (graph : Graph) (start goal : string) : run :=
  match sample_weights (take 5 (edges_with_data graph)) with
  | Raise e => Uncaught e
  | OutOfFuel => Unfinished
  | Return _ =>
      match display_shortest_path graph start goal with
      | Raise e => Uncaught e
      | OutOfFuel => Unfinished
      | Return None => UnpackNone
      | Return (Some (path, distance)) =>
          if truthy (Some path) then
            match compare_with_bfs graph start goal distance with
            | Return _ => Completed
            | Raise e => Uncaught e
            | OutOfFuel => Unfinished
            end
          else Completed
      end
  end.

(** [main] of task_3.py, from the graph that [load_graph] returned. *)
Definition task_3_main (R : generator) (G : Graph) (shared : gen_state R) : run :=
  match add_random_weights R G 2 3 42 shared with
  | Return (weighted_G, _) =>
      demonstrate_dijkstra weighted_G "Viktoria-Luise-Platz" "Weberwiese"
  | Raise e => Uncaught e
  | OutOfFuel => Unfinished
  end.
End with_shortest_path.

(** * Properties *)

(** ** Facts about dictionaries *)

Section dict_facts.
Context {K V : Type} `{EqDecision K}.
Implicit Types (d : list (K * V)) (k : K) (v : V).

Lemma dict_get_Some_elem k v d : dict_get k d = Some v → (k, v) ∈ d.
Proof.
  induction d as [|[k' v'] d IH]; simpl; [done|].
  case_decide; intros ?; simplify_eq.
  - by left.
  - right. auto.
Qed.

Lemma dict_get_is_Some k d : is_Some (dict_get k d) ↔ k ∈ dict_keys d.
Proof.
  unfold dict_keys. induction d as [|[k' v'] d IH]; simpl.
  - split; [by intros [? ?] | by intros ?%elem_of_nil].
  - case_decide; subst.
    + split; [intros _; by left | eauto].
    + rewrite IH, elem_of_cons. split; [by right | by intros [?|?]].
Qed.

Lemma dict_get_None k d : dict_get k d = None ↔ k ∉ dict_keys d.
Proof. rewrite <-dict_get_is_Some, eq_None_not_Some. done. Qed.

Lemma dict_get_elem k v d :
  NoDup (dict_keys d) → (k, v) ∈ d → dict_get k d = Some v.
Proof.
  unfold dict_keys. induction d as [|[k' v'] d IH]; simpl.
  - by intros _ ?%elem_of_nil.
  - intros [Hk Hd]%NoDup_cons [Heq|Hin]%elem_of_cons.
    + simplify_eq. by rewrite decide_True.
    + case_decide; [|by auto]. subst. destruct Hk.
      apply list_elem_of_fmap. by exists (k', v).
Qed.

Lemma dict_keys_app d1 d2 : dict_keys (d1 ++ d2) = dict_keys d1 ++ dict_keys d2.
Proof. unfold dict_keys. by rewrite fmap_app. Qed.

Lemma dict_mem_true k d : dict_mem k d = true ↔ k ∈ dict_keys d.
Proof. unfold dict_mem. by rewrite bool_decide_eq_true. Qed.

Lemma dict_mem_false k d : dict_mem k d = false ↔ k ∉ dict_keys d.
Proof. unfold dict_mem. by rewrite bool_decide_eq_false. Qed.

Lemma dict_keys_alter f k d : dict_keys (dict_alter f k d) = dict_keys d.
Proof.
  unfold dict_keys. induction d as [|[k' v'] d IH]; csimpl; [done|].
  case_decide; csimpl; by rewrite ?IH.
Qed.

Lemma dict_get_alter f k k' d :
  dict_get k' (dict_alter f k d) =
  if decide (k' = k) then f <$> dict_get k' d else dict_get k' d.
Proof.
  induction d as [|[k0 v0] d IH]; simpl.
  - by case_decide.
  - repeat (case_decide; simpl; simplify_eq); rewrite ?IH;
      repeat case_decide; done.
Qed.

Lemma dict_keys_set_old k v d :
  k ∈ dict_keys d → dict_keys (dict_set k v d) = dict_keys d.
Proof.
  unfold dict_keys. induction d as [|[k0 v0] d IH]; csimpl.
  - by intros ?%elem_of_nil.
  - intros Hin. case_decide; csimpl; subst; [done|].
    f_equal. apply IH. apply elem_of_cons in Hin as [?|?]; done.
Qed.

Lemma dict_keys_set_new k v d :
  k ∉ dict_keys d → dict_keys (dict_set k v d) = dict_keys d ++ [k].
Proof.
  unfold dict_keys. induction d as [|[k0 v0] d IH]; csimpl; [done|].
  intros Hin. apply not_elem_of_cons in Hin as [? ?].
  case_decide; csimpl; subst; [done|]. f_equal. by apply IH.
Qed.

Lemma dict_get_set k v k' d :
  dict_get k' (dict_set k v d) = if decide (k' = k) then Some v else dict_get k' d.
Proof.
  induction d as [|[k0 v0] d IH]; simpl.
  - by case_decide.
  - repeat (case_decide; simpl; simplify_eq); rewrite ?IH;
      repeat case_decide; done.
Qed.

End dict_facts.

(** ** Adjacency and walks *)

(** [v] is a neighbour of [u]. *)
Definition adjacent (g : Graph) (u v : string) : Prop :=
  is_Some (nx.edge_data g u v).

(** [walk g s x p]: [p] lists the stations of a route from [s] to [x], each
    one a neighbour of the one before.  Routes grow at the far end, as the
    searches build them ([path + [neighbor]]). *)
Inductive walk (g : Graph) (s : string) : string → list string → Prop :=
  | walk_start : walk g s s [s]
  | walk_step u v p : walk g s u p → adjacent g u v → walk g s v (p ++ [v]).

Lemma neighbors_Return g u nbrs :
  nx.neighbors g u = Return nbrs → ∀ v, v ∈ nbrs ↔ adjacent g u v.
Proof.
  unfold nx.neighbors, adjacent, nx.edge_data.
  destruct (dict_get u (g_adj g)) as [nb|] eqn:E; intros ? v; simplify_eq.
  simpl. symmetry. apply dict_get_is_Some.
Qed.

Lemma has_node_true g n : nx.has_node g n = true ↔ n ∈ nx.nodes g.
Proof. apply dict_mem_true. Qed.

Lemma has_node_false g n : nx.has_node g n = false ↔ n ∉ nx.nodes g.
Proof. apply dict_mem_false. Qed.

Lemma wf_neighbors g u :
  nx.wf g → u ∈ nx.nodes g → ∃ nbrs, nx.neighbors g u = Return nbrs.
Proof.
  intros (_ & Hkeys & _) Hu. unfold nx.neighbors.
  rewrite <-Hkeys in Hu. apply dict_get_is_Some in Hu as [nb ->]. eauto.
Qed.

Lemma adjacent_inv g u v :
  adjacent g u v →
  ∃ nbrs e, dict_get u (g_adj g) = Some nbrs ∧ dict_get v nbrs = Some e.
Proof.
  unfold adjacent, nx.edge_data. intros [e He].
  destruct (dict_get u (g_adj g)) as [nb|]; simplify_eq/=. eauto.
Qed.

Lemma wf_edge_sym g u v e :
  nx.wf g → nx.edge_data g u v = Some e → nx.edge_data g v u = Some e.
Proof.
  intros (_ & _ & Hadj) He. unfold nx.edge_data in He.
  destruct (dict_get u (g_adj g)) as [nb|] eqn:Hu; simplify_eq/=.
  apply dict_get_Some_elem in Hu, He.
  rewrite Forall_forall in Hadj. destruct (Hadj _ Hu) as [_ Hnb].
  rewrite Forall_forall in Hnb. apply (Hnb _ He).
Qed.

Lemma wf_adjacent_sym g u v : nx.wf g → adjacent g u v → adjacent g v u.
Proof. intros Hwf [e He]. exists e. by apply wf_edge_sym. Qed.

Lemma adjacent_node_l g u v : nx.wf g → adjacent g u v → u ∈ nx.nodes g.
Proof.
  intros (_ & Hkeys & _) (nb & e & Hu & _)%adjacent_inv.
  rewrite <-Hkeys. apply dict_get_is_Some. eauto.
Qed.

Lemma adjacent_node_r g u v : nx.wf g → adjacent g u v → v ∈ nx.nodes g.
Proof. intros Hwf H. eapply adjacent_node_l, wf_adjacent_sym; eauto. Qed.

Lemma walk_node g s x p :
  nx.wf g → s ∈ nx.nodes g → walk g s x p → x ∈ nx.nodes g.
Proof. intros Hwf Hs [|u v q _ Hadj]; [done|]. by eapply adjacent_node_r. Qed.

Lemma walk_nonempty g s x p : walk g s x p → 0 < length p.
Proof. intros [|]; rewrite ?length_app; simpl; lia. Qed.

Lemma walk_last g s x p : walk g s x p → last p = Some x.
Proof. intros [|]; [done|]. by rewrite last_snoc. Qed.

Lemma walk_head g s x p : walk g s x p → head p = Some s.
Proof.
  induction 1 as [|u v p Hw IH Hadj]; [done|].
  destruct p; simplify_eq/=; done.
Qed.

(** Walks compose, and in a well-formed (undirected) graph they reverse:
    being joined by a walk is the relation "in the same connected
    component". *)
Lemma walk_app g s u x p q :
  walk g s u p → walk g u x q → walk g s x (p ++ tail q).
Proof.
  intros Hp Hq. induction Hq as [|a b q Hq IH Hadj].
  - simpl. by rewrite app_nil_r.
  - destruct q as [|c q]; [by apply walk_nonempty in Hq; simpl in Hq; lia|].
    simpl in *. rewrite app_assoc. by eapply walk_step.
Qed.

Lemma walk_sym g s x p :
  nx.wf g → walk g s x p → ∃ q, walk g x s q ∧ length q = length p.
Proof.
  intros Hwf. induction 1 as [|u v p Hw (q & Hq & Hlen) Hadj].
  - exists [s]. split; [constructor|done].
  - assert (walk g v u ([v] ++ [u])) as Hvu.
    { apply walk_step with v; [constructor|by apply wf_adjacent_sym]. }
    exists (([v] ++ [u]) ++ tail q). split; [by eapply walk_app|].
    apply walk_nonempty in Hq. destruct q; simpl in *; [lia|].
    rewrite length_app. simpl. lia.
Qed.

(** ** Breadth-first search *)

(** The neighbours that one pass of the [for neighbor] loop enqueues. *)
Fixpoint fresh (visited : gset string) (l : list string) : list string :=
  match l with
  | [] => []
  | n :: l' =>
      if decide (n ∈ visited) then fresh visited l'
      else n :: fresh ({[n]} ∪ visited) l'
  end.

Lemma bfs_enqueue_fold path l visited queue :
  fold_left (bfs_enqueue path) l (visited, queue) =
  (list_to_set (fresh visited l) ∪ visited,
   queue ++ ((λ n, (n, path ++ [n])) <$> fresh visited l)).
Proof.
  revert visited queue. induction l as [|n l IH]; intros visited queue; simpl.
  - rewrite app_nil_r. f_equal. set_solver.
  - unfold bfs_enqueue at 2. simpl. case_decide.
    + apply IH.
    + rewrite IH. csimpl. rewrite <-app_assoc. f_equal. set_solver.
Qed.

Lemma fresh_elem visited l n : n ∈ fresh visited l → n ∈ l ∧ n ∉ visited.
Proof.
  revert visited. induction l as [|m l IH]; intros visited; simpl.
  - by intros ?%elem_of_nil.
  - case_decide.
    + intros [? ?]%IH. split; [by right|done].
    + intros [->|[? ?]%IH]%elem_of_cons; [split; [by left|done]|].
      split; [by right|set_solver].
Qed.

Lemma fresh_NoDup visited l : NoDup (fresh visited l).
Proof.
  revert visited. induction l as [|m l IH]; intros visited; simpl.
  - constructor.
  - case_decide; [apply IH|]. constructor; [|apply IH].
    intros [_ ?]%fresh_elem. set_solver.
Qed.

Lemma fresh_cover visited l n : n ∈ l → n ∈ visited ∨ n ∈ fresh visited l.
Proof.
  revert visited. induction l as [|m l IH]; intros visited; simpl.
  - by intros ?%elem_of_nil.
  - intros [->|Hin]%elem_of_cons; case_decide; eauto.
    + right. by left.
    + destruct (IH ({[m]} ∪ visited) Hin) as [Hv|Hf].
      * apply elem_of_union in Hv as [->%elem_of_singleton|?]; [|by left].
        right. by left.
      * right. by right.
Qed.

Lemma size_difference_fresh (N visited : gset string) (new : list string) :
  NoDup new → (∀ n, n ∈ new → n ∈ N ∧ n ∉ visited) →
  size (N ∖ (list_to_set new ∪ visited)) + length new = size (N ∖ visited).
Proof.
  intros Hnd Hnew.
  assert (N ∖ visited = list_to_set new ∪ N ∖ (list_to_set new ∪ visited)) as ->.
  { apply set_eq. intros x. rewrite elem_of_union, !elem_of_difference,
      elem_of_union, elem_of_list_to_set.
    split.
    - intros [? ?]. destruct (decide (x ∈ new)); [by left|right]. naive_solver.
    - intros [Hx|[? ?]]; [by apply Hnew|]. naive_solver. }
  rewrite (size_union (list_to_set new : gset string) (N ∖ _)) by set_solver.
  rewrite size_list_to_set by done. lia.
Qed.

Section bfs.
Variables (g : Graph) (s t : string).
Hypothesis Hwf : nx.wf g.
Hypothesis Hs : s ∈ nx.nodes g.

(** What holds of [visited] and [queue] each time the [while] test runs. *)
Record bfs_inv (visited : gset string) (queue : list (string * list string))
    : Prop := BfsInv {
  bfs_walk u p : (u, p) ∈ queue → walk g s u p;
  bfs_minimal u p q : (u, p) ∈ queue → walk g s u q → length p ≤ length q;
  bfs_order i j e1 e2 :
    i ≤ j → queue !! i = Some e1 → queue !! j = Some e2 →
    length e1.2 ≤ length e2.2 ≤ S (length e1.2);
  bfs_queued u p : (u, p) ∈ queue → u ∈ visited;
  bfs_closed u v : u ∈ visited → u ∉ queue.*1 → adjacent g u v → v ∈ visited;
  bfs_start : s ∈ visited;
  bfs_goal : t ∈ visited → t ∈ queue.*1;
  bfs_nodes u : u ∈ visited → u ∈ nx.nodes g
}.

Lemma bfs_inv_init : bfs_inv {[s]} [(s, [s])].
Proof.
  split.
  - intros u p [= -> ->]%list_elem_of_singleton. constructor.
  - intros u p q [= -> ->]%list_elem_of_singleton Hq.
    apply walk_nonempty in Hq. simpl. lia.
  - intros i j e1 e2 _ H1 H2.
    apply list_lookup_singleton_Some in H1 as [_ <-].
    apply list_lookup_singleton_Some in H2 as [_ <-]. simpl. lia.
  - intros u p [= -> ->]%list_elem_of_singleton. set_solver.
  - intros u v ->%elem_of_singleton Hu. destruct Hu. simpl. by left.
  - set_solver.
  - intros ->%elem_of_singleton. simpl. by left.
  - by intros u ->%elem_of_singleton.
Qed.

(** Every station that a walk no longer than the shortest queued route
    reaches has been visited. *)
Lemma bfs_reach visited queue x q :
  bfs_inv visited queue → walk g s x q →
  (∀ u p, (u, p) ∈ queue → length q ≤ length p) → x ∈ visited.
Proof.
  intros Hinv Hq. induction Hq as [|u v q Hq IH Hadj]; intros Hlen.
  - by apply (bfs_start _ _ Hinv).
  - assert (u ∈ visited) as Hu.
    { apply IH. intros u' p' Hin. specialize (Hlen _ _ Hin).
      rewrite length_app in Hlen. simpl in Hlen. lia. }
    apply (bfs_closed _ _ Hinv u v); [done| |done].
    intros ((u' & p') & -> & Hin)%list_elem_of_fmap. simpl in *.
    pose proof (bfs_minimal _ _ Hinv _ _ _ Hin Hq).
    specialize (Hlen _ _ Hin). rewrite length_app in Hlen. simpl in Hlen. lia.
Qed.

(** One turn of the loop that does not stop at the goal. *)
Lemma bfs_inv_step visited c pc queue nbrs :
  bfs_inv visited ((c, pc) :: queue) → c ≠ t →
  nx.neighbors g c = Return nbrs →
  bfs_inv (list_to_set (fresh visited nbrs) ∪ visited)
          (queue ++ ((λ n, (n, pc ++ [n])) <$> fresh visited nbrs)).
Proof.
  intros Hinv Hct Hnb.
  pose proof (neighbors_Return _ _ _ Hnb) as Hadj.
  assert (∀ u p, (u, p) ∈ (λ n, (n, pc ++ [n])) <$> fresh visited nbrs →
            p = pc ++ [u] ∧ adjacent g c u ∧ u ∉ visited) as Hnew.
  { intros u p (n & [= -> ->] & [Hn ?]%fresh_elem)%list_elem_of_fmap.
    split; [done|]. split; [by apply Hadj|done]. }
  assert (walk g s c pc) as Hc by (apply (bfs_walk _ _ Hinv); by left).
  assert (∀ u p, (u, p) ∈ queue →
            length pc ≤ length p ≤ S (length pc)) as Hspread.
  { intros u p (i & Hi)%list_elem_of_lookup.
    apply (bfs_order _ _ Hinv 0 (S i) (c, pc) (u, p)); [lia|done|done]. }
  split.
  - intros u p [Hin|Hin]%elem_of_app.
    + apply (bfs_walk _ _ Hinv). by right.
    + destruct (Hnew _ _ Hin) as (-> & ? & _). by eapply walk_step.
  - intros u p q [Hin|Hin]%elem_of_app Hq.
    + apply (bfs_minimal _ _ Hinv u); [by right|done].
    + destruct (Hnew _ _ Hin) as (-> & ? & Hu).
      rewrite length_app. simpl.
      destruct (decide (length q ≤ length pc)) as [Hle|?]; [|lia].
      destruct Hu. apply (bfs_reach _ _ _ _ Hinv Hq).
      intros u' p' [[= -> ->]|Hin']%elem_of_cons; [done|].
      specialize (Hspread _ _ Hin'). lia.
  - intros i j e1 e2 Hij H1 H2.
    assert (∀ k e, (queue ++ ((λ n, (n, pc ++ [n])) <$> fresh visited nbrs)) !! k
                   = Some e →
              (k < length queue ∧ queue !! k = Some e) ∨
              (length queue ≤ k ∧ length e.2 = S (length pc))) as Hcase.
    { intros k e Hk. apply lookup_app_Some in Hk as [Hk|[? Hk]].
      - left. split; [by eapply lookup_lt_Some|done].
      - right. split; [done|]. apply list_elem_of_lookup_2 in Hk.
        destruct e as [u p]. destruct (Hnew _ _ Hk) as (-> & _).
        simpl. rewrite length_app. simpl. lia. }
    destruct (Hcase _ _ H1) as [[? H1']|[? Hl1]],
             (Hcase _ _ H2) as [[? H2']|[? Hl2]]; try lia.
    + apply (bfs_order _ _ Hinv (S i) (S j)); [lia|done|done].
    + destruct e1 as [u1 p1]. apply list_elem_of_lookup_2 in H1'.
      specialize (Hspread _ _ H1'). simpl in *. lia.
  - intros u p [Hin|Hin]%elem_of_app.
    + apply elem_of_union_r. apply (bfs_queued _ _ Hinv u p). by right.
    + apply elem_of_union_l, elem_of_list_to_set.
      apply list_elem_of_fmap in Hin as (n & [= -> ->] & ?). done.
  - intros u v Hu Hnq Huv.
    rewrite fmap_app, elem_of_app in Hnq.
    apply elem_of_union in Hu as [Hu|Hu].
    { destruct Hnq. right. apply elem_of_list_to_set in Hu.
      rewrite <-list_fmap_compose. simpl.
      apply list_elem_of_fmap. exists u. done. }
    destruct (decide (u = c)) as [->|Huc].
    + apply Hadj in Huv. apply (fresh_cover visited) in Huv as [?|?].
      * by apply elem_of_union_r.
      * by apply elem_of_union_l, elem_of_list_to_set.
    + apply elem_of_union_r. apply (bfs_closed _ _ Hinv u v); [done| |done].
      simpl. intros [?|?]%elem_of_cons; [done|]. apply Hnq. by left.
  - apply elem_of_union_r, (bfs_start _ _ Hinv).
  - intros [Ht|Ht]%elem_of_union; rewrite fmap_app, elem_of_app.
    + right. apply elem_of_list_to_set in Ht.
      rewrite <-list_fmap_compose. apply list_elem_of_fmap. by exists t.
    + left. apply (bfs_goal _ _ Hinv) in Ht. simpl in Ht.
      apply elem_of_cons in Ht as [?|?]; [congruence|done].
  - intros u [Hu|Hu]%elem_of_union; [|by apply (bfs_nodes _ _ Hinv)].
    apply elem_of_list_to_set, fresh_elem in Hu as [Hu _].
    apply Hadj in Hu. by eapply adjacent_node_r.
Qed.

Lemma bfs_measure_step visited nbrs c :
  (∀ u, u ∈ visited → u ∈ nx.nodes g) →
  nx.neighbors g c = Return nbrs →
  size ((list_to_set (nx.nodes g) : gset string)
          ∖ (list_to_set (fresh visited nbrs) ∪ visited))
  + length (fresh visited nbrs)
  = size ((list_to_set (nx.nodes g) : gset string) ∖ visited).
Proof.
  intros Hvis Hnb. apply size_difference_fresh; [apply fresh_NoDup|].
  intros n [Hn ?]%fresh_elem. split; [|done].
  apply elem_of_list_to_set. eapply adjacent_node_r; [done|].
  by apply (neighbors_Return _ _ _ Hnb).
Qed.

(** The loop returns, and what it returns is right. *)
Lemma bfs_loop_correct fuel visited queue :
  bfs_inv visited queue →
  length queue + size ((list_to_set (nx.nodes g) : gset string) ∖ visited) < fuel →
  ∃ r, bfs_loop g t fuel visited queue = Return r ∧
       match r with
       | Some p => walk g s t p ∧ ∀ q, walk g s t q → length p ≤ length q
       | None => ∀ q, ¬ walk g s t q
       end.
Proof.
  revert visited queue. induction fuel as [|fuel IH]; intros visited queue Hinv Hfuel;
    [lia|].
  simpl. destruct queue as [|[c pc] queue].
  - exists None. split; [done|]. intros q Hq.
    assert (t ∈ visited) as Ht.
    { apply (bfs_reach _ _ _ _ Hinv Hq). by intros u p ?%elem_of_nil. }
    apply (bfs_goal _ _ Hinv) in Ht. by apply elem_of_nil in Ht.
  - case_decide as Hc.
    + subst c. exists (Some pc). split; [done|]. split.
      * apply (bfs_walk _ _ Hinv). by left.
      * intros q. apply (bfs_minimal _ _ Hinv). by left.
    + assert (c ∈ nx.nodes g) as Hcn.
      { apply (bfs_nodes _ _ Hinv), (bfs_queued _ _ Hinv c pc). by left. }
      destruct (wf_neighbors _ _ Hwf Hcn) as [nbrs Hnb]. rewrite Hnb. simpl.
      rewrite bfs_enqueue_fold. simpl. apply IH.
      * by apply (bfs_inv_step _ c).
      * pose proof (bfs_measure_step visited nbrs c (bfs_nodes _ _ Hinv) Hnb).
        rewrite length_app, length_fmap. simpl in Hfuel. lia.
Qed.

Lemma bfs_path_correct :
  t ∈ nx.nodes g →
  ∃ r, bfs_path g s t = Return r ∧
       match r with
       | Some p => walk g s t p ∧ ∀ q, walk g s t q → length p ≤ length q
       | None => ∀ q, ¬ walk g s t q
       end.
Proof.
  intros Ht. unfold bfs_path.
  apply has_node_true in Hs as Hs', Ht. rewrite Hs', Ht. cbn [negb orb].
  apply bfs_loop_correct; [apply bfs_inv_init|].
  unfold bfs_fuel. cbn [length].
  destruct Hwf as (Hnd & _).
  rewrite <-(size_list_to_set (C:=gset string) (nx.nodes g)) by done.
  assert (size ((list_to_set (nx.nodes g) : gset string) ∖ {[s]})
          < size (list_to_set (nx.nodes g) : gset string)); [|lia].
  apply subset_size. set_solver.
Qed.
End bfs.

(** ** Depth-first search *)

Lemma dfs_push_fold visited path l stack :
  fold_left (dfs_push visited path) l stack =
  reverse ((λ n, (n, path ++ [n])) <$> filter (λ n, n ∉ visited) l) ++ stack.
Proof.
  revert stack. induction l as [|n l IH]; intros stack; simpl; [done|].
  rewrite IH. unfold dfs_push. rewrite filter_cons.
  destruct (decide (n ∈ visited)).
  - by rewrite decide_False by auto.
  - rewrite decide_True by done. csimpl. by rewrite reverse_cons, <-app_assoc.
Qed.

Lemma dfs_push_rev visited path nbrs stack :
  fold_left (dfs_push visited path) (reverse nbrs) stack =
  ((λ n, (n, path ++ [n])) <$> filter (λ n, n ∉ visited) nbrs) ++ stack.
Proof.
  rewrite dfs_push_fold. f_equal.
  by rewrite <-fmap_reverse, <-filter_reverse, reverse_involutive.
Qed.

(** What is left to do: every station not yet expanded may still push all its
    neighbours. *)
Definition dfs_weight (visited : gset string)
    (adj : list (string * list (string * edge_attr))) : nat :=
  sum_list ((λ x, if decide (x.1 ∈ visited) then 0 else S (length x.2)) <$> adj).

Lemma dfs_weight_mono c visited adj :
  dfs_weight ({[c]} ∪ visited) adj ≤ dfs_weight visited adj.
Proof.
  unfold dfs_weight. induction adj as [|[n nb] adj IH]; csimpl; [done|].
  repeat case_decide; try lia. set_solver.
Qed.

Lemma dfs_weight_visit c nb visited adj :
  dict_get c adj = Some nb → c ∉ visited →
  dfs_weight ({[c]} ∪ visited) adj + S (length nb) ≤ dfs_weight visited adj.
Proof.
  unfold dfs_weight. induction adj as [|[n nb'] adj IH]; csimpl; [done|].
  intros Hget Hc. case_decide; simplify_eq.
  - rewrite decide_True by set_solver. rewrite decide_False by done.
    pose proof (dfs_weight_mono n visited adj). unfold dfs_weight in *. lia.
  - specialize (IH Hget Hc). repeat case_decide; try lia. set_solver.
Qed.

Lemma dfs_weight_empty adj :
  dfs_weight ∅ adj = length adj + sum_list ((λ x, length x.2) <$> adj).
Proof.
  unfold dfs_weight. induction adj as [|[n nb] adj IH]; csimpl; [done|].
  rewrite decide_False by set_solver. lia.
Qed.

Section dfs.
Variables (g : Graph) (s t : string).
Hypothesis Hwf : nx.wf g.
Hypothesis Hs : s ∈ nx.nodes g.

(** What holds of [visited] and [stack] each time the [while] test runs. *)
Record dfs_inv (visited : gset string) (stack : list (string * list string))
    : Prop := DfsInv {
  dfs_walk u p : (u, p) ∈ stack → walk g s u p;
  dfs_closed u v : u ∈ visited → adjacent g u v → v ∈ visited ∨ v ∈ stack.*1;
  dfs_start : s ∈ visited ∨ s ∈ stack.*1;
  dfs_goal : t ∉ visited
}.

Lemma dfs_inv_init : dfs_inv ∅ [(s, [s])].
Proof.
  split.
  - intros u p [= -> ->]%list_elem_of_singleton. constructor.
  - set_solver.
  - right. simpl. by left.
  - set_solver.
Qed.

Lemma dfs_inv_skip visited c pc stack :
  dfs_inv visited ((c, pc) :: stack) → c ∈ visited → dfs_inv visited stack.
Proof.
  intros Hinv Hc. split.
  - intros u p Hin. apply (dfs_walk _ _ Hinv). by right.
  - intros u v Hu Huv.
    destruct (dfs_closed _ _ Hinv u v Hu Huv) as [?|Hin]; [by left|].
    simpl in Hin. apply elem_of_cons in Hin as [->|?]; [by left|by right].
  - destruct (dfs_start _ _ Hinv) as [?|Hin]; [by left|].
    simpl in Hin. apply elem_of_cons in Hin as [->|?]; [by left|by right].
  - apply (dfs_goal _ _ Hinv).
Qed.

Lemma dfs_inv_expand visited c pc stack nbrs :
  dfs_inv visited ((c, pc) :: stack) → c ≠ t →
  nx.neighbors g c = Return nbrs →
  dfs_inv ({[c]} ∪ visited)
    (((λ n, (n, pc ++ [n])) <$> filter (λ n, n ∉ {[c]} ∪ visited) nbrs) ++ stack).
Proof.
  intros Hinv Hct Hnb.
  pose proof (neighbors_Return _ _ _ Hnb) as Hadj.
  assert (∀ v, v ∈ visited ∨ v ∈ ((c, pc) :: stack).*1 →
    v ∈ {[c]} ∪ visited ∨
    v ∈ (((λ n, (n, pc ++ [n])) <$> filter (λ n, n ∉ {[c]} ∪ visited) nbrs)
           ++ stack).*1) as Hkeep.
  { intros v [?|Hin]; [left; set_solver|]. simpl in Hin.
    apply elem_of_cons in Hin as [->|?]; [left; set_solver|].
    right. rewrite fmap_app, elem_of_app. by right. }
  split.
  - intros u p [Hin|Hin]%elem_of_app; [|apply (dfs_walk _ _ Hinv); by right].
    apply list_elem_of_fmap in Hin as (n & [= -> ->] & [_ Hn]%list_elem_of_filter).
    apply walk_step with c; [apply (dfs_walk _ _ Hinv); by left|by apply Hadj].
  - intros u v [->%elem_of_singleton|Hu]%elem_of_union Huv.
    + destruct (decide (v ∈ {[c]} ∪ visited)) as [?|Hv]; [by left|right].
      rewrite fmap_app, elem_of_app. left.
      rewrite <-list_fmap_compose. apply list_elem_of_fmap. exists v.
      split; [done|]. apply list_elem_of_filter. split; [done|by apply Hadj].
    + apply Hkeep. by apply (dfs_closed _ _ Hinv u v).
  - apply Hkeep, (dfs_start _ _ Hinv).
  - pose proof (dfs_goal _ _ Hinv). set_solver.
Qed.

(** The loop returns, and what it returns is right. *)
Lemma dfs_loop_correct fuel visited stack :
  dfs_inv visited stack →
  length stack + dfs_weight visited (g_adj g) < fuel →
  ∃ r, dfs_loop g t fuel visited stack = Return r ∧
       match r with
       | Some p => walk g s t p
       | None => ∀ q, ¬ walk g s t q
       end.
Proof.
  revert visited stack. induction fuel as [|fuel IH]; intros visited stack Hinv Hfuel;
    [lia|].
  simpl. destruct stack as [|[c pc] stack].
  - exists None. split; [done|]. intros q Hq.
    assert (∀ x p, walk g s x p → x ∈ visited) as Hall.
    { induction 1 as [|u v p Hp IHp Huv].
      - destruct (dfs_start _ _ Hinv) as [?|?%elem_of_nil]; done.
      - destruct (dfs_closed _ _ Hinv u v IHp Huv) as [?|?%elem_of_nil]; done. }
    by apply (dfs_goal _ _ Hinv), (Hall _ _ Hq).
  - case_decide as Hc.
    + subst c. exists (Some pc). split; [done|].
      apply (dfs_walk _ _ Hinv). by left.
    + case_decide as Hvis.
      * apply IH; [by eapply dfs_inv_skip|]. simpl in Hfuel. lia.
      * assert (walk g s c pc) as Hcw by (apply (dfs_walk _ _ Hinv); by left).
        pose proof (walk_node _ _ _ _ Hwf Hs Hcw) as Hcn.
        destruct (wf_neighbors _ _ Hwf Hcn) as [nbrs Hnb]. rewrite Hnb. simpl.
        rewrite dfs_push_rev. apply IH; [by apply dfs_inv_expand|].
        unfold nx.neighbors in Hnb.
        destruct (dict_get c (g_adj g)) as [nb|] eqn:Hget; simplify_eq.
        pose proof (dfs_weight_visit _ _ _ _ Hget Hvis).
        rewrite length_app, length_fmap.
        pose proof (length_filter (λ n, n ∉ {[c]} ∪ visited) (dict_keys nb)).
        unfold dict_keys in *. rewrite length_fmap in *. simpl in Hfuel. lia.
Qed.

Lemma dfs_path_correct :
  t ∈ nx.nodes g →
  ∃ r, dfs_path g s t = Return r ∧
       match r with
       | Some p => walk g s t p
       | None => ∀ q, ¬ walk g s t q
       end.
Proof.
  intros Ht. unfold dfs_path.
  apply has_node_true in Hs as Hs', Ht. rewrite Hs', Ht. cbn [negb orb].
  apply dfs_loop_correct; [apply dfs_inv_init|].
  unfold dfs_fuel, nx.number_of_adjacencies. rewrite dfs_weight_empty.
  destruct Hwf as (_ & Hkeys & _).
  rewrite <-Hkeys. unfold dict_keys. rewrite length_fmap. simpl. lia.
Qed.
End dfs.

(** A query for a station that is not in the graph gives [None]. *)
Lemma bfs_path_unknown g s t :
  s ∉ nx.nodes g ∨ t ∉ nx.nodes g → bfs_path g s t = Return None.
Proof.
  unfold bfs_path. intros [H|H]; apply has_node_false in H; rewrite H;
    [done|]. by rewrite orb_true_r.
Qed.

Lemma dfs_path_unknown g s t :
  s ∉ nx.nodes g ∨ t ∉ nx.nodes g → dfs_path g s t = Return None.
Proof.
  unfold dfs_path. intros [H|H]; apply has_node_false in H; rewrite H;
    [done|]. by rewrite orb_true_r.
Qed.

(** ** Weighted search *)

Lemma Qltb_true x y : nx.Qltb x y = true ↔ (x < y)%Q.
Proof.
  unfold nx.Qltb. rewrite negb_true_iff, <-not_true_iff_false, Qle_bool_iff.
  split; [apply Qnot_le_lt | apply Qlt_not_le].
Qed.

Lemma Qltb_false x y : nx.Qltb x y = false ↔ (y <= x)%Q.
Proof. unfold nx.Qltb. by rewrite negb_false_iff, Qle_bool_iff. Qed.

Lemma entry_lt_le a b : nx.entry_lt a b = true → (a.1.1 <= b.1.1)%Q.
Proof.
  unfold nx.entry_lt. intros [H|[H _]%andb_true_iff]%orb_true_iff.
  - apply Qltb_true in H. lra.
  - apply Qeq_bool_iff in H. lra.
Qed.

Lemma entry_lt_ge a b : nx.entry_lt a b = false → (b.1.1 <= a.1.1)%Q.
Proof.
  unfold nx.entry_lt. intros [H _]%orb_false_iff. by apply Qltb_false in H.
Qed.

(** [heappop] takes one entry out and that entry is a least one. *)
Lemma pop_min_perm e l : e :: l ≡ₚ (nx.pop_min e l).1 :: (nx.pop_min e l).2.
Proof.
  revert e. induction l as [|x l IH]; intros e; simpl; [done|].
  destruct (nx.entry_lt x e); simpl.
  - etrans; [|apply Permutation_swap]. apply Permutation_skip, IH.
  - etrans; [apply Permutation_swap|]. etrans; [|apply Permutation_swap].
    apply Permutation_skip, IH.
Qed.

Lemma pop_min_least e l y :
  y ∈ e :: l → ((nx.pop_min e l).1.1.1 <= y.1.1)%Q.
Proof.
  revert e y. induction l as [|x l IH]; intros e y; simpl.
  - intros ->%list_elem_of_singleton. lra.
  - destruct (nx.entry_lt x e) eqn:Hlt; simpl; intros Hy.
    + apply entry_lt_le in Hlt.
      assert (y = e ∨ y ∈ x :: l) as [->|Hy'].
      { rewrite !elem_of_cons in *. naive_solver. }
      * pose proof (IH x x ltac:(by left)). lra.
      * by apply IH.
    + apply entry_lt_ge in Hlt.
      assert (y = x ∨ y ∈ e :: l) as [->|Hy'].
      { rewrite !elem_of_cons in *. naive_solver. }
      * pose proof (IH e e ltac:(by left)). lra.
      * by apply IH.
Qed.

Lemma heappop_Some fringe m rest :
  nx.heappop fringe = Some (m, rest) →
  fringe ≡ₚ m :: rest ∧ ∀ y, y ∈ fringe → (m.1.1 <= y.1.1)%Q.
Proof.
  destruct fringe as [|e l]; simpl; [done|]. intros [= Heq].
  pose proof (pop_min_perm e l) as Hp. pose proof (pop_min_least e l) as Hl.
  rewrite Heq in Hp, Hl. done.
Qed.

Lemma heappop_None fringe : nx.heappop fringe = None → fringe = [].
Proof. by destruct fringe. Qed.

(** A walk together with what it costs, added up the way the search does:
    from 0, edge after edge, an edge without a weight counting 1. *)
Inductive wwalk (g : Graph) (s : string) : string → list string → Q → Prop :=
  | wwalk_start : wwalk g s s [s] 0%Q
  | wwalk_step u v p d e :
      wwalk g s u p d → nx.edge_data g u v = Some e →
      wwalk g s v (p ++ [v]) (d + nx.weight_of e)%Q.

Lemma wwalk_walk g s x p d : wwalk g s x p d → walk g s x p.
Proof.
  induction 1 as [|u v p d e _ IH He]; [constructor|].
  apply walk_step with u; [done|]. by exists e.
Qed.

Lemma walk_wwalk g s x p : walk g s x p → ∃ d, wwalk g s x p d.
Proof.
  induction 1 as [|u v p _ [d IH] [e He]].
  - exists 0%Q. constructor.
  - exists (d + nx.weight_of e)%Q. by eapply wwalk_step.
Qed.

(** No edge has a negative weight. *)
Definition weights_nonneg (g : Graph) : Prop :=
  Forall (λ x, Forall (λ y, (0 <= nx.weight_of y.2)%Q) x.2) (g_adj g).

(** Every edge has a weight. *)
Definition weights_present (g : Graph) : Prop :=
  Forall (λ x, Forall (λ y, is_Some (e_weight y.2)) x.2) (g_adj g).

#[global] Instance Qle_dec (x y : Q) : Decision (x <= y)%Q.
Proof.
  destruct (Qle_bool x y) eqn:H.
  - left. by apply Qle_bool_iff.
  - right. intros H'%Qle_bool_iff. congruence.
Defined.

#[global] Instance weights_nonneg_dec g : Decision (weights_nonneg g).
Proof. unfold weights_nonneg. apply _. Defined.

#[global] Instance weights_present_dec g : Decision (weights_present g).
Proof. unfold weights_present. apply _. Defined.

Lemma edge_data_elem g u v e :
  nx.edge_data g u v = Some e →
  ∃ nbrs, dict_get u (g_adj g) = Some nbrs ∧ (u, nbrs) ∈ g_adj g ∧ (v, e) ∈ nbrs.
Proof.
  unfold nx.edge_data. intros He.
  destruct (dict_get u (g_adj g)) as [nb|] eqn:Hu; simplify_eq/=.
  exists nb. split; [done|]. split; by apply dict_get_Some_elem.
Qed.

Lemma weights_nonneg_edge g u v e :
  weights_nonneg g → nx.edge_data g u v = Some e → (0 <= nx.weight_of e)%Q.
Proof.
  intros Hnn (nb & _ & Hu & Hv)%edge_data_elem.
  unfold weights_nonneg in Hnn. rewrite Forall_forall in Hnn.
  specialize (Hnn _ Hu). rewrite Forall_forall in Hnn. apply (Hnn _ Hv).
Qed.

Lemma weights_present_edge g u v e :
  weights_present g → nx.edge_data g u v = Some e → is_Some (e_weight e).
Proof.
  intros Hnn (nb & _ & Hu & Hv)%edge_data_elem.
  unfold weights_present in Hnn. rewrite Forall_forall in Hnn.
  specialize (Hnn _ Hu). rewrite Forall_forall in Hnn. apply (Hnn _ Hv).
Qed.

Lemma wwalk_nonneg g s x p d : weights_nonneg g → wwalk g s x p d → (0 <= d)%Q.
Proof.
  intros Hnn. induction 1 as [|u v p d e _ IH He]; [lra|].
  pose proof (weights_nonneg_edge _ _ _ _ Hnn He). lra.
Qed.

Lemma wf_item_edge g v nbrs u e :
  nx.wf g → dict_get v (g_adj g) = Some nbrs → (u, e) ∈ nbrs →
  nx.edge_data g v u = Some e.
Proof.
  intros (_ & _ & Hadj) Hv Hu. unfold nx.edge_data. rewrite Hv. simpl.
  apply dict_get_elem; [|done].
  rewrite Forall_forall in Hadj.
  by destruct (Hadj _ (dict_get_Some_elem _ _ _ Hv)) as [? _].
Qed.

Section dijkstra.
Variables (g : Graph) (s t : string).
Hypothesis Hwf : nx.wf g.
Hypothesis Hnn : weights_nonneg g.
Hypothesis Hs : s ∈ nx.nodes g.

(** What holds of the search state each time the [while] test runs, and,
    with [req] restricted, between two turns of the [for] loop.  [req x y]
    says that the edge from [x] to [y] has been looked at. *)
Record dj_inv (req : string → string → Prop) (st : nx.search) : Prop := DjInv {
  dj_real x d :
    nx.dist st !! x = Some d →
    ∃ p, wwalk g s x p d ∧ ∀ ps, nx.paths st = Some ps → ps !! x = Some p;
  dj_opt x d q c :
    nx.dist st !! x = Some d → wwalk g s x q c → (d <= c)%Q;
  dj_relaxed x d y e :
    nx.dist st !! x = Some d → nx.edge_data g x y = Some e → req x y →
    y ∈ dom (nx.dist st) ∨
    ∃ dy, nx.seen st !! y = Some dy ∧ (dy <= d + nx.weight_of e)%Q;
  dj_seen x dx :
    nx.seen st !! x = Some dx → x ∉ dom (nx.dist st) →
    (∃ c, (dx, c, x) ∈ nx.fringe st) ∧
    ∃ p, wwalk g s x p dx ∧ ∀ ps, nx.paths st = Some ps → ps !! x = Some p;
  dj_fringe d c x :
    (d, c, x) ∈ nx.fringe st →
    x ∈ dom (nx.dist st) ∨
    ∃ dx, nx.seen st !! x = Some dx ∧ (d = dx ∨ (dx < d)%Q);
  dj_source : s ∈ dom (nx.dist st) ∨ ∃ c, (0%Q, c, s) ∈ nx.fringe st;
  dj_target : t ∉ dom (nx.dist st)
}.

Definition every_edge : string → string → Prop := λ _ _, True.

Lemma dj_inv_weaken (req req' : string → string → Prop) st :
  (∀ x y, adjacent g x y → req' x y → req x y) →
  dj_inv req st → dj_inv req' st.
Proof.
  intros Himp Hinv. split; try apply Hinv.
  intros x d y e Hx He Hreq. apply (dj_relaxed _ _ Hinv x d y e); [done..|].
  apply Himp; [by exists e|done].
Qed.

Lemma dj_inv_init ps0 :
  ps0 = None ∨ ps0 = Some {[s := [s]]} →
  dj_inv every_edge (nx.Search ∅ {[s := 0%Q]} [(0%Q, 0, s)] 1 ps0).
Proof.
  intros Hps. split; simpl.
  - intros x d. by rewrite lookup_empty.
  - intros x d q c. by rewrite lookup_empty.
  - intros x d y e. by rewrite lookup_empty.
  - intros x dx [<- <-]%lookup_singleton_Some _. split.
    + exists 0. by left.
    + exists [s]. split; [constructor|].
      intros ps ->. destruct Hps as [?|[= ->]]; [done|].
      by rewrite lookup_singleton_eq.
  - intros d c x [= -> -> ->]%list_elem_of_singleton. right.
    exists 0%Q. rewrite lookup_singleton_eq. auto.
  - right. exists 0. by left.
  - set_solver.
Qed.

(** A walk from the source ends in a settled station or has cost at least
    that of some entry of the fringe. *)
Lemma dj_frontier st x q c :
  dj_inv every_edge st → wwalk g s x q c →
  x ∈ dom (nx.dist st) ∨ ∃ y, y ∈ nx.fringe st ∧ (y.1.1 <= c)%Q.
Proof.
  intros Hinv. induction 1 as [|u v p d e Hp IH He].
  - destruct (dj_source _ _ Hinv) as [?|[c ?]]; [by left|right].
    exists (0%Q, c, s). split; [done|simpl; lra].
  - pose proof (weights_nonneg_edge _ _ _ _ Hnn He) as Hw.
    destruct IH as [Hu|(y & Hy & Hle)].
    + apply elem_of_dom in Hu as [du Hu].
      pose proof (dj_opt _ _ Hinv _ _ _ _ Hu Hp) as Hdu.
      destruct (dj_relaxed _ _ Hinv u du v e Hu He I) as [?|(dy & Hdy & Hle)];
        [by left|].
      destruct (decide (v ∈ dom (nx.dist st))) as [?|Hv]; [by left|right].
      destruct (dj_seen _ _ Hinv v dy Hdy Hv) as [[c' Hc'] _].
      exists (dy, c', v). split; [done|simpl; lra].
    + right. exists y. split; [done|lra].
Qed.

(** The entry that comes out of the fringe for a station not yet settled
    carries its distance: the cost of a walk, and no walk costs less. *)
Lemma dj_pop_final st d c v rest :
  dj_inv every_edge st →
  nx.heappop (nx.fringe st) = Some ((d, c, v), rest) →
  v ∉ dom (nx.dist st) →
  (∃ p, wwalk g s v p d ∧ ∀ ps, nx.paths st = Some ps → ps !! v = Some p) ∧
  (∀ q c', wwalk g s v q c' → (d <= c')%Q).
Proof.
  intros Hinv [Hperm Hleast]%heappop_Some Hv.
  assert ((d, c, v) ∈ nx.fringe st) as Hin by (rewrite Hperm; by left).
  destruct (dj_fringe _ _ Hinv _ _ _ Hin) as [?|(dx & Hdx & Hd)]; [done|].
  destruct (dj_seen _ _ Hinv v dx Hdx Hv) as [[c' Hc'] Hp].
  assert (d = dx) as ->.
  { destruct Hd as [?|Hlt]; [done|].
    specialize (Hleast _ Hc'). simpl in Hleast. lra. }
  split; [done|]. intros q c'' Hq.
  destruct (dj_frontier _ _ _ _ Hinv Hq) as [?|(y & Hy & Hle)]; [done|].
  specialize (Hleast _ Hy). simpl in Hleast. lra.
Qed.

Lemma dj_inv_skip st d c v rest :
  dj_inv every_edge st →
  nx.heappop (nx.fringe st) = Some ((d, c, v), rest) →
  v ∈ dom (nx.dist st) →
  dj_inv every_edge
    (nx.Search (nx.dist st) (nx.seen st) rest (nx.count st) (nx.paths st)).
Proof.
  intros Hinv [Hperm _]%heappop_Some Hv.
  assert (∀ y, y ∈ nx.fringe st → y.2 ∉ dom (nx.dist st) → y ∈ rest) as Hrest.
  { intros y Hy Hny. rewrite Hperm in Hy.
    apply elem_of_cons in Hy as [->|?]; done. }
  split; simpl; try apply Hinv.
  - intros x dx Hx Hnx. destruct (dj_seen _ _ Hinv x dx Hx Hnx) as [[c' Hc'] Hp].
    split; [|done]. exists c'. by apply Hrest.
  - intros d' c' x Hin. apply (dj_fringe _ _ Hinv d' c' x).
    rewrite Hperm. by right.
  - destruct (dj_source _ _ Hinv) as [?|[c' Hc']]; [by left|].
    destruct (decide (s ∈ dom (nx.dist st))); [by left|right].
    exists c'. by apply Hrest.
Qed.

Lemma dj_inv_settle st d c v rest :
  dj_inv every_edge st →
  nx.heappop (nx.fringe st) = Some ((d, c, v), rest) →
  v ∉ dom (nx.dist st) → v ≠ t →
  dj_inv (λ x _, x ≠ v)
    (nx.Search (<[v := d]> (nx.dist st)) (nx.seen st) rest (nx.count st)
               (nx.paths st)).
Proof.
  intros Hinv Hpop Hv Hvt.
  destruct (dj_pop_final _ _ _ _ _ Hinv Hpop Hv) as [Hreal Hopt].
  apply heappop_Some in Hpop as [Hperm _].
  assert (∀ y, y ∈ nx.fringe st → y.2 ≠ v → y ∈ rest) as Hrest.
  { intros y Hy Hny. rewrite Hperm in Hy.
    apply elem_of_cons in Hy as [->|?]; done. }
  split; simpl.
  - intros x dx [[-> ->]|[? Hx]]%lookup_insert_Some; [done|].
    by apply (dj_real _ _ Hinv).
  - intros x dx q c' [[-> ->]|[? Hx]]%lookup_insert_Some; [by apply Hopt|].
    by apply (dj_opt _ _ Hinv).
  - intros x dx y e [[-> ->]|[? Hx]]%lookup_insert_Some He Hreq; [done|].
    destruct (dj_relaxed _ _ Hinv x dx y e Hx He I) as [?|?]; [left|by right].
    rewrite dom_insert_L. set_solver.
  - intros x dx Hx Hnx. rewrite dom_insert_L in Hnx.
    apply not_elem_of_union in Hnx as [Hxv%not_elem_of_singleton Hnx].
    destruct (dj_seen _ _ Hinv x dx Hx Hnx) as [[c' Hc'] Hp].
    split; [|done]. exists c'. by apply Hrest.
  - intros d' c' x Hin. rewrite dom_insert_L.
    destruct (dj_fringe _ _ Hinv d' c' x) as [?|?]; [|left; set_solver|by right].
    rewrite Hperm. by right.
  - rewrite dom_insert_L.
    destruct (decide (s = v)) as [->|Hsv]; [left; set_solver|].
    destruct (dj_source _ _ Hinv) as [?|[c' Hc']]; [left; set_solver|right].
    exists c'. by apply Hrest.
  - rewrite dom_insert_L. pose proof (dj_target _ _ Hinv). set_solver.
Qed.

(** One turn of the [for] loop over the neighbours of the station [v] that
    was just settled at distance [d]. *)
Lemma dj_relax_step req st v d u e :
  dj_inv req st → nx.dist st !! v = Some d → nx.edge_data g v u = Some e →
  ∃ st', nx.relax v d (Return st) (u, e) = Return st' ∧
         dj_inv (λ x y, req x y ∨ (x = v ∧ y = u)) st' ∧
         nx.dist st' = nx.dist st ∧
         length (nx.fringe st') ≤ S (length (nx.fringe st)) ∧
         (is_Some (nx.paths st) → is_Some (nx.paths st')).
Proof.
  intros Hinv Hv He. unfold nx.relax. simpl.
  destruct (dj_real _ _ Hinv v d Hv) as (pv & Hpv & Hpaths).
  assert (wwalk g s u (pv ++ [u]) (d + nx.weight_of e)) as Hpu
    by (by eapply wwalk_step).
  destruct (nx.dist st !! u) as [du|] eqn:Hu.
  - (* [u] is settled: its distance cannot be improved *)
    pose proof (dj_opt _ _ Hinv _ _ _ _ Hu Hpu) as Hle.
    apply Qltb_false in Hle. rewrite Hle.
    exists st. split; [done|]. split; [|auto].
    split; try apply Hinv.
    intros x dx y e' Hx He' [Hreq|[-> ->]].
    + by apply (dj_relaxed _ _ Hinv x dx y e').
    + left. apply elem_of_dom. eauto.
  - assert (u ∉ dom (nx.dist st)) as Hnu by (by apply not_elem_of_dom).
    destruct (match nx.seen st !! u with
              | Some seen_u => nx.Qltb (d + nx.weight_of e) seen_u
              | None => true
              end) eqn:Hbetter.
    + (* a first or a better route to [u] *)
      assert (∀ su, nx.seen st !! u = Some su → (d + nx.weight_of e < su)%Q)
        as Hlt.
      { intros su Hsu. rewrite Hsu in Hbetter. by apply Qltb_true. }
      assert (∃ ps', match nx.paths st with
                     | Some ps =>
                         match ps !! v with
                         | Some pv => Return (Some (<[u := pv ++ [u]]> ps))
                         | None => Raise KeyError
                         end
                     | None => Return None
                     end = Return ps' ∧
                     (is_Some (nx.paths st) → is_Some ps') ∧
                     (∀ ps, ps' = Some ps →
                        ps !! u = Some (pv ++ [u]) ∧
                        ∃ ps0, nx.paths st = Some ps0 ∧
                               ∀ x, x ≠ u → ps !! x = ps0 !! x))
        as (ps' & -> & Hsome & Hps').
      { destruct (nx.paths st) as [ps|] eqn:Hps.
        - rewrite (Hpaths ps eq_refl). eexists. split; [done|].
          split; [eauto|]. intros ? [= <-]. rewrite lookup_insert_eq.
          split; [done|]. exists ps. split; [done|].
          intros x Hx. by rewrite lookup_insert_ne.
        - exists None. split; [done|]. split; [by intros [? ?]|]. done. }
      simpl. eexists. split; [done|]. split; [|simpl; auto].
      split; simpl.
      * intros x dx Hx. destruct (dj_real _ _ Hinv x dx Hx) as (p & Hp & Hpp).
        exists p. split; [done|]. intros ps Hps.
        destruct (Hps' ps Hps) as (_ & ps0 & Hps0 & Hsame).
        rewrite Hsame; [by apply Hpp|]. intros ->. congruence.
      * apply Hinv.
      * intros x dx y e' Hx He' Hreq.
        destruct (decide (y = u)) as [->|Hyu].
        -- right. exists (d + nx.weight_of e)%Q. rewrite lookup_insert_eq.
           split; [done|]. destruct Hreq as [Hreq|[-> _]].
           ++ destruct (dj_relaxed _ _ Hinv x dx u e' Hx He' Hreq)
                as [?|(su & Hsu & Hle)]; [done|].
              specialize (Hlt _ Hsu). lra.
           ++ assert (dx = d) as -> by congruence.
              assert (e' = e) as -> by congruence. lra.
        -- destruct Hreq as [Hreq|[_ ?]]; [|done].
           rewrite lookup_insert_ne by done.
           by apply (dj_relaxed _ _ Hinv x dx y e').
      * intros x dx Hx Hnx.
        apply lookup_insert_Some in Hx as [[<- <-]|[Hne Hx]].
        -- split; [exists (nx.count st); by left|].
           exists (pv ++ [u]). split; [done|].
           intros ps Hps. by destruct (Hps' ps Hps) as [? _].
        -- destruct (dj_seen _ _ Hinv x dx Hx Hnx) as [[c' Hc'] (p & Hp & Hpp)].
           split; [exists c'; by right|].
           exists p. split; [done|]. intros ps Hps.
           destruct (Hps' ps Hps) as (_ & ps0 & Hps0 & Hsame).
           rewrite Hsame by done. by apply Hpp.
      * intros d' c' x [[= -> -> ->]|Hin]%elem_of_cons.
        -- right. exists (d + nx.weight_of e)%Q. rewrite lookup_insert_eq. auto.
        -- destruct (dj_fringe _ _ Hinv d' c' x Hin)
             as [?|(dx & Hdx & Hd)]; [by left|right].
           destruct (decide (x = u)) as [->|Hxu].
           ++ exists (d + nx.weight_of e)%Q. rewrite lookup_insert_eq.
              split; [done|]. right. specialize (Hlt _ Hdx).
              destruct Hd as [->|?]; lra.
           ++ exists dx. by rewrite lookup_insert_ne.
      * destruct (dj_source _ _ Hinv) as [?|[c' ?]]; [by left|right].
        exists c'. by right.
      * apply Hinv.
    + (* the route known to [u] is at least as good *)
      destruct (nx.seen st !! u) as [su|] eqn:Hsu; [|done].
      apply Qltb_false in Hbetter.
      exists st. split; [done|]. split; [|auto].
      split; try apply Hinv.
      intros x dx y e' Hx He' [Hreq|[-> ->]].
      * by apply (dj_relaxed _ _ Hinv x dx y e').
      * right. exists su. split; [done|].
        assert (dx = d) as -> by congruence.
        assert (e' = e) as -> by congruence. done.
Qed.

Lemma dj_relax_fold items : ∀ req st v d,
  dj_inv req st → nx.dist st !! v = Some d →
  (∀ u e, (u, e) ∈ items → nx.edge_data g v u = Some e) →
  ∃ st', fold_left (nx.relax v d) items (Return st) = Return st' ∧
         dj_inv (λ x y, req x y ∨ (x = v ∧ y ∈ items.*1)) st' ∧
         nx.dist st' = nx.dist st ∧
         length (nx.fringe st') ≤ length items + length (nx.fringe st) ∧
         (is_Some (nx.paths st) → is_Some (nx.paths st')).
Proof.
  induction items as [|[u e] items IH]; intros req st v d Hinv Hv Hitems.
  - exists st. split; [done|]. split; [|auto].
    eapply dj_inv_weaken; [|done]. intros x y _ [?|[_ ?%elem_of_nil]]; done.
  - destruct (dj_relax_step req st v d u e Hinv Hv)
      as (st1 & Hst1 & Hinv1 & Hdist1 & Hlen1 & Hsome1).
    { apply Hitems. by left. }
    destruct (IH _ st1 v d Hinv1) as (st' & Hst' & Hinv' & Hdist' & Hlen' & Hsome').
    { by rewrite Hdist1. }
    { intros u' e' Hin. apply Hitems. by right. }
    exists st'. cbn [fold_left]. rewrite Hst1.
    split; [done|]. split; [|split; [congruence|split; [simpl; lia|auto]]].
    eapply dj_inv_weaken; [|done]. simpl.
    intros x y _ [?|[-> [->|?]%elem_of_cons]]; auto.
Qed.

(** What the search hands back. *)
Definition dj_post (st st' : nx.search) : Prop :=
  (is_Some (nx.paths st) → is_Some (nx.paths st')) ∧
  match nx.dist st' !! t with
  | Some d =>
      (∃ p, wwalk g s t p d ∧ ∀ ps, nx.paths st' = Some ps → ps !! t = Some p) ∧
      (∀ q c, wwalk g s t q c → (d <= c)%Q)
  | None => ∀ q c, ¬ wwalk g s t q c
  end.

Lemma dijkstra_loop_correct fuel : ∀ st,
  dj_inv every_edge st →
  length (nx.fringe st) + dfs_weight (dom (nx.dist st)) (g_adj g) < fuel →
  ∃ st', nx.dijkstra_loop g t fuel st = Return st' ∧ dj_post st st'.
Proof.
  induction fuel as [|fuel IH]; intros st Hinv Hfuel; [lia|].
  simpl. destruct (nx.heappop (nx.fringe st)) as [[[[d c] v] rest]|] eqn:Hpop.
  - pose proof Hpop as [Hperm _]%heappop_Some.
    assert (length (nx.fringe st) = S (length rest)) as Hlen
      by (by rewrite Hperm).
    case_decide as Hv.
    + destruct (IH (nx.Search (nx.dist st) (nx.seen st) rest (nx.count st)
                              (nx.paths st))) as (st' & Hst' & Hpost).
      { by eapply dj_inv_skip. }
      { simpl. lia. }
      exists st'. done.
    + destruct (dj_pop_final _ _ _ _ _ Hinv Hpop Hv) as [Hreal Hopt].
      case_decide as Hvt.
      * subst v. eexists. split; [done|]. split; [done|]. simpl.
        rewrite lookup_insert_eq. done.
      * pose proof (dj_inv_settle _ _ _ _ _ Hinv Hpop Hv Hvt) as Hinv1.
        destruct Hreal as (pv & Hpv & _).
        assert (v ∈ nx.nodes g) as Hvn.
        { eapply walk_node; [done|done|]. by eapply wwalk_walk. }
        destruct Hwf as (_ & Hkeys & _). rewrite <-Hkeys in Hvn.
        apply dict_get_is_Some in Hvn as [nbrs Hnbrs]. rewrite Hnbrs.
        destruct (dj_relax_fold nbrs _ _ v d Hinv1)
          as (st2 & -> & Hinv2 & Hdist2 & Hlen2 & Hsome2).
        { simpl. by rewrite lookup_insert_eq. }
        { intros u e Hin. by eapply wf_item_edge. }
        simpl. simpl in Hdist2, Hlen2, Hsome2.
        destruct (IH st2) as (st' & Hst' & Hsome' & Hpost).
        { eapply dj_inv_weaken; [|done]. simpl.
          intros x y Hxy _. destruct (decide (x = v)) as [->|?]; [right|by left].
          split; [done|].
          apply adjacent_inv in Hxy as (nb & e & Hnb & Hy).
          assert (nb = nbrs) as -> by congruence.
          apply dict_get_is_Some. eauto. }
        { rewrite Hdist2, dom_insert_L.
          pose proof (dfs_weight_visit _ _ _ _ Hnbrs Hv). lia. }
        exists st'. split; [done|]. split; [auto|done].
  - apply heappop_None in Hpop. exists st. split; [done|]. split; [done|].
    destruct (nx.dist st !! t) as [dt|] eqn:Ht.
    { destruct (dj_target _ _ Hinv). apply elem_of_dom. eauto. }
    intros q c Hq.
    destruct (dj_frontier _ _ _ _ Hinv Hq) as [Hin|(y & Hy & _)].
    + by apply (dj_target _ _ Hinv).
    + rewrite Hpop in Hy. by apply elem_of_nil in Hy.
Qed.
End dijkstra.

Section dijkstra_queries.
Variables (g : Graph) (s t : string).
Hypothesis Hwf : nx.wf g.
Hypothesis Hnn : weights_nonneg g.
Hypothesis Hs : s ∈ nx.nodes g.

Lemma dijkstra_multisource_correct ps0 :
  ps0 = None ∨ ps0 = Some {[s := [s]]} →
  ∃ st', nx.dijkstra_multisource g s t ps0 = Return st' ∧
         dj_post g s t (nx.Search ∅ {[s := 0%Q]} [(0%Q, 0, s)] 1 ps0) st'.
Proof.
  intros Hps. unfold nx.dijkstra_multisource.
  apply dijkstra_loop_correct; [done..|by apply dj_inv_init|].
  simpl. rewrite dom_empty_L, dfs_weight_empty.
  unfold nx.dijkstra_fuel, nx.number_of_adjacencies. lia.
Qed.

(** [nx.dijkstra_path] finds a cheapest walk, or reports that there is none. *)
Lemma dijkstra_path_correct :
  s ≠ t →
  (∃ p d, nx.dijkstra_path g s t = Return p ∧ wwalk g s t p d ∧
          ∀ q c, wwalk g s t q c → (d <= c)%Q) ∨
  (nx.dijkstra_path g s t = Raise NetworkXNoPath ∧ ∀ q c, ¬ wwalk g s t q c).
Proof.
  intros Hst. unfold nx.dijkstra_path.
  rewrite (proj2 (has_node_true g s) Hs). cbn [negb].
  rewrite decide_False by done.
  destruct (dijkstra_multisource_correct (Some {[s := [s]]}))
    as (st' & -> & Hsome & Hpost); [by right|]. simpl in *.
  destruct Hsome as [ps Hps]; [done|]. rewrite Hps. simpl.
  destruct (nx.dist st' !! t) as [d|].
  - destruct Hpost as [(p & Hp & Hpp) Hopt]. rewrite (Hpp ps Hps).
    left. eauto.
  - right. split; [|done]. by destruct (ps !! t).
Qed.

(** [nx.dijkstra_path_length] computes the least cost of a walk. *)
Lemma dijkstra_path_length_correct :
  s ≠ t →
  (∃ d, nx.dijkstra_path_length g s t = Return d ∧
        (∃ p, wwalk g s t p d) ∧ ∀ q c, wwalk g s t q c → (d <= c)%Q) ∨
  (nx.dijkstra_path_length g s t = Raise NetworkXNoPath ∧
   ∀ q c, ¬ wwalk g s t q c).
Proof.
  intros Hst. unfold nx.dijkstra_path_length.
  rewrite (proj2 (has_node_true g s) Hs). cbn [negb].
  rewrite decide_False by done.
  destruct (dijkstra_multisource_correct None)
    as (st' & -> & _ & Hpost); [by left|]. simpl in *.
  destruct (nx.dist st' !! t) as [d|].
  - destruct Hpost as [(p & Hp & _) Hopt]. left. eauto.
  - by right.
Qed.
End dijkstra_queries.

(** *** The loops over the edges of a route *)

Lemma edge_details_cons g a b p :
  edge_details g (a :: b :: p) =
  (call weight := edge_weight g a b in
   call rest := edge_details g (b :: p) in
   Return ((a, b, weight) :: rest)).
Proof. done. Qed.

Lemma edge_details_snoc g p u v :
  last p = Some u →
  edge_details g (p ++ [v]) =
  (call details := edge_details g p in
   call weight := edge_weight g u v in
   Return (details ++ [(u, v, weight)])).
Proof.
  induction p as [|a p IH]; [done|]. intros Hlast.
  destruct p as [|b p].
  - clear IH. simpl in *. simplify_eq. reflexivity.
  - specialize (IH Hlast). rewrite <-!app_comm_cons, !edge_details_cons.
    rewrite (app_comm_cons p [v] b), IH. clear IH.
    generalize (edge_details g (b :: p)). intros r.
    destruct (edge_weight g a b); cbn [obind]; [|done..].
    destruct r; cbn [obind]; [|done..].
    by destruct (edge_weight g u v).
Qed.

Lemma weighted_distance_cons g acc a b p :
  weighted_distance_from g acc (a :: b :: p) =
  (call weight := edge_weight g a b in
   weighted_distance_from g (acc + weight)%Q (b :: p)).
Proof. done. Qed.

Lemma weighted_distance_snoc g p u v : ∀ acc,
  last p = Some u →
  weighted_distance_from g acc (p ++ [v]) =
  (call c := weighted_distance_from g acc p in
   call weight := edge_weight g u v in
   Return (c + weight)%Q).
Proof.
  induction p as [|a p IH]; [done|]. intros acc Hlast.
  destruct p as [|b p].
  - clear IH. simpl in *. simplify_eq. reflexivity.
  - rewrite <-!app_comm_cons, !weighted_distance_cons.
    rewrite (app_comm_cons p [v] b).
    destruct (edge_weight g a b); cbn [obind]; [|done..].
    by apply IH.
Qed.

Lemma edge_weight_present g u v e :
  weights_present g → nx.edge_data g u v = Some e →
  edge_weight g u v = Return (nx.weight_of e).
Proof.
  intros Hp He. destruct (weights_present_edge _ _ _ _ Hp He) as [w Hw].
  unfold edge_weight, nx.weight_of. rewrite He. simpl. by rewrite Hw.
Qed.

(** With a weight on every edge, the two loops succeed on every walk, and
    the sum they form is the cost the search works with. *)
Lemma wwalk_weighted_distance g s x p d :
  weights_present g → wwalk g s x p d →
  bfs_weighted_distance g p = Return d.
Proof.
  intros Hp. unfold bfs_weighted_distance.
  induction 1 as [|u v p d e Hw IH He]; [done|].
  rewrite (weighted_distance_snoc _ _ u) by (by eapply walk_last, wwalk_walk).
  rewrite IH. simpl. by rewrite (edge_weight_present _ _ _ e).
Qed.

Lemma wwalk_edge_details g s x p d :
  weights_present g → wwalk g s x p d →
  ∃ details, edge_details g p = Return details.
Proof.
  intros Hp. induction 1 as [|u v p d e Hw [details IH] He]; [by eexists|].
  rewrite (edge_details_snoc _ _ u) by (by eapply walk_last, wwalk_walk).
  rewrite IH. simpl. rewrite (edge_weight_present _ _ _ e) by done. by eexists.
Qed.

(** *** [dijkstra_shortest_path] *)

Lemma dijkstra_shortest_path_unknown g s t :
  s ∉ nx.nodes g → dijkstra_shortest_path g s t = Return None.
Proof.
  intros Hs%has_node_false. unfold dijkstra_shortest_path, nx.dijkstra_path.
  by rewrite Hs.
Qed.

Lemma dijkstra_shortest_path_same g s :
  s ∈ nx.nodes g → dijkstra_shortest_path g s s = Return (Some ([s], 0%Q, [])).
Proof.
  intros Hs%has_node_true.
  unfold dijkstra_shortest_path, nx.dijkstra_path, nx.dijkstra_path_length.
  rewrite Hs. simpl. by rewrite !decide_True.
Qed.

Lemma dijkstra_shortest_path_no_walk g s t :
  nx.wf g → weights_nonneg g → s ∈ nx.nodes g →
  (∀ q, ¬ walk g s t q) → dijkstra_shortest_path g s t = Return None.
Proof.
  intros Hwf Hnn Hs Hno.
  assert (s ≠ t) as Hst by (intros ->; apply (Hno [t]); constructor).
  unfold dijkstra_shortest_path.
  destruct (dijkstra_path_correct g s t Hwf Hnn Hs Hst)
    as [(p & d & _ & Hp & _)|[-> _]]; [|done].
  destruct (Hno p). by eapply wwalk_walk.
Qed.

Lemma dijkstra_shortest_path_found g s t :
  nx.wf g → weights_nonneg g → weights_present g → s ∈ nx.nodes g →
  (∃ q, walk g s t q) →
  ∃ path total details,
    dijkstra_shortest_path g s t = Return (Some (path, total, details)) ∧
    walk g s t path ∧
    ∀ q, walk g s t q →
      ∃ c, bfs_weighted_distance g q = Return c ∧ (total <= c)%Q.
Proof.
  intros Hwf Hnn Hpr Hs [q0 Hq0].
  assert (∀ total, (∀ q c, wwalk g s t q c → (total <= c)%Q) →
            ∀ q, walk g s t q →
              ∃ c, bfs_weighted_distance g q = Return c ∧ (total <= c)%Q)
    as Hcost.
  { intros total Hopt q [c Hq]%walk_wwalk. exists c.
    split; [by eapply wwalk_weighted_distance|by eapply Hopt]. }
  destruct (decide (s = t)) as [<-|Hst].
  { rewrite dijkstra_shortest_path_same by done.
    eexists _, _, _. split; [done|]. split; [constructor|].
    apply Hcost. intros q c Hq. by eapply wwalk_nonneg. }
  unfold dijkstra_shortest_path.
  destruct (dijkstra_path_correct g s t Hwf Hnn Hs Hst)
    as [(p & d & -> & Hp & _)|[_ Hno]];
    [|apply walk_wwalk in Hq0 as [c Hc]; by destruct (Hno q0 c)].
  destruct (dijkstra_path_length_correct g s t Hwf Hnn Hs Hst)
    as [(total & -> & _ & Hopt)|[_ Hno]]; [|by destruct (Hno p d)].
  destruct (wwalk_edge_details _ _ _ _ _ Hpr Hp) as [details Hdet].
  simpl. rewrite Hdet. simpl.
  eexists _, _, _. split; [done|]. split; [by eapply wwalk_walk|].
  by apply Hcost.
Qed.

(** ** The graph operations keep the representation invariant *)

Section dict_more.
Context {K V : Type} `{EqDecision K}.
Implicit Types (d : list (K * V)) (k : K) (v : V).

Lemma dict_get_app k d1 d2 :
  dict_get k (d1 ++ d2) =
  match dict_get k d1 with Some v => Some v | None => dict_get k d2 end.
Proof.
  induction d1 as [|[k' v'] d1 IH]; simpl; [done|]. by case_decide.
Qed.

Lemma dict_keys_set_NoDup k v d :
  NoDup (dict_keys d) → NoDup (dict_keys (dict_set k v d)).
Proof.
  intros Hnd. destruct (decide (k ∈ dict_keys d)).
  - by rewrite dict_keys_set_old.
  - rewrite dict_keys_set_new by done. apply NoDup_app. split; [done|].
    split; [|apply NoDup_singleton].
    intros x Hx ->%list_elem_of_singleton. done.
Qed.

Lemma dict_get_elem_iff k v d :
  NoDup (dict_keys d) → (k, v) ∈ d ↔ dict_get k d = Some v.
Proof. intros Hnd. split; [by apply dict_get_elem|apply dict_get_Some_elem]. Qed.

Lemma dict_alter_elem f k d x :
  x ∈ dict_alter f k d → ∃ v, (x.1, v) ∈ d ∧ (x.2 = v ∨ (x.1 = k ∧ x.2 = f v)).
Proof.
  induction d as [|[k0 v0] d IH]; simpl; [by intros ?%elem_of_nil|].
  case_decide; subst.
  - intros [->|Hin]%elem_of_cons; simpl.
    + exists v0. split; [by left|by right].
    + exists x.2. split; [right; by destruct x|by left].
  - intros [->|Hin]%elem_of_cons; simpl.
    + exists v0. split; [by left|by left].
    + destruct (IH Hin) as (v & ? & ?). exists v. split; [by right|done].
Qed.
End dict_more.

(** A reading of [nx.wf] that is easier to work with. *)
Lemma wf_alt g :
  nx.wf g ↔
  NoDup (nx.nodes g) ∧
  dict_keys (g_adj g) = nx.nodes g ∧
  (∀ u nb, dict_get u (g_adj g) = Some nb → NoDup (dict_keys nb)) ∧
  (∀ u v e, nx.edge_data g u v = Some e → nx.edge_data g v u = Some e).
Proof.
  split.
  - intros Hwf. pose proof Hwf as (Hnd & Hkeys & Hadj).
    rewrite Forall_forall in Hadj.
    split; [done|]. split; [done|]. split.
    + intros u nb Hu%dict_get_Some_elem. by destruct (Hadj _ Hu).
    + intros u v e. by apply wf_edge_sym.
  - unfold nx.wf, nx.wf_adjacency. intros (Hnd & Hkeys & Hin & Hsym).
    split; [done|]. split; [done|]. apply Forall_forall. intros [u nb] Hu.
    assert (dict_get u (g_adj g) = Some nb) as Hget.
    { apply dict_get_elem; [by rewrite Hkeys|done]. }
    split; [by eapply Hin|]. apply Forall_forall. intros [v e] Hv. simpl.
    apply Hsym. unfold nx.edge_data. rewrite Hget. simpl.
    apply dict_get_elem; [by eapply Hin|done].
Qed.

Lemma wf_empty_graph : nx.wf nx.empty_graph.
Proof. split; [constructor|]. split; [done|constructor]. Qed.

Lemma touch_node_nodes n g :
  nx.nodes (nx.touch_node n g) =
  if decide (n ∈ nx.nodes g) then nx.nodes g else nx.nodes g ++ [n].
Proof.
  unfold nx.touch_node. destruct (nx.has_node g n) eqn:Hn.
  - apply has_node_true in Hn. by rewrite decide_True.
  - apply has_node_false in Hn. rewrite decide_False by done.
    unfold nx.nodes. simpl. by rewrite dict_keys_app.
Qed.

Lemma touch_node_elem n g : n ∈ nx.nodes (nx.touch_node n g).
Proof.
  rewrite touch_node_nodes. case_decide; [done|].
  apply elem_of_app. right. by left.
Qed.

Lemma touch_node_mono n g x : x ∈ nx.nodes g → x ∈ nx.nodes (nx.touch_node n g).
Proof.
  rewrite touch_node_nodes. case_decide; [done|]. intros. apply elem_of_app. by left.
Qed.

Lemma touch_node_edge_data n g x y :
  nx.edge_data (nx.touch_node n g) x y = nx.edge_data g x y.
Proof.
  unfold nx.touch_node. destruct (nx.has_node g n); [done|].
  unfold nx.edge_data. simpl. rewrite dict_get_app.
  destruct (dict_get x (g_adj g)); [done|]. simpl. by case_decide.
Qed.

Lemma wf_touch_node n g : nx.wf g → nx.wf (nx.touch_node n g).
Proof.
  rewrite !wf_alt. intros (Hnd & Hkeys & Hin & Hsym).
  split; [|split; [|split]].
  - rewrite touch_node_nodes. case_decide; [done|].
    apply NoDup_app. split; [done|]. split; [|apply NoDup_singleton].
    intros x Hx ->%list_elem_of_singleton. done.
  - unfold nx.touch_node. destruct (nx.has_node g n); [done|].
    unfold nx.nodes in *. simpl. by rewrite !dict_keys_app, Hkeys.
  - unfold nx.touch_node. destruct (nx.has_node g n); [done|]. simpl.
    intros u nb. rewrite dict_get_app.
    destruct (dict_get u (g_adj g)) as [nb'|] eqn:Hu.
    + intros [= <-]. by eapply Hin.
    + simpl. case_decide; [|done]. intros [= <-]. constructor.
  - intros u v e. rewrite !touch_node_edge_data. apply Hsym.
Qed.

(** What [add_edge] does to the adjacency. *)
Lemma add_edge_edge_data g u v a x y :
  nx.wf g →
  nx.edge_data (nx.add_edge u v a g) x y =
  if decide ((x = u ∧ y = v) ∨ (x = v ∧ y = u))
  then Some (nx.attr_update (default nx.no_edge_attr (nx.edge_data g u v)) a)
  else nx.edge_data g x y.
Proof.
  intros Hwf. unfold nx.add_edge.
  set (g1 := nx.touch_node v (nx.touch_node u g)).
  assert (nx.wf g1) as Hwf1 by (by do 2 apply wf_touch_node).
  assert (u ∈ nx.nodes g1) as Hu by (apply touch_node_mono, touch_node_elem).
  assert (v ∈ nx.nodes g1) as Hv by apply touch_node_elem.
  assert (∀ x y, nx.edge_data g1 x y = nx.edge_data g x y) as Hsame.
  { intros. unfold g1. by rewrite !touch_node_edge_data. }
  rewrite Hsame. rewrite <-(Hsame x y).
  set (dd := nx.attr_update _ _).
  destruct Hwf1 as (_ & Hkeys & _). rewrite <-Hkeys in Hu, Hv.
  apply dict_get_is_Some in Hu as [nu Hnu], Hv as [nv Hnv].
  unfold nx.edge_data. simpl. rewrite !dict_get_alter.
  destruct (decide (x = v)) as [Hxv|Hxv]; destruct (decide (x = u)) as [Hxu|Hxu];
    simplify_eq; rewrite ?decide_True by done; rewrite ?Hnu, ?Hnv; simpl;
    rewrite ?dict_get_set; repeat case_decide; try done; naive_solver.
Qed.

Lemma add_edge_nodes g u v a :
  nx.nodes (nx.add_edge u v a g) = nx.nodes (nx.touch_node v (nx.touch_node u g)).
Proof. done. Qed.

Lemma add_edge_nodes_mono g u v a x :
  x ∈ nx.nodes g → x ∈ nx.nodes (nx.add_edge u v a g).
Proof. intros. rewrite add_edge_nodes. by do 2 apply touch_node_mono. Qed.

Lemma add_edge_nodes_inv g u v a x :
  x ∈ nx.nodes (nx.add_edge u v a g) → x ∈ nx.nodes g ∨ x = u ∨ x = v.
Proof.
  rewrite add_edge_nodes, !touch_node_nodes.
  repeat case_decide; rewrite ?elem_of_app, ?list_elem_of_singleton; naive_solver.
Qed.

Lemma wf_add_edge g u v a : nx.wf g → nx.wf (nx.add_edge u v a g).
Proof.
  intros Hwf.
  pose proof (add_edge_edge_data g u v a) as Hdata.
  set (g1 := nx.touch_node v (nx.touch_node u g)).
  assert (nx.wf g1) as Hwf1 by (by do 2 apply wf_touch_node).
  apply wf_alt in Hwf1 as (Hnd & Hkeys & Hin & Hsym).
  apply wf_alt. split; [done|]. split; [|split].
  - unfold nx.add_edge. simpl. by rewrite !dict_keys_alter.
  - unfold nx.add_edge. fold g1. simpl. intros x nb. rewrite !dict_get_alter.
    intros Hx.
    assert (∃ nb0, dict_get x (g_adj g1) = Some nb0 ∧
              (nb = nb0 ∨ (∃ k w, nb = dict_set k w nb0) ∨
               ∃ k w k' w', nb = dict_set k w (dict_set k' w' nb0)))
      as (nb0 & Hnb0 & Hcase).
    { repeat case_decide; destruct (dict_get x (g_adj g1)) as [nb0|];
        simplify_eq/=; eexists; (split; [done|]); eauto 10. }
    specialize (Hin _ _ Hnb0).
    destruct Hcase as [->|[(k & w & ->)|(k & w & k' & w' & ->)]];
      [done|by apply dict_keys_set_NoDup|by do 2 apply dict_keys_set_NoDup].
  - intros x y e. rewrite !Hdata by done.
    destruct (decide ((x = u ∧ y = v) ∨ (x = v ∧ y = u))) as [H1|H1].
    + rewrite decide_True; [done|]. destruct H1 as [[-> ->]|[-> ->]]; auto.
    + rewrite decide_False; [|intros [[-> ->]|[-> ->]]; apply H1; auto].
      apply wf_alt in Hwf as (_ & _ & _ & Hsg). apply Hsg.
Qed.

(** ** Sorting, and the list of transfer stations *)

Section sort_desc.
Context {A : Type} (key : A → nat).

Lemma insert_desc_perm x l : insert_desc key x l ≡ₚ x :: l.
Proof.
  induction l as [|y l IH]; simpl; [done|]. case_decide; [|done].
  rewrite IH. apply Permutation_swap.
Qed.

Lemma sort_desc_perm l : sort_desc key l ≡ₚ l.
Proof.
  induction l as [|x l IH]; simpl; [done|].
  by rewrite insert_desc_perm, IH.
Qed.

(** Descending: no entry has a smaller key than a later one. *)
Definition descending (l : list A) : Prop :=
  StronglySorted (λ a b, key b ≤ key a) l.

Lemma insert_desc_descending x l : descending l → descending (insert_desc key x l).
Proof.
  unfold descending. induction 1 as [|y l Hl IH Hy]; simpl.
  - repeat constructor.
  - case_decide.
    + constructor; [done|]. rewrite insert_desc_perm. constructor; [lia|done].
    + constructor; [by constructor|]. constructor; [lia|].
      eapply Forall_impl; [done|]. simpl. intros; lia.
Qed.

Lemma sort_desc_descending l : descending (sort_desc key l).
Proof.
  induction l as [|x l IH]; simpl; [constructor|].
  by apply insert_desc_descending.
Qed.

(** Stable: the entries with one and the same key keep their order. *)
Lemma insert_desc_stable n x l :
  filter (λ a, key a = n) (insert_desc key x l) = filter (λ a, key a = n) (x :: l).
Proof.
  induction l as [|y l IH]; simpl; [done|]. case_decide as Hlt; [|done].
  rewrite (filter_cons _ y), IH, !filter_cons.
  repeat case_decide; try done; lia.
Qed.

Lemma sort_desc_stable n l :
  filter (λ a, key a = n) (sort_desc key l) = filter (λ a, key a = n) l.
Proof.
  induction l as [|x l IH]; simpl; [done|].
  by rewrite insert_desc_stable, !filter_cons, IH.
Qed.
End sort_desc.

Lemma transfer_entry_Some item x :
  transfer_entry item = Some x ↔
  1 < size (list_to_set item.2 : gset string) ∧
  x = (item.1, size (list_to_set item.2 : gset string),
       sorted (elements (list_to_set item.2 : gset string))).
Proof.
  unfold transfer_entry. case_decide; split; naive_solver.
Qed.

Lemma transfer_stations_elem station_lines x :
  x ∈ transfer_stations station_lines ↔
  ∃ item, item ∈ station_lines ∧ transfer_entry item = Some x.
Proof.
  unfold transfer_stations. rewrite sort_desc_perm. apply list_elem_of_omap.
Qed.

Lemma transfer_stations_names station_lines n :
  (λ x, x.1.1) <$> filter (λ x, x.1.2 = n) (transfer_stations station_lines)
  `sublist_of` dict_keys station_lines.
Proof.
  unfold transfer_stations. rewrite (sort_desc_stable (λ x, x.1.2)).
  unfold dict_keys. induction station_lines as [|item l IH]; csimpl; [done|].
  destruct (transfer_entry item) as [x|] eqn:Hx; [|by apply sublist_cons].
  apply transfer_entry_Some in Hx as [_ ->]. rewrite filter_cons. simpl.
  case_decide; csimpl; [by apply sublist_skip|by apply sublist_cons].
Qed.

(** ** Building the graph *)

(** One turn of the inner loop of [create_graph_from_ubahn]: the line name,
    its colour, and a pair of consecutive stations. *)
Definition event : Type := string * string * (string * string).

Definition line_events (item : string * line_data) : list event :=
  (λ pair, (item.1, color item.2, pair)) <$> consecutive (stations item.2).

Definition events (data : list (string * line_data)) : list event :=
  item ← data; line_events item.

Definition connect_event (st : Graph * list (string * list string)) (ev : event)
    : Graph * list (string * list string) :=
  connect ev.1.1 ev.1.2 st ev.2.

(** The event joins [u] and [v], in either order. *)
Definition joins (ev : event) (u v : string) : Prop :=
  ev.2 = (u, v) ∨ ev.2 = (v, u).

#[global] Instance joins_dec ev u v : Decision (joins ev u v).
Proof. unfold joins. apply _. Defined.

Lemma fold_add_line data : ∀ G sl lc,
  fold_left add_line data (G, sl, lc) =
  (fold_left connect_event (events data) (G, sl),
   fold_left (λ lc item, dict_set item.1 (color item.2) lc) data lc).
Proof.
  induction data as [|[name d] data IH]; intros G sl lc; [done|].
  unfold events. csimpl. rewrite fold_left_app. fold (events data).
  assert (fold_left (connect name (color d)) (consecutive (stations d)) (G, sl)
          = fold_left connect_event (line_events (name, d)) (G, sl)) as ->.
  { unfold line_events. simpl. generalize (G, sl) as st.
    induction (consecutive (stations d)) as [|pr l IHl]; intros st; [done|].
    csimpl. apply IHl. }
  destruct (fold_left connect_event (line_events (name, d)) (G, sl)) as [G1 sl1].
  apply IH.
Qed.

Lemma dict_get_ensure_station k sl u :
  dict_get u (ensure_station k sl) =
  match dict_get u sl with
  | Some ls => Some ls
  | None => if decide (u = k) then Some [] else None
  end.
Proof.
  unfold ensure_station. destruct (dict_mem k sl) eqn:Hk.
  - apply dict_mem_true, dict_get_is_Some in Hk as [ls Hls].
    destruct (dict_get u sl) eqn:Hu; [done|]. case_decide; congruence.
  - apply dict_mem_false, dict_get_None in Hk. rewrite dict_get_set.
    case_decide; subst; [by rewrite Hk|]. by destruct (dict_get u sl).
Qed.

Lemma dict_keys_ensure_station k sl :
  dict_keys (ensure_station k sl) =
  if decide (k ∈ dict_keys sl) then dict_keys sl else dict_keys sl ++ [k].
Proof.
  unfold ensure_station. destruct (dict_mem k sl) eqn:Hk.
  - apply dict_mem_true in Hk. by rewrite decide_True.
  - apply dict_mem_false in Hk. rewrite decide_False by done.
    by apply dict_keys_set_new.
Qed.

(** How the line lists change in one turn. *)
Lemma connect_get l c G sl a b u :
  dict_get u (connect l c (G, sl) (a, b)).2 =
  if decide (u = a ∨ u = b)
  then Some ((default [] (dict_get u sl)
              ++ (if decide (u = a) then [l] else []))
             ++ (if decide (u = b) then [l] else []))
  else dict_get u sl.
Proof.
  unfold connect. simpl. rewrite !dict_get_alter, !dict_get_ensure_station.
  destruct (dict_get u sl) as [ls|]; simpl;
    destruct (decide (u = a)) as [Ha|Ha], (decide (u = b)) as [Hb|Hb]; simpl;
    try rewrite decide_True by auto; try rewrite decide_False by tauto;
    rewrite ?app_nil_r; done.
Qed.

Lemma connect_lines l c G sl a b u l' :
  (∃ ls, dict_get u (connect l c (G, sl) (a, b)).2 = Some ls ∧ l' ∈ ls) ↔
  (∃ ls, dict_get u sl = Some ls ∧ l' ∈ ls) ∨ (l' = l ∧ (u = a ∨ u = b)).
Proof.
  rewrite connect_get. case_decide as Hu.
  - split.
    + intros (? & [= <-] & [[Hin|Hin]%elem_of_app|Hin]%elem_of_app).
      * left. destruct (dict_get u sl) as [ls|]; simpl in Hin;
          [eauto|by apply elem_of_nil in Hin].
      * right. case_decide; [|by apply elem_of_nil in Hin].
        apply list_elem_of_singleton in Hin. auto.
      * right. case_decide; [|by apply elem_of_nil in Hin].
        apply list_elem_of_singleton in Hin. auto.
    + intros Hcase. eexists. split; [done|]. rewrite !elem_of_app.
      destruct Hcase as [(ls & -> & ?)|[-> [Ha|Hb]]].
      * left. by left.
      * left. right. rewrite decide_True by done. by left.
      * right. rewrite decide_True by done. by left.
  - split; [by left|]. intros [?|[_ ?]]; done.
Qed.

Lemma connect_keys l c G sl a b :
  dict_keys sl = nx.nodes G →
  dict_keys (connect l c (G, sl) (a, b)).2 =
  nx.nodes (connect l c (G, sl) (a, b)).1.
Proof.
  intros Hkeys. unfold connect. cbn [fst snd].
  rewrite !dict_keys_alter, !dict_keys_ensure_station, add_edge_nodes,
    !touch_node_nodes. by rewrite Hkeys.
Qed.

Record build_inv (evs : list event) (st : Graph * list (string * list string))
    : Prop := BuildInv {
  build_wf : nx.wf st.1;
  build_keys : dict_keys st.2 = nx.nodes st.1;
  build_lines u l :
    (∃ ls, dict_get u st.2 = Some ls ∧ l ∈ ls) ↔
    (∃ ev v, ev ∈ evs ∧ ev.1.1 = l ∧ joins ev u v);
  build_edge u v e :
    nx.edge_data st.1 u v = Some e →
    ∃ ev, ev ∈ evs ∧ joins ev u v ∧ e_line e = Some ev.1.1;
  build_event ev u v : ev ∈ evs → joins ev u v → is_Some (nx.edge_data st.1 u v);
  build_nodes u : u ∈ nx.nodes st.1 ↔ ∃ ev v, ev ∈ evs ∧ joins ev u v
}.

Lemma build_inv_init : build_inv [] (nx.empty_graph, []).
Proof.
  split; simpl.
  - apply wf_empty_graph.
  - done.
  - intros u l. split; [by intros (? & ? & _)|].
    by intros (? & ? & ?%elem_of_nil & _).
  - done.
  - by intros ev u v ?%elem_of_nil.
  - intros u. split; [by intros ?%elem_of_nil|].
    by intros (? & ? & ?%elem_of_nil & _).
Qed.

Lemma joins_pair l c a b u v :
  joins (l, c, (a, b)) u v ↔ (u = a ∧ v = b) ∨ (u = b ∧ v = a).
Proof. unfold joins. simpl. naive_solver. Qed.

Lemma build_inv_step evs st ev :
  build_inv evs st → build_inv (evs ++ [ev]) (connect_event st ev).
Proof.
  destruct st as [G sl], ev as [[l c] [a b]]. intros Hinv.
  pose proof (build_wf _ _ Hinv) as Hwf. simpl in Hwf.
  pose proof (build_keys _ _ Hinv) as Hkeys. simpl in Hkeys.
  unfold connect_event. simpl fst. simpl snd.
  split.
  - simpl. by apply wf_add_edge.
  - by apply connect_keys.
  - intros u l'. rewrite connect_lines.
    rewrite (build_lines _ _ Hinv). simpl. split.
    + intros [(ev & v & Hev & ? & ?)|[-> Hu]].
      * exists ev, v. split; [apply elem_of_app; by left|done].
      * exists (l, c, (a, b)), (if decide (u = a) then b else a).
        split; [apply elem_of_app; right; by left|]. split; [done|].
        apply joins_pair. case_decide; naive_solver.
    + intros (ev & v & [Hev|Hev%list_elem_of_singleton]%elem_of_app & Hl & Hj).
      * left. by exists ev, v.
      * right. subst ev. simpl in Hl. apply joins_pair in Hj. naive_solver.
  - intros u v e. simpl. rewrite add_edge_edge_data by done. case_decide as Huv.
    + intros [= <-]. exists (l, c, (a, b)).
      split; [apply elem_of_app; right; by left|].
      split; [apply joins_pair; naive_solver|done].
    + intros (ev & Hev & ? & ?)%(build_edge _ _ Hinv).
      exists ev. split; [apply elem_of_app; by left|done].
  - intros ev u v [Hev|Hev%list_elem_of_singleton]%elem_of_app Hj; simpl;
      rewrite add_edge_edge_data by done; case_decide as Huv; try done.
    + by apply (build_event _ _ Hinv ev).
    + destruct Huv. subst ev. apply joins_pair in Hj. naive_solver.
  - intros u. simpl. split.
    + intros [Hu|Hu]%add_edge_nodes_inv.
      * apply (build_nodes _ _ Hinv) in Hu as (ev & v & Hev & ?).
        exists ev, v. split; [apply elem_of_app; by left|done].
      * exists (l, c, (a, b)), (if decide (u = a) then b else a).
        split; [apply elem_of_app; right; by left|].
        apply joins_pair. case_decide; naive_solver.
    + intros (ev & v & [Hev|Hev%list_elem_of_singleton]%elem_of_app & Hj).
      * apply add_edge_nodes_mono, (build_nodes _ _ Hinv). eauto.
      * subst ev. apply joins_pair in Hj. rewrite add_edge_nodes.
        destruct Hj as [[-> _]|[-> _]];
          [apply touch_node_mono, touch_node_elem|apply touch_node_elem].
Qed.

Lemma build_inv_fold evs : ∀ evs0 st,
  build_inv evs0 st → build_inv (evs0 ++ evs) (fold_left connect_event evs st).
Proof.
  induction evs as [|ev evs IH]; intros evs0 st Hinv; simpl.
  - by rewrite app_nil_r.
  - replace (evs0 ++ ev :: evs) with ((evs0 ++ [ev]) ++ evs)
      by (by rewrite <-app_assoc).
    apply IH. by apply build_inv_step.
Qed.

(** *** The node attributes *)

Definition station_attrs (lines : list string) : node_attr :=
  NodeAttr (Some (list_to_set lines))
           (Some (bool_decide (1 < size (list_to_set lines : gset string)))).

Lemma set_station_attrs_fold sl : ∀ G,
  g_adj (fold_left set_station_attrs sl G) = g_adj G ∧
  nx.nodes (fold_left set_station_attrs sl G) = nx.nodes G ∧
  (NoDup (dict_keys sl) →
   ∀ s, dict_get s (g_node (fold_left set_station_attrs sl G)) =
        match dict_get s sl with
        | Some ls => (λ _, station_attrs ls) <$> dict_get s (g_node G)
        | None => dict_get s (g_node G)
        end).
Proof.
  induction sl as [|[k ls] sl IH]; intros G; [done|].
  simpl. destruct (IH (set_station_attrs G (k, ls))) as (Hadj & Hnodes & Hattr).
  split; [done|]. split.
  { rewrite Hnodes. unfold nx.nodes, set_station_attrs. simpl.
    apply dict_keys_alter. }
  intros [Hk Hnd]%NoDup_cons s. rewrite (Hattr Hnd).
  unfold set_station_attrs. simpl. rewrite dict_get_alter.
  destruct (decide (s = k)) as [->|Hsk]; [|done].
  apply dict_get_None in Hk. by rewrite Hk.
Qed.

Lemma wf_same_shape g g' :
  nx.nodes g' = nx.nodes g → g_adj g' = g_adj g → nx.wf g → nx.wf g'.
Proof.
  unfold nx.wf, nx.wf_adjacency, nx.edge_data. by intros -> ->.
Qed.

(** What [create_graph_from_ubahn] builds. *)
Lemma create_graph_spec data G sl lc :
  create_graph_from_ubahn data = (G, sl, lc) →
  build_inv (events data) (G, sl) ∧
  (∀ s ls, dict_get s sl = Some ls →
           dict_get s (g_node G) = Some (station_attrs ls)).
Proof.
  unfold create_graph_from_ubahn. rewrite fold_add_line.
  pose proof (build_inv_fold (events data) [] _ build_inv_init) as Hinv.
  simpl in Hinv.
  destruct (fold_left connect_event (events data) (nx.empty_graph, []))
    as [G0 sl0].
  intros [= <- <- <-].
  destruct (set_station_attrs_fold sl0 G0) as (Hadj & Hnodes & Hattr).
  pose proof (build_wf _ _ Hinv) as Hwf0. simpl in Hwf0.
  pose proof (build_keys _ _ Hinv) as Hkeys. simpl in Hkeys.
  split.
  - split; simpl.
    + by apply (wf_same_shape G0).
    + by rewrite Hnodes.
    + apply (build_lines _ _ Hinv).
    + unfold nx.edge_data. rewrite Hadj. apply (build_edge _ _ Hinv).
    + unfold nx.edge_data. rewrite Hadj. apply (build_event _ _ Hinv).
    + rewrite Hnodes. apply (build_nodes _ _ Hinv).
  - intros s ls Hs. rewrite Hattr, Hs.
    + assert (s ∈ nx.nodes G0) as Hsn.
      { rewrite <-Hkeys. apply dict_get_is_Some. eauto. }
      apply dict_get_is_Some in Hsn as [a ->]. done.
    + rewrite Hkeys. by destruct Hwf0.
Qed.

(** ** Rounding to two decimals *)

Lemma round_half_even_cases x :
  let f := Qfloor x in
  (inject_Z f <= x < inject_Z f + 1)%Q ∧
  ((round_half_even x = f ∧ (x - inject_Z f <= 1 # 2)%Q) ∨
   (round_half_even x = (f + 1)%Z ∧ (1 # 2 <= x - inject_Z f)%Q)).
Proof.
  intros f. pose proof (Qfloor_le x) as Hle. pose proof (Qlt_floor x) as Hlt.
  fold f in Hle, Hlt. rewrite inject_Z_plus in Hlt.
  change (inject_Z 1) with 1%Q in Hlt.
  split; [by split|].
  unfold round_half_even. fold f.
  destruct (x - inject_Z f ?= 1 # 2)%Q eqn:Hcmp.
  - apply Qeq_alt in Hcmp. destruct (Z.even f); [left|right]; (split; [done|lra]).
  - apply Qlt_alt in Hcmp. left. split; [done|lra].
  - apply Qgt_alt in Hcmp. right. split; [done|lra].
Qed.

Lemma round_half_even_near x :
  (x - (1 # 2) <= inject_Z (round_half_even x) <= x + (1 # 2))%Q.
Proof.
  destruct (round_half_even_cases x) as [[Hlo Hhi] [[-> H]|[-> H]]];
    rewrite ?inject_Z_plus; change (inject_Z 1) with 1%Q; lra.
Qed.

#[global] Instance round_half_even_proper : Proper (Qeq ==> eq) round_half_even.
Proof.
  intros x y Hxy. unfold round_half_even.
  rewrite (Qfloor_comp _ _ Hxy).
  assert (x - inject_Z (Qfloor y) == y - inject_Z (Qfloor y))%Q as Heq
    by (by rewrite Hxy).
  by rewrite (Qcompare_comp _ _ Heq (1 # 2) (1 # 2) (Qeq_refl _)).
Qed.

Lemma round_half_even_Z z : round_half_even (inject_Z z) = z.
Proof.
  unfold round_half_even. rewrite Qfloor_Z.
  assert ((inject_Z z - inject_Z z ?= 1 # 2)%Q = Lt) as ->; [|done].
  apply (proj1 (Qlt_alt _ _)). lra.
Qed.

Lemma round_half_even_mono x y :
  (x <= y)%Q → (round_half_even x <= round_half_even y)%Z.
Proof.
  intros Hxy. pose proof (Qfloor_resp_le _ _ Hxy) as Hf.
  destruct (decide (Qfloor x = Qfloor y)) as [Heq|Hne].
  - unfold round_half_even. rewrite <-Heq.
    destruct (x - inject_Z (Qfloor x) ?= 1 # 2)%Q eqn:Hx,
             (y - inject_Z (Qfloor x) ?= 1 # 2)%Q eqn:Hy;
      try (destruct (Z.even (Qfloor x)); lia); try lia.
    + apply Qeq_alt in Hx. apply Qlt_alt in Hy. lra.
    + apply Qgt_alt in Hx. apply Qeq_alt in Hy. lra.
    + apply Qgt_alt in Hx. apply Qlt_alt in Hy. lra.
  - destruct (round_half_even_cases x) as [_ [[-> _]|[-> _]]],
             (round_half_even_cases y) as [_ [[-> _]|[-> _]]]; lia.
Qed.

Lemma round2_near x : (x - (1 # 200) <= round2 x <= x + (1 # 200))%Q.
Proof.
  pose proof (round_half_even_near (x * 100)) as H.
  unfold round2. rewrite (Qmake_Qdiv _ 100). simpl in *.
  change (inject_Z (Z.pos 100)) with 100%Q.
  split.
  - apply Qle_shift_div_l; lra.
  - apply Qle_shift_div_r; lra.
Qed.

Lemma round2_mono x y : (x <= y)%Q → (round2 x <= round2 y)%Q.
Proof.
  intros Hxy. unfold round2, Qle. simpl.
  apply Z.mul_le_mono_nonneg_r; [lia|]. apply round_half_even_mono. lra.
Qed.

(** A value with two decimals is left as it is. *)
Lemma round2_hundredths z : round2 (z # 100) = (z # 100)%Q.
Proof.
  unfold round2. f_equal.
  assert ((z # 100) * 100 == inject_Z z)%Q as ->; [|apply round_half_even_Z].
  rewrite (Qmake_Qdiv z 100). field.
Qed.

Lemma round2_idempotent x : round2 (round2 x) = round2 x.
Proof. unfold round2 at 2 3. apply round2_hundredths. Qed.

Lemma round2_fixed x : (round2 x == x)%Q → ∃ z, (x == z # 100)%Q.
Proof. intros H. eexists. symmetry. apply H. Qed.

Lemma round2_nonneg x : (0 <= x)%Q → (0 <= round2 x)%Q.
Proof.
  intros Hx. pose proof (round2_mono 0 x Hx) as H.
  assert (round2 0 == 0)%Q as H0 by done. lra.
Qed.

(** [random.uniform] stays within its bounds. *)
Lemma random_uniform_range R a b st :
  (a <= b)%Q → (a <= (random_uniform R a b st).1 <= b)%Q.
Proof.
  intros Hab. unfold random_uniform. simpl.
  pose proof (gen_unit R st) as [H0 H1].
  nra.
Qed.

(** ** Assigning weights *)

Lemma wf_copy g : NoDup (nx.nodes g) → nx.wf (nx.copy g).
Proof.
  intros Hnd. unfold nx.copy.
  assert (nx.wf (MkGraph (g_node g) ((λ '(n, _), (n, [])) <$> g_node g)))
    as Hinit.
  { split; [done|]. split.
    - unfold nx.nodes, dict_keys. simpl. rewrite <-list_fmap_compose.
      apply list_fmap_ext. by intros ? [].
    - simpl. apply Forall_fmap, Forall_forall. intros [n a] _. simpl.
      split; [constructor|constructor]. }
  revert Hinit. generalize (MkGraph (g_node g) ((λ '(n, _), (n, [])) <$> g_node g)).
  induction (nx.adjacency_items g) as [|[[u v] dd] items IH]; intros h Hh; [done|].
  simpl. apply IH. by apply wf_add_edge.
Qed.

Lemma adjacency_items_elem g u v dd :
  (u, v, dd) ∈ nx.adjacency_items g ↔
  ∃ nbrs, (u, nbrs) ∈ g_adj g ∧ (v, dd) ∈ nbrs.
Proof.
  unfold nx.adjacency_items. rewrite list_elem_of_bind. split.
  - intros ([u' nbrs] & Hin & Hu).
    apply list_elem_of_fmap in Hin as ([v' dd'] & [= -> -> ->] & ?). eauto.
  - intros (nbrs & Hu & Hv). exists (u, nbrs). split; [|done].
    apply list_elem_of_fmap. by exists (v, dd).
Qed.

Lemma nodes_copy g : nx.wf g → nx.nodes (nx.copy g) = nx.nodes g.
Proof.
  intros Hwf. unfold nx.copy.
  assert (∀ u v dd, (u, v, dd) ∈ nx.adjacency_items g →
            u ∈ nx.nodes g ∧ v ∈ nx.nodes g) as Hitems.
  { intros u v dd (nbrs & Hu & Hv)%adjacency_items_elem.
    assert (adjacent g u v) as Huv.
    { pose proof Hwf as (_ & Hkeys & Hadj).
      rewrite Forall_forall in Hadj. destruct (Hadj _ Hu) as [_ Hnb].
      rewrite Forall_forall in Hnb. specialize (Hnb _ Hv). simpl in Hnb.
      apply wf_adjacent_sym; [done|]. by exists dd. }
    split; [by eapply adjacent_node_l|by eapply adjacent_node_r]. }
  revert Hitems.
  assert (nx.nodes (MkGraph (g_node g) ((λ '(n, _), (n, [])) <$> g_node g))
          = nx.nodes g) as Hinit by done.
  revert Hinit. generalize (MkGraph (g_node g) ((λ '(n, _), (n, [])) <$> g_node g)).
  induction (nx.adjacency_items g) as [|[[u v] dd] items IH];
    intros h Hh Hitems; [done|].
  simpl. apply IH.
  - destruct (Hitems u v dd) as [Hu Hv]; [by left|].
    rewrite add_edge_nodes, !touch_node_nodes, Hh.
    rewrite (decide_True _ _ Hu). by rewrite decide_True.
  - intros u' v' dd' Hin. apply (Hitems u' v' dd'). by right.
Qed.

(** [edges()] lists edges, and every edge once in one of its directions. *)
Lemma edges_from_sound adj : ∀ seen u v,
  (u, v) ∈ nx.edges_from seen adj →
  ∃ nbrs, (u, nbrs) ∈ adj ∧ v ∈ dict_keys nbrs.
Proof.
  induction adj as [|[n nbrs] adj IH]; intros seen u v; simpl.
  - by intros ?%elem_of_nil.
  - intros [Hin|Hin]%elem_of_app.
    + apply list_elem_of_fmap in Hin as (nbr & [= -> ->] & [_ ?]%list_elem_of_filter).
      exists nbrs. split; [by left|done].
    + destruct (IH _ _ _ Hin) as (nb & ? & ?). exists nb. split; [by right|done].
Qed.

Lemma edges_from_cover adj : ∀ seen u v nu nv,
  NoDup (dict_keys adj) →
  (u, nu) ∈ adj → v ∈ dict_keys nu →
  (v, nv) ∈ adj → u ∈ dict_keys nv →
  u ∉ seen → v ∉ seen →
  (u, v) ∈ nx.edges_from seen adj ∨ (v, u) ∈ nx.edges_from seen adj.
Proof.
  induction adj as [|[n nbrs] adj IH]; intros seen u v nu nv Hnd Hu Hv Hv' Hu' Hus Hvs.
  - by apply elem_of_nil in Hu.
  - unfold dict_keys in Hnd. simpl in Hnd. apply NoDup_cons in Hnd as [Hn Hnd].
    assert (∀ x nx, (x, nx) ∈ adj → x ≠ n) as Hfresh.
    { intros x nb Hin ->. apply Hn. apply list_elem_of_fmap. by exists (n, nb). }
    simpl. rewrite !elem_of_app.
    apply elem_of_cons in Hu as [[= -> ->]|Hu].
    { left. left. apply list_elem_of_fmap. exists v. split; [done|].
      by apply list_elem_of_filter. }
    apply elem_of_cons in Hv' as [[= -> ->]|Hv'].
    { right. left. apply list_elem_of_fmap. exists u. split; [done|].
      by apply list_elem_of_filter. }
    pose proof (Hfresh _ _ Hu). pose proof (Hfresh _ _ Hv').
    assert (u ∉ {[n]} ∪ seen) by set_solver.
    assert (v ∉ {[n]} ∪ seen) by set_solver.
    destruct (IH ({[n]} ∪ seen) u v nu nv) as [?|?]; [done..| |].
    + left. by right.
    + right. by right.
Qed.

Lemma edges_adjacent g u v : nx.wf g → (u, v) ∈ nx.edges g → adjacent g u v.
Proof.
  intros (Hnd & Hkeys & _) (nb & Hu & Hv)%edges_from_sound.
  unfold adjacent, nx.edge_data.
  rewrite (dict_get_elem u nb) by (by rewrite ?Hkeys). simpl.
  by apply dict_get_is_Some.
Qed.

Lemma edges_cover g u v :
  nx.wf g → adjacent g u v → (u, v) ∈ nx.edges g ∨ (v, u) ∈ nx.edges g.
Proof.
  intros Hwf Huv. pose proof (wf_adjacent_sym _ _ _ Hwf Huv) as Hvu.
  apply adjacent_inv in Huv as (nu & e & Hnu & He).
  apply adjacent_inv in Hvu as (nv & e' & Hnv & He').
  destruct Hwf as (Hnd & Hkeys & _).
  apply (edges_from_cover _ _ _ _ nu nv); try set_solver.
  - by rewrite Hkeys.
  - by apply dict_get_Some_elem.
  - apply dict_get_is_Some. eauto.
  - by apply dict_get_Some_elem.
  - apply dict_get_is_Some. eauto.
Qed.

(** What [G[u][v][key] = value] changes. *)
Lemma set_edge_attr_Return u v f g :
  is_Some (nx.edge_data g u v) →
  ∃ g', nx.set_edge_attr u v f g = Return g' ∧
        nx.nodes g' = nx.nodes g ∧
        ∀ x y, nx.edge_data g' x y =
               if decide ((x = u ∧ y = v) ∨ (x = v ∧ y = u))
               then f <$> nx.edge_data g x y
               else nx.edge_data g x y.
Proof.
  intros [e He]. unfold nx.set_edge_attr. rewrite He.
  eexists. split; [done|]. split; [done|]. intros x y.
  assert (∀ a b adj,
    dict_get x (dict_alter (dict_alter f b) a adj) ≫= dict_get y =
    if decide (x = a ∧ y = b) then f <$> (dict_get x adj ≫= dict_get y)
    else dict_get x adj ≫= dict_get y) as Hone.
  { intros a b adj. rewrite dict_get_alter.
    destruct (decide (x = a)) as [->|Hxa];
      [|rewrite decide_False by tauto; done].
    destruct (dict_get a adj) as [nb|]; simpl; [|by case_decide].
    rewrite dict_get_alter.
    destruct (decide (y = b)) as [->|Hyb];
      [by rewrite decide_True|by rewrite decide_False by tauto]. }
  unfold nx.edge_data. simpl. destruct (decide (u = v)) as [->|Huv].
  - rewrite Hone.
    destruct (decide (x = v ∧ y = v)) as [[-> ->]|Hn];
      [by rewrite decide_True by auto|by rewrite decide_False by tauto].
  - rewrite !Hone.
    destruct (decide (x = v ∧ y = u)) as [[-> ->]|Hn1].
    + rewrite decide_False by (intros [-> _]; done).
      by rewrite decide_True by auto.
    + destruct (decide (x = u ∧ y = v)) as [[-> ->]|Hn2];
        [by rewrite decide_True by auto|by rewrite decide_False by tauto].
Qed.

(** An edge weight as [add_random_weights] produces it: a draw from the
    range, rounded to two decimals. *)
Definition drawn_weight (min_weight max_weight : Q) (e : edge_attr) : Prop :=
  ∃ x, (min_weight <= x <= max_weight)%Q ∧ e_weight e = Some (round2 x).

Section assign.
Variables (R : generator) (min_weight max_weight : Q).
Hypothesis Hrange : (min_weight <= max_weight)%Q.

Lemma assign_weight_step g st u v :
  is_Some (nx.edge_data g u v) →
  ∃ g' st',
    assign_weight R min_weight max_weight (Return (g, st)) (u, v)
      = Return (g', st') ∧
    nx.nodes g' = nx.nodes g ∧
    (∀ x y, is_Some (nx.edge_data g' x y) ↔ is_Some (nx.edge_data g x y)) ∧
    (∀ x y e', nx.edge_data g' x y = Some e' →
       if decide ((x = u ∧ y = v) ∨ (x = v ∧ y = u))
       then drawn_weight min_weight max_weight e'
       else nx.edge_data g x y = Some e').
Proof.
  intros Huv. unfold assign_weight. cbn [obind fst snd].
  set (w := round2 (random_uniform R min_weight max_weight st).1).
  destruct (set_edge_attr_Return u v (set_weight w) g Huv)
    as (g' & -> & Hnodes & Hdata).
  simpl. eexists _, _. split; [done|]. split; [done|]. split.
  - intros x y. rewrite Hdata. case_decide; [|done]. by rewrite fmap_is_Some.
  - intros x y e'. rewrite Hdata. case_decide as Hxy; [|done].
    intros [e0 [He0 ->]]%fmap_Some.
    eexists. split; [by apply random_uniform_range|done].
Qed.

Lemma assign_weights_fold g0 es : ∀ g st (seen : list (string * string)),
  (∀ x y, is_Some (nx.edge_data g x y) ↔ is_Some (nx.edge_data g0 x y)) →
  (∀ u v, (u, v) ∈ es → is_Some (nx.edge_data g0 u v)) →
  (∀ u v e, (u, v) ∈ seen →
     nx.edge_data g u v = Some e ∨ nx.edge_data g v u = Some e →
     drawn_weight min_weight max_weight e) →
  ∃ g' st',
    fold_left (assign_weight R min_weight max_weight) es (Return (g, st))
      = Return (g', st') ∧
    nx.nodes g' = nx.nodes g ∧
    (∀ x y, is_Some (nx.edge_data g' x y) ↔ is_Some (nx.edge_data g0 x y)) ∧
    (∀ u v e, (u, v) ∈ seen ++ es →
       nx.edge_data g' u v = Some e ∨ nx.edge_data g' v u = Some e →
       drawn_weight min_weight max_weight e).
Proof.
  induction es as [|[a b] es IH]; intros g st seen Hshape Hes Hseen.
  - exists g, st. rewrite app_nil_r. done.
  - destruct (assign_weight_step g st a b)
      as (g1 & st1 & Hstep & Hnodes1 & Hshape1 & Hdata1).
    { apply Hshape, Hes. by left. }
    destruct (IH g1 st1 (seen ++ [(a, b)]))
      as (g' & st' & Hfold & Hnodes & Hshape' & Hall).
    { intros x y. by rewrite Hshape1. }
    { intros u v Hin. apply Hes. by right. }
    { intros u v e [Hin|Hin%list_elem_of_singleton]%elem_of_app Hcase.
      - destruct Hcase as [He|He]; apply Hdata1 in He;
          case_decide; try done; apply (Hseen u v e Hin); auto.
      - simplify_eq.
        destruct Hcase as [He|He]; apply Hdata1 in He;
          by rewrite decide_True in He by auto. }
    exists g', st'. cbn [fold_left]. rewrite Hstep.
    split; [done|]. split; [congruence|]. split; [done|].
    intros u v e Hin. apply Hall.
    rewrite <-app_assoc. done.
Qed.
End assign.

(** Every edge of the graph that [add_random_weights] returns carries a
    rounded draw from the range. *)
Lemma add_random_weights_drawn R g min_weight max_weight seed shared :
  nx.wf g → (min_weight <= max_weight)%Q →
  ∃ wg st,
    add_random_weights R g min_weight max_weight seed shared = Return (wg, st) ∧
    nx.nodes wg = nx.nodes g ∧
    ∀ u v e, nx.edge_data wg u v = Some e →
             drawn_weight min_weight max_weight e.
Proof.
  intros Hwf Hrange. unfold add_random_weights.
  assert (nx.wf (nx.copy g)) as Hwfc by (apply wf_copy; by destruct Hwf).
  destruct (assign_weights_fold R min_weight max_weight Hrange (nx.copy g)
              (nx.edges (nx.copy g)) (nx.copy g)
              (random_seed R seed shared) [])
    as (wg & st & -> & Hnodes & Hshape & Hall).
  { done. }
  { intros u v Hin. by apply edges_adjacent. }
  { by intros u v e ?%elem_of_nil. }
  exists wg, st. split; [done|]. split.
  - rewrite Hnodes. by apply nodes_copy.
  - intros u v e He.
    assert (adjacent (nx.copy g) u v) as Hadj by (apply Hshape; eauto).
    destruct (edges_cover _ _ _ Hwfc Hadj) as [Hin|Hin].
    + apply (Hall u v e); [done|by left].
    + apply (Hall v u e); [done|by right].
Qed.

(** ** The errors of the weighted query *)

(** [raises_only P o]: if the call [o] raises, the exception satisfies [P]. *)
Definition raises_only {A} (P : exn → Prop) (o : outcome A) : Prop :=
  ∀ e, o = Raise e → P e.

(** A failed lookup ([KeyError]) or networkx's complaint about contradictory
    distances ([ValueError]). *)
Definition lookup_error (e : exn) : Prop := e = KeyError ∨ e = ValueError.

(** These, or one of the two exceptions networkx documents for its queries. *)
Definition search_error (e : exn) : Prop :=
  e = NodeNotFound ∨ e = NetworkXNoPath ∨ lookup_error e.

Lemma raises_only_Return {A} P (a : A) : raises_only P (Return a).
Proof. by intros e. Qed.

Lemma raises_only_OutOfFuel {A} P : raises_only P (@OutOfFuel A).
Proof. by intros e. Qed.

Lemma raises_only_Raise {A} (P : exn → Prop) e : P e → raises_only P (@Raise A e).
Proof. by intros He e' [= <-]. Qed.

Lemma raises_only_bind {A B} P (m : outcome A) (k : A → outcome B) :
  raises_only P m → (∀ a, raises_only P (k a)) → raises_only P (obind m k).
Proof.
  intros Hm Hk e. destruct m as [a|e'|]; simpl; [apply Hk| |done].
  intros [= ->]. by apply Hm.
Qed.

Lemma raises_only_weaken {A} (P Q : exn → Prop) (o : outcome A) :
  (∀ e, P e → Q e) → raises_only P o → raises_only Q o.
Proof. intros HPQ Ho e He. by apply HPQ, Ho. Qed.

Create HintDb errors.
#[local] Hint Resolve raises_only_Return raises_only_OutOfFuel : errors.

Lemma relax_errors v d st item :
  raises_only lookup_error st → raises_only lookup_error (nx.relax v d st item).
Proof.
  intros Hst. unfold nx.relax. apply raises_only_bind; [done|]. intros s.
  destruct (nx.dist s !! item.1).
  - case_match; [apply raises_only_Raise; by right|auto with errors].
  - case_match; [|auto with errors].
    apply raises_only_bind; [|auto with errors].
    destruct (nx.paths s) as [ps|]; [|auto with errors].
    destruct (ps !! v); [auto with errors|].
    apply raises_only_Raise. by left.
Qed.

Lemma relax_fold_errors v d items : ∀ st,
  raises_only lookup_error st →
  raises_only lookup_error (fold_left (nx.relax v d) items st).
Proof.
  induction items as [|item items IH]; intros st Hst; [done|].
  simpl. by apply IH, relax_errors.
Qed.

Lemma dijkstra_loop_errors g t fuel : ∀ st,
  raises_only lookup_error (nx.dijkstra_loop g t fuel st).
Proof.
  induction fuel as [|fuel IH]; intros st; [auto with errors|].
  simpl. destruct (nx.heappop (nx.fringe st)) as [[[[d c] v] rest]|];
    [|auto with errors].
  case_decide; [apply IH|]. case_decide; [auto with errors|].
  destruct (dict_get v (g_adj g)) as [nbrs|];
    [|apply raises_only_Raise; by left].
  apply raises_only_bind; [|apply IH].
  apply relax_fold_errors. auto with errors.
Qed.

Lemma dijkstra_path_errors g s t : raises_only search_error (nx.dijkstra_path g s t).
Proof.
  unfold nx.dijkstra_path, nx.dijkstra_multisource.
  destruct (nx.has_node g s); cbn [negb]; [|apply raises_only_Raise; by left].
  case_decide; [auto with errors|].
  apply raises_only_bind.
  - eapply raises_only_weaken; [|apply dijkstra_loop_errors].
    intros e He. by right; right.
  - intros st. destruct (nx.dist st !! t), (nx.paths st ≫= (.!! t));
      auto with errors; apply raises_only_Raise; right; by left.
Qed.

Lemma dijkstra_path_length_errors g s t :
  raises_only search_error (nx.dijkstra_path_length g s t).
Proof.
  unfold nx.dijkstra_path_length, nx.dijkstra_multisource.
  destruct (nx.has_node g s); cbn [negb]; [|apply raises_only_Raise; by left].
  case_decide; [auto with errors|].
  apply raises_only_bind.
  - eapply raises_only_weaken; [|apply dijkstra_loop_errors].
    intros e He. by right; right.
  - intros st. destruct (nx.dist st !! t);
      auto with errors; apply raises_only_Raise; right; by left.
Qed.

Lemma edge_weight_errors g u v : raises_only lookup_error (edge_weight g u v).
Proof.
  unfold edge_weight. case_match; [auto with errors|].
  apply raises_only_Raise. by left.
Qed.

Lemma edge_details_errors g p : raises_only lookup_error (edge_details g p).
Proof.
  induction p as [|u p IH]; [apply raises_only_Return|].
  destruct p as [|v p]; [apply raises_only_Return|].
  rewrite edge_details_cons.
  apply raises_only_bind; [apply edge_weight_errors|]. intros w.
  apply raises_only_bind; [done|]. auto with errors.
Qed.

(** [dijkstra_shortest_path] catches the two documented exceptions; what
    is left is a lookup error. *)
Lemma dijkstra_shortest_path_errors g s t :
  raises_only lookup_error (dijkstra_shortest_path g s t).
Proof.
  unfold dijkstra_shortest_path.
  assert (raises_only search_error
    (call path := nx.dijkstra_path g s t in
     call total_distance := nx.dijkstra_path_length g s t in
     call details := edge_details g path in
     Return (path, total_distance, details))) as Hrun.
  { apply raises_only_bind; [apply dijkstra_path_errors|]. intros p.
    apply raises_only_bind; [apply dijkstra_path_length_errors|]. intros d.
    apply raises_only_bind; [|auto with errors].
    eapply raises_only_weaken; [|apply edge_details_errors].
    intros e He. by right; right. }
  revert Hrun. generalize (obind (nx.dijkstra_path g s t)
    (λ path, obind (nx.dijkstra_path_length g s t)
       (λ total_distance, obind (edge_details g path)
          (λ details, Return (path, total_distance, details))))).
  intros [r|e'|] Hrun; [auto with errors| |auto with errors].
  destruct (Hrun e' eq_refl) as [->|[->|He']]; [auto with errors..|].
  destruct He' as [->| ->]; apply raises_only_Raise; [by left|by right].
Qed.

(** What [edge_details] returns: a weight for every consecutive pair. *)
Lemma edge_details_Return g p : ∀ details,
  edge_details g p = Return details →
  (λ x, x.1) <$> details = consecutive p ∧
  Forall (λ x, nx.edge_data g x.1.1 x.1.2 ≫= e_weight = Some x.2) details.
Proof.
  induction p as [|u p IH]; intros details.
  { intros [= <-]. done. }
  destruct p as [|v p].
  { intros [= <-]. done. }
  rewrite edge_details_cons. unfold edge_weight at 1.
  destruct (nx.edge_data g u v ≫= e_weight) as [w|] eqn:Hw;
    cbn [obind]; [|done].
  destruct (edge_details g (v :: p)) as [rest| |]; cbn [obind]; [|done..].
  intros [= <-]. destruct (IH rest eq_refl) as [Hpairs Hall].
  split.
  - csimpl. by rewrite Hpairs.
  - by constructor.
Qed.

(** The fuel of the weighted search suffices on every graph, whatever its
    weights: a station is settled once, and only then are entries pushed. *)
Lemma relax_size v d st item st' :
  nx.relax v d (Return st) item = Return st' →
  nx.dist st' = nx.dist st ∧
  length (nx.fringe st') ≤ S (length (nx.fringe st)).
Proof.
  unfold nx.relax. cbn [obind].
  destruct (nx.dist st !! item.1).
  { case_match; [done|]. intros [= <-]. auto. }
  case_match; [|intros [= <-]; auto].
  destruct (nx.paths st) as [ps|]; cbn [obind].
  - destruct (ps !! v); cbn [obind]; [|done]. intros [= <-]. simpl. auto.
  - intros [= <-]. simpl. auto.
Qed.

Lemma relax_fold_size v d items : ∀ st st',
  fold_left (nx.relax v d) items (Return st) = Return st' →
  nx.dist st' = nx.dist st ∧
  length (nx.fringe st') ≤ length items + length (nx.fringe st).
Proof.
  induction items as [|item items IH]; intros st st'.
  { intros [= <-]. auto. }
  cbn [fold_left].
  destruct (nx.relax v d (Return st) item) as [st1|e|] eqn:Hst1.
  - intros Hfold. destruct (relax_size _ _ _ _ _ Hst1) as [Hd1 Hl1].
    destruct (IH _ _ Hfold) as [Hd Hl]. split; [congruence|simpl; lia].
  - assert (∀ l, fold_left (nx.relax v d) l (Raise e) = Raise e) as ->; [|done].
    induction l; [done|]. simpl. done.
  - assert (∀ l, fold_left (nx.relax v d) l OutOfFuel = OutOfFuel) as ->; [|done].
    induction l; [done|]. simpl. done.
Qed.

Lemma relax_fold_fuel v d items : ∀ st,
  st ≠ OutOfFuel → fold_left (nx.relax v d) items st ≠ OutOfFuel.
Proof.
  induction items as [|item items IH]; intros st Hst; [done|].
  cbn [fold_left]. apply IH. unfold nx.relax.
  destruct st as [s|e|]; cbn [obind]; [|done..].
  destruct (nx.dist s !! item.1); [by case_match|].
  case_match; [|done].
  destruct (nx.paths s) as [ps|]; cbn [obind]; [|done].
  by destruct (ps !! v).
Qed.

Lemma dijkstra_loop_fuel g t fuel : ∀ st,
  length (nx.fringe st) + dfs_weight (dom (nx.dist st)) (g_adj g) < fuel →
  nx.dijkstra_loop g t fuel st ≠ OutOfFuel.
Proof.
  induction fuel as [|fuel IH]; intros st Hfuel; [lia|].
  simpl. destruct (nx.heappop (nx.fringe st)) as [[[[d c] v] rest]|] eqn:Hpop;
    [|done].
  pose proof Hpop as [Hperm _]%heappop_Some.
  assert (length (nx.fringe st) = S (length rest)) as Hlen by (by rewrite Hperm).
  case_decide as Hv; [apply IH; simpl; lia|].
  case_decide; [done|].
  destruct (dict_get v (g_adj g)) as [nbrs|] eqn:Hnbrs; [|done].
  destruct (fold_left (nx.relax v d) nbrs _) as [st2|e|] eqn:Hfold;
    cbn [obind]; [|done|].
  - apply relax_fold_size in Hfold as [Hdist Hsize]. simpl in Hdist, Hsize.
    apply IH. rewrite Hdist, dom_insert_L.
    pose proof (dfs_weight_visit _ _ _ _ Hnbrs Hv). lia.
  - by apply relax_fold_fuel in Hfold.
Qed.

Lemma dijkstra_multisource_fuel g s t ps :
  nx.dijkstra_multisource g s t ps ≠ OutOfFuel.
Proof.
  unfold nx.dijkstra_multisource. apply dijkstra_loop_fuel. simpl.
  rewrite dom_empty_L, dfs_weight_empty.
  unfold nx.dijkstra_fuel, nx.number_of_adjacencies. lia.
Qed.

Lemma dijkstra_shortest_path_fuel g s t :
  dijkstra_shortest_path g s t ≠ OutOfFuel.
Proof.
  unfold dijkstra_shortest_path, nx.dijkstra_path, nx.dijkstra_path_length.
  destruct (nx.has_node g s); cbn [negb obind]; [|done].
  pose proof (dijkstra_multisource_fuel g s t (Some {[s := [s]]})) as H1.
  pose proof (dijkstra_multisource_fuel g s t None) as H2.
  destruct (decide (t = s)) as [->|Hts].
  - rewrite decide_True by done. by cbn.
  - rewrite decide_False by done.
    destruct (nx.dijkstra_multisource g s t (Some _)) as [st1|e1|];
      cbn [obind]; [| |done].
    + destruct (nx.dist st1 !! t), (nx.paths st1 ≫= (.!! t)) as [p|];
        cbn [obind]; try (by destruct NetworkXNoPath).
      destruct (nx.dijkstra_multisource g s t None) as [st2|e2|];
        cbn [obind]; [| |done].
      * destruct (nx.dist st2 !! t); cbn [obind]; [|done].
        pose proof (edge_details_errors g p) as H3.
        destruct (edge_details g p) as [det|e3|] eqn:Hdet; cbn [obind];
          [done| |].
        -- by destruct e3.
        -- clear H3. exfalso. revert Hdet. clear.
           revert p. induction p as [|u p IH]; [done|].
           destruct p as [|v p]; [done|]. rewrite edge_details_cons.
           unfold edge_weight.
           destruct (nx.edge_data g u v ≫= e_weight); cbn [obind]; [|done].
           destruct (edge_details g (v :: p)); cbn [obind]; done.
      * by destruct e2.
    + by destruct e1.
Qed.

(** ** Routes without repetition *)

Lemma walk_prefix g s u p v :
  walk g s u p → v ∈ p → ∃ q, walk g s v q ∧ length q ≤ length p.
Proof.
  induction 1 as [|u w p Hp IH Huw].
  - intros ->%list_elem_of_singleton. exists [s]. split; [constructor|done].
  - intros [Hin| ->%list_elem_of_singleton]%elem_of_app.
    + destruct (IH Hin) as (q & Hq & Hlen). exists q. split; [done|].
      rewrite length_app. lia.
    + exists (p ++ [w]). split; [by econstructor|done].
Qed.

(** A route that visits a station twice can be shortened. *)
Lemma walk_shorten g s x p :
  walk g s x p → ¬ NoDup p → ∃ q, walk g s x q ∧ length q < length p.
Proof.
  induction 1 as [|u v p Hp IH Huv]; intros Hdup.
  - destruct Hdup. apply NoDup_singleton.
  - destruct (decide (NoDup p)) as [Hnd|Hnd].
    + assert (v ∈ p) as Hv.
      { destruct (decide (v ∈ p)) as [|Hv]; [done|]. destruct Hdup.
        apply NoDup_app. split; [done|]. split; [|apply NoDup_singleton].
        by intros y Hy ->%list_elem_of_singleton. }
      destruct (walk_prefix _ _ _ _ _ Hp Hv) as (q & Hq & Hlen).
      exists q. split; [done|]. rewrite length_app. simpl. lia.
    + destruct (IH Hnd) as (q & Hq & Hlen). exists (q ++ [v]).
      split; [by econstructor|]. rewrite !length_app. simpl. lia.
Qed.

(** What the depth-first search keeps of its stack: an entry is a path
    without repetition, and all its stations but the last are visited. *)
Definition dfs_simple (visited : gset string) (entry : string * list string)
    : Prop :=
  ∃ p0, entry.2 = p0 ++ [entry.1] ∧ NoDup entry.2 ∧ ∀ x, x ∈ p0 → x ∈ visited.

Lemma dfs_loop_simple g t fuel : ∀ visited stack p,
  Forall (dfs_simple visited) stack →
  dfs_loop g t fuel visited stack = Return (Some p) → NoDup p.
Proof.
  induction fuel as [|fuel IH]; intros visited stack p Hinv; [done|].
  cbn [dfs_loop]. destruct stack as [|[c pc] stack]; [done|].
  apply Forall_cons in Hinv as [Hc Hinv].
  case_decide as Hct.
  { intros [= <-]. by destruct Hc as (? & _ & ? & _). }
  case_decide as Hvis; [by apply IH|].
  destruct (nx.neighbors g c) as [nbrs| |] eqn:Hn; cbn [obind]; [|done..].
  rewrite dfs_push_rev. apply IH.
  destruct Hc as (p0 & Hpc & Hnd & Hsub). simpl in Hpc, Hnd.
  apply Forall_app. split.
  - apply Forall_fmap, Forall_forall. intros n [Hn' _]%list_elem_of_filter.
    exists pc. split; [done|]. simpl. split.
    + apply NoDup_app. split; [done|]. split; [|apply NoDup_singleton].
      intros y Hy ->%list_elem_of_singleton. apply Hn'.
      rewrite Hpc in Hy.
      apply elem_of_app in Hy as [Hy|Hy%list_elem_of_singleton]; set_solver.
    + intros x. rewrite Hpc.
      intros [?|?%list_elem_of_singleton]%elem_of_app; set_solver.
  - eapply Forall_impl; [done|]. intros [u pu] (q0 & ? & ? & Hq0).
    exists q0. split; [done|]. split; [done|]. set_solver.
Qed.

Lemma dfs_path_simple g s t p : dfs_path g s t = Return (Some p) → NoDup p.
Proof.
  unfold dfs_path. case_match; [done|].
  apply dfs_loop_simple. apply Forall_singleton.
  exists []. split; [done|]. split; [apply NoDup_singleton|].
  by intros x ?%elem_of_nil.
Qed.

Lemma bfs_path_Some_nodes g s t p :
  bfs_path g s t = Return (Some p) → s ∈ nx.nodes g ∧ t ∈ nx.nodes g.
Proof.
  unfold bfs_path.
  destruct (nx.has_node g s) eqn:Hs, (nx.has_node g t) eqn:Ht; try done.
  intros _. split; by apply has_node_true.
Qed.

Lemma dfs_path_Some_nodes g s t p :
  dfs_path g s t = Return (Some p) → s ∈ nx.nodes g ∧ t ∈ nx.nodes g.
Proof.
  unfold dfs_path.
  destruct (nx.has_node g s) eqn:Hs, (nx.has_node g t) eqn:Ht; try done.
  intros _. split; by apply has_node_true.
Qed.

Lemma bfs_path_simple g s t p :
  nx.wf g → bfs_path g s t = Return (Some p) → NoDup p.
Proof.
  intros Hwf Hrun. destruct (bfs_path_Some_nodes _ _ _ _ Hrun) as [Hs Ht].
  destruct (bfs_path_correct g s t Hwf Hs Ht) as (r & Hr & Hpost).
  rewrite Hrun in Hr. injection Hr as <-. destruct Hpost as [Hp Hmin].
  destruct (decide (NoDup p)) as [|Hdup]; [done|].
  destruct (walk_shorten _ _ _ _ Hp Hdup) as (q & Hq & Hlen).
  specialize (Hmin q Hq). lia.
Qed.

(** In an undirected graph the breadth-first route back has the length of
    the route there. *)
Lemma bfs_path_reverse g s t p :
  nx.wf g → bfs_path g s t = Return (Some p) →
  ∃ q, bfs_path g t s = Return (Some q) ∧ length q = length p.
Proof.
  intros Hwf Hrun. destruct (bfs_path_Some_nodes _ _ _ _ Hrun) as [Hs Ht].
  destruct (bfs_path_correct g s t Hwf Hs Ht) as (r & Hr & Hpost).
  rewrite Hrun in Hr. injection Hr as <-. destruct Hpost as [Hp Hmin].
  destruct (walk_sym _ _ _ _ Hwf Hp) as (p' & Hp' & Hlen').
  destruct (bfs_path_correct g t s Hwf Ht Hs) as ([q|] & Hq & Hpost);
    [|by destruct (Hpost p')].
  destruct Hpost as [Hwq Hminq]. exists q. split; [done|].
  destruct (walk_sym _ _ _ _ Hwf Hwq) as (q' & Hq' & Hlenq').
  specialize (Hmin q' Hq'). specialize (Hminq p' Hp'). lia.
Qed.

(** ** The two searches side by side *)

(** On every query the two searches agree on whether there is a route,
    and the breadth-first route is not the longer one. *)
Lemma searches_agree g s t :
  nx.wf g →
  (dfs_path g s t = Return None ∧ bfs_path g s t = Return None) ∨
  ∃ d b, dfs_path g s t = Return (Some d) ∧ bfs_path g s t = Return (Some b) ∧
         walk g s t d ∧ walk g s t b ∧ 0 < length b ≤ length d.
Proof.
  intros Hwf.
  destruct (decide (s ∈ nx.nodes g)) as [Hs|Hs];
    [|left; split; [apply dfs_path_unknown|apply bfs_path_unknown]; by left].
  destruct (decide (t ∈ nx.nodes g)) as [Ht|Ht];
    [|left; split; [apply dfs_path_unknown|apply bfs_path_unknown]; by right].
  destruct (dfs_path_correct g s t Hwf Hs Ht) as ([d|] & Hd & Hpd);
    destruct (bfs_path_correct g s t Hwf Hs Ht) as ([b|] & Hb & Hpb).
  - right. exists d, b. destruct Hpb as [Hwb Hmin].
    split; [done|]. split; [done|]. split; [done|]. split; [done|].
    split; [by eapply walk_nonempty|by apply Hmin].
  - by destruct (Hpb d).
  - destruct Hpb as [Hwb _]. by destruct (Hpd b).
  - by left.
Qed.

Lemma compare_lengths_Return d b :
  0 < length b ≤ length d →
  ∃ c, compare_lengths d b = Return c ∧
       cmp_difference c = (len d - len b)%Z ∧
       (0 <= cmp_difference c)%Z ∧
       (0 <= cmp_efficiency_diff c)%Q ∧
       (∀ n, cmp_verdict c = BfsShorter n → (0 < n)%Z) ∧
       (cmp_verdict c = SamePath → d = b).
Proof.
  intros [Hb Hbd]. unfold compare_lengths, len.
  rewrite (decide_False (P := Z.of_nat (length b) = 0%Z)) by lia.
  eexists. split; [done|]. cbn [cmp_difference cmp_verdict cmp_efficiency_diff].
  split; [done|]. split; [lia|]. split; [|split].
  - apply Qmult_le_0_compat; [|done].
    apply Qmult_le_0_compat.
    + change 0%Q with (inject_Z 0). rewrite <-Zle_Qle. lia.
    + apply Qinv_le_0_compat. change 0%Q with (inject_Z 0).
      rewrite <-Zle_Qle. lia.
  - intros n. case_decide; [by case_decide|]. intros [= <-]. lia.
  - case_decide; [|done]. by case_decide.
Qed.

Lemma truthy_nonempty p : 0 < length p → truthy (Some p) = true.
Proof. destruct p; simpl; [lia|done]. Qed.

Lemma compare_paths_Return g s t :
  nx.wf g →
  ∃ dfs_result bfs_result,
    dfs_path g s t = Return dfs_result ∧ bfs_path g s t = Return bfs_result ∧
    compare_paths g s t = Return (dfs_result, bfs_result).
Proof.
  intros Hwf. unfold compare_paths.
  destruct (searches_agree g s t Hwf)
    as [[-> ->]|(d & b & -> & -> & _ & _ & Hlen)].
  - by eexists _, _.
  - eexists _, _. split; [done|]. split; [done|]. cbn [obind].
    rewrite !truthy_nonempty by lia. cbn [andb].
    by destruct (compare_lengths_Return d b Hlen) as (c & -> & _).
Qed.

(** ** The table of [demonstrate_algorithms] *)

(** The two lengths of an entry: both missing, or both there with the
    breadth-first one not the larger. *)
Definition lengths_agree (result : case_result) : Prop :=
  match r_dfs_length result, r_bfs_length result with
  | Some dfs_length, Some bfs_length => 0 < bfs_length ≤ dfs_length
  | None, None => True
  | _, _ => False
  end.

(** An entry records the lengths of the two routes of its test case. *)
Definition records_case (g : Graph) (result : case_result)
    (case : string * string) : Prop :=
  r_start result = case.1 ∧ r_goal result = case.2 ∧
  ∃ dfs_result bfs_result,
    dfs_path g case.1 case.2 = Return dfs_result ∧
    bfs_path g case.1 case.2 = Return bfs_result ∧
    r_dfs_length result = length <$> dfs_result ∧
    r_bfs_length result = length <$> bfs_result.

Lemma run_case_Return g acc case :
  nx.wf g →
  ∃ result, run_case g (Return acc) case = Return (acc ++ [result]) ∧
            lengths_agree result ∧ records_case g result case.
Proof.
  intros Hwf. unfold run_case. cbn [obind]. unfold compare_paths.
  destruct (searches_agree g case.1 case.2 Hwf)
    as [[Hd Hb]|(d & b & Hd & Hb & _ & _ & Hlen)]; rewrite Hd, Hb; cbn [obind].
  - eexists. split; [done|]. split; [done|].
    split; [done|]. split; [done|]. by exists None, None.
  - rewrite !truthy_nonempty by lia. cbn [andb].
    destruct (compare_lengths_Return d b Hlen) as (c & -> & _).
    cbn [obind fst snd].
    unfold length_if_true. rewrite !truthy_nonempty by lia.
    eexists. split; [done|]. split; [done|].
    split; [done|]. split; [done|]. by exists (Some d), (Some b).
Qed.

Lemma run_cases_Return g cases :
  nx.wf g → ∀ acc,
  ∃ results, fold_left (run_case g) cases (Return acc) = Return (acc ++ results) ∧
             Forall lengths_agree results ∧
             Forall2 (records_case g) results cases.
Proof.
  intros Hwf. induction cases as [|case cases IH]; intros acc.
  - exists []. by rewrite app_nil_r.
  - cbn [fold_left].
    destruct (run_case_Return g acc case Hwf) as (r & -> & Hr & Hcase).
    destruct (IH (acc ++ [r])) as (rs & -> & Hrs & Hcases).
    exists (r :: rs). rewrite <-app_assoc. split; [done|].
    split; by constructor.
Qed.

Lemma summarize_fold results : ∀ st,
  Forall lengths_agree results →
  (st.1 ≤ (fold_left summarize results st).1)%Z ∧
  st.2 ≤ (fold_left summarize results st).2 ≤ st.2 + length results.
Proof.
  induction results as [|r rs IH]; intros st Hall; [simpl; lia|].
  apply Forall_cons in Hall as [Hr Hrs]. cbn [fold_left].
  destruct (IH (summarize st r) Hrs) as (H1 & H2 & H3).
  assert ((st.1 ≤ (summarize st r).1)%Z ∧
          st.2 ≤ (summarize st r).2 ≤ S st.2) as (? & ? & ?).
  { unfold summarize, lengths_agree in *.
    destruct (r_dfs_length r) as [[|d]|], (r_bfs_length r) as [[|b]|];
      simpl; try lia. }
  simpl. lia.
Qed.

(** ** The graph built from line data, once more *)

(** The three values [create_graph_from_ubahn] returns. *)
Definition built_graph (data : list (string * line_data)) : Graph :=
  (create_graph_from_ubahn data).1.1.

Definition built_station_lines (data : list (string * line_data))
    : list (string * list string) :=
  (create_graph_from_ubahn data).1.2.

Definition built_line_colors (data : list (string * line_data))
    : list (string * string) :=
  (create_graph_from_ubahn data).2.

Lemma create_graph_unfold data :
  create_graph_from_ubahn data =
  (fold_left set_station_attrs
     (fold_left connect_event (events data) (nx.empty_graph, [])).2
     (fold_left connect_event (events data) (nx.empty_graph, [])).1,
   (fold_left connect_event (events data) (nx.empty_graph, [])).2,
   fold_left (λ lc item, dict_set item.1 (color item.2) lc) data []).
Proof.
  unfold create_graph_from_ubahn. rewrite fold_add_line.
  by destruct (fold_left connect_event _ _).
Qed.

Lemma built_spec data :
  build_inv (events data) (built_graph data, built_station_lines data) ∧
  (∀ s ls, dict_get s (built_station_lines data) = Some ls →
           dict_get s (g_node (built_graph data)) = Some (station_attrs ls)).
Proof.
  apply (create_graph_spec data _ _ (built_line_colors data)).
  unfold built_graph, built_station_lines, built_line_colors.
  by destruct (create_graph_from_ubahn data) as [[? ?] ?].
Qed.

Lemma built_wf data : nx.wf (built_graph data).
Proof. destruct (built_spec data) as [Hinv _]. apply (build_wf _ _ Hinv). Qed.

Lemma built_adj data :
  g_adj (built_graph data) =
  g_adj (fold_left connect_event (events data) (nx.empty_graph, [])).1.
Proof.
  unfold built_graph. rewrite create_graph_unfold. simpl.
  apply set_station_attrs_fold.
Qed.

(** *** The order of the stations *)

(** The stations in the order in which the loops of
    [create_graph_from_ubahn] meet them. *)
Definition station_visits (data : list (string * line_data)) : list string :=
  ev ← events data; [ev.2.1; ev.2.2].

(** A list without its repetitions, every element where it is first. *)
Definition first_visit (acc : list string) (station : string) : list string :=
  if decide (station ∈ acc) then acc else acc ++ [station].

Definition first_visits (l : list string) : list string :=
  fold_left first_visit l [].

Lemma connect_events_nodes evs : ∀ st,
  nx.nodes (fold_left connect_event evs st).1 =
  fold_left first_visit (ev ← evs; [ev.2.1; ev.2.2]) (nx.nodes st.1).
Proof.
  induction evs as [|[[l c] [a b]] evs IH]; intros st; [done|].
  cbn [fold_left]. rewrite IH. csimpl. f_equal.
  unfold connect_event, connect. simpl.
  by rewrite add_edge_nodes, !touch_node_nodes.
Qed.

Lemma built_nodes data :
  nx.nodes (built_graph data) = first_visits (station_visits data).
Proof.
  unfold built_graph. rewrite create_graph_unfold. simpl.
  destruct (set_station_attrs_fold
              (fold_left connect_event (events data) (nx.empty_graph, [])).2
              (fold_left connect_event (events data) (nx.empty_graph, [])).1)
    as (_ & -> & _).
  by rewrite connect_events_nodes.
Qed.

(** *** The attributes of an edge *)

(** The attributes that one pass of the inner loop gives its edge. *)
Definition segment_attr (ev : event) : edge_attr :=
  EdgeAttr (Some ev.1.1) (Some ev.1.2) None.

Lemma connect_events_edge evs : ∀ u v,
  nx.edge_data (fold_left connect_event evs (nx.empty_graph, [])).1 u v =
  segment_attr <$> last (filter (λ ev, joins ev u v) evs).
Proof.
  induction evs as [|ev evs IH] using rev_ind; intros u v; [done|].
  rewrite fold_left_app. cbn [fold_left].
  pose proof (build_inv_fold evs [] _ build_inv_init) as Hinv.
  pose proof (build_wf _ _ Hinv) as Hwf.
  destruct ev as [[l c] [a b]]. unfold connect_event at 1, connect. simpl.
  rewrite add_edge_edge_data by done. rewrite filter_app.
  destruct (decide (joins (l, c, (a, b)) u v)) as [Hj|Hj].
  - rewrite filter_cons, (decide_True _ _ Hj), filter_nil, last_snoc. simpl.
    rewrite decide_True by (apply joins_pair in Hj; tauto).
    rewrite (IH a b). unfold segment_attr.
    by destruct (last (filter _ evs)).
  - rewrite filter_cons, (decide_False _ _ Hj), filter_nil, app_nil_r.
    rewrite decide_False; [apply IH|].
    intros Hc. apply Hj, joins_pair. tauto.
Qed.

Lemma built_edge_data data u v :
  nx.edge_data (built_graph data) u v =
  segment_attr <$> last (filter (λ ev, joins ev u v) (events data)).
Proof.
  unfold nx.edge_data. rewrite built_adj. apply connect_events_edge.
Qed.

(** *** The neighbours of a station *)

(** The station at the other end of a segment that starts or ends at
    [s]. *)
Definition other_end (s : string) (ev : event) : option string :=
  if decide (ev.2.1 = s) then Some ev.2.2
  else if decide (ev.2.2 = s) then Some ev.2.1
  else None.

Definition station_neighbours (data : list (string * line_data)) (s : string)
    : gset string :=
  list_to_set (omap (other_end s) (events data)).

Lemma other_end_joins s ev v : other_end s ev = Some v ↔ joins ev s v.
Proof.
  destruct ev as [[l c] [a b]]. unfold other_end. rewrite joins_pair. simpl.
  destruct (decide (a = s)) as [->|Ha].
  { split; [intros [= ->]; by left|]. by intros [[_ ->]|[-> ->]]. }
  destruct (decide (b = s)) as [->|Hb].
  { split; [intros [= ->]; by right|]. intros [[? _]|[_ ->]]; [congruence|done]. }
  split; [done|]. intros [[? _]|[? _]]; congruence.
Qed.

Lemma station_neighbours_elem data s v :
  v ∈ station_neighbours data s ↔ ∃ ev, ev ∈ events data ∧ joins ev s v.
Proof.
  unfold station_neighbours. rewrite elem_of_list_to_set, list_elem_of_omap.
  by setoid_rewrite other_end_joins.
Qed.

Lemma built_adjacent data s v :
  adjacent (built_graph data) s v ↔ v ∈ station_neighbours data s.
Proof.
  destruct (built_spec data) as [Hinv _]. rewrite station_neighbours_elem. split.
  - intros [e He]. destruct (build_edge _ _ Hinv _ _ _ He) as (ev & ? & ? & _).
    eauto.
  - intros (ev & Hev & Hj). apply (build_event _ _ Hinv ev s v Hev Hj).
Qed.

Lemma dict_get_fmap_values {V W} (f : string → V → W) k (d : list (string * V)) :
  dict_get k ((λ '(n, x), (n, f n x)) <$> d) = f k <$> dict_get k d.
Proof.
  induction d as [|[n x] d IH]; [done|]. csimpl.
  case_decide; [by subst|done].
Qed.

Lemma built_row data s nbrs :
  dict_get s (g_adj (built_graph data)) = Some nbrs →
  length nbrs = size (station_neighbours data s) ∧
  (dict_mem s nbrs = true ↔ s ∈ station_neighbours data s).
Proof.
  intros Hrow. pose proof (built_wf data) as Hwf.
  apply wf_alt in Hwf as (_ & _ & Hrows & _).
  assert (∀ v, v ∈ dict_keys nbrs ↔ v ∈ station_neighbours data s) as Hkeys.
  { intros v. rewrite <-built_adjacent, <-dict_get_is_Some.
    unfold adjacent, nx.edge_data. by rewrite Hrow. }
  split.
  - assert (station_neighbours data s = list_to_set (dict_keys nbrs)) as ->.
    { apply set_eq. intros v. by rewrite elem_of_list_to_set, Hkeys. }
    rewrite size_list_to_set by (by eapply Hrows).
    unfold dict_keys. by rewrite length_fmap.
  - by rewrite dict_mem_true, Hkeys.
Qed.

(** *** Lines and colours *)

Lemma dict_set_fresh_fold (data : list (string * line_data)) : ∀ acc,
  NoDup (dict_keys acc ++ dict_keys data) →
  fold_left (λ lc item, dict_set item.1 (color item.2) lc) data acc =
  acc ++ ((λ item, (item.1, color item.2)) <$> data).
Proof.
  induction data as [|[name d] data IH]; intros acc Hnd.
  { by rewrite app_nil_r. }
  cbn [fold_left fst snd]. unfold dict_keys in Hnd. csimpl in Hnd.
  assert (name ∉ dict_keys acc) as Hfresh.
  { apply NoDup_app in Hnd as (_ & Hdisj & _). intros Hin.
    apply (Hdisj _ Hin). by left. }
  assert (dict_set name (color d) acc = acc ++ [(name, color d)]) as ->.
  { clear -Hfresh. induction acc as [|[k x] acc IH]; [done|].
    simpl. unfold dict_keys in Hfresh. csimpl in Hfresh.
    rewrite decide_False by set_solver. f_equal. apply IH. set_solver. }
  rewrite IH.
  - by rewrite <-app_assoc.
  - unfold dict_keys. rewrite fmap_app, <-app_assoc. done.
Qed.

(** *** The statistics *)

Lemma foldl_max_spec d ds :
  foldl Nat.max d ds ∈ d :: ds ∧ ∀ x, x ∈ d :: ds → x ≤ foldl Nat.max d ds.
Proof.
  revert d. induction ds as [|y ds IH]; intros d.
  { simpl. split; [by left|]. by intros x ->%list_elem_of_singleton. }
  simpl. destruct (IH (d `max` y)) as [Hin Hle]. split.
  - apply elem_of_cons in Hin as [Heq|Hin']; [rewrite Heq|by do 2 right].
    destruct (Nat.max_spec d y) as [[_ ->]|[_ ->]]; [right|]; by left.
  - intros x [->|[->|Hx]%elem_of_cons]%elem_of_cons.
    + etrans; [|apply Hle; by left]. lia.
    + etrans; [|apply Hle; by left]. lia.
    + apply Hle. by right.
Qed.

Lemma foldl_min_spec d ds :
  foldl Nat.min d ds ∈ d :: ds ∧ ∀ x, x ∈ d :: ds → foldl Nat.min d ds ≤ x.
Proof.
  revert d. induction ds as [|y ds IH]; intros d.
  { simpl. split; [by left|]. by intros x ->%list_elem_of_singleton. }
  simpl. destruct (IH (d `min` y)) as [Hin Hle]. split.
  - apply elem_of_cons in Hin as [Heq|Hin']; [rewrite Heq|by do 2 right].
    destruct (Nat.min_spec d y) as [[_ ->]|[_ ->]]; [|right]; by left.
  - intros x [->|[->|Hx]%elem_of_cons]%elem_of_cons.
    + etrans; [apply Hle; by left|]. lia.
    + etrans; [apply Hle; by left|]. lia.
    + apply Hle. by right.
Qed.

Lemma sum_list_bounds l lo hi :
  (∀ x, x ∈ l → lo ≤ x ≤ hi) →
  lo * length l ≤ sum_list l ≤ hi * length l.
Proof.
  induction l as [|x l IH]; intros Hall; simpl; [lia|].
  destruct (Hall x) as [? ?]; [by left|].
  destruct IH as [? ?]; [intros y Hy; apply Hall; by right|]. lia.
Qed.

Lemma average_bounds (total n lo hi : nat) :
  0 < n → lo * n ≤ total ≤ hi * n →
  (inject_Z (Z.of_nat lo)
   <= inject_Z (Z.of_nat total) / inject_Z (Z.of_nat n))%Q ∧
  (inject_Z (Z.of_nat total) / inject_Z (Z.of_nat n)
   <= inject_Z (Z.of_nat hi))%Q.
Proof.
  intros Hn [Hlo Hhi].
  assert (0 < inject_Z (Z.of_nat n))%Q as Hpos.
  { change 0%Q with (inject_Z 0). rewrite <-Zlt_Qlt. lia. }
  split.
  - apply Qle_shift_div_l; [done|]. rewrite <-inject_Z_mult, <-Zle_Qle. lia.
  - apply Qle_shift_div_r; [done|]. rewrite <-inject_Z_mult, <-Zle_Qle. lia.
Qed.

(** The statistics of a graph with at least one node. *)
Lemma degree_statistics_Return G :
  g_adj G ≠ [] →
  ∃ avg mx mn,
    degree_statistics G = Return (avg, mx, mn) ∧
    mx ∈ (nx.degree G).*2 ∧ mn ∈ (nx.degree G).*2 ∧
    (∀ x, x ∈ (nx.degree G).*2 → mn ≤ x ≤ mx) ∧
    (inject_Z (Z.of_nat mn) <= avg)%Q ∧ (avg <= inject_Z (Z.of_nat mx))%Q.
Proof.
  intros Hne. unfold degree_statistics.
  assert (length (nx.degree G) ≠ 0) as Hlen.
  { unfold nx.degree. rewrite length_fmap. by destruct (g_adj G). }
  rewrite decide_False by done.
  destruct ((nx.degree G).*2) as [|d ds] eqn:Hvalues.
  { apply (f_equal length) in Hvalues. rewrite length_fmap in Hvalues. done. }
  destruct (foldl_max_spec d ds) as [Hmax_in Hmax].
  destruct (foldl_min_spec d ds) as [Hmin_in Hmin].
  eexists _, _, _. split; [done|]. split; [done|]. split; [done|].
  split; [intros x Hx; split; [by apply Hmin|by apply Hmax]|].
  assert (length (nx.degree G) = length (d :: ds)) as Hl.
  { by rewrite <-Hvalues, length_fmap. }
  rewrite Hl. apply average_bounds; [simpl; lia|].
  apply sum_list_bounds. intros x Hx. split; [by apply Hmin|by apply Hmax].
Qed.

Lemma built_degree_positive data x :
  x ∈ (nx.degree (built_graph data)).*2 → 1 ≤ x.
Proof.
  unfold nx.degree. rewrite <-list_fmap_compose.
  intros ([s nbrs] & -> & Hin)%list_elem_of_fmap. simpl.
  pose proof (built_wf data) as Hwf. destruct (built_spec data) as [Hinv _].
  assert (s ∈ nx.nodes (built_graph data)) as Hs.
  { destruct Hwf as (_ & <- & _). apply list_elem_of_fmap. by exists (s, nbrs). }
  apply (build_nodes _ _ Hinv) in Hs as (ev & v & Hev & Hj).
  destruct (build_event _ _ Hinv ev s v Hev Hj) as [e He].
  apply edge_data_elem in He as (nbrs' & Hrow & _ & Hv).
  assert (dict_get s (g_adj (built_graph data)) = Some nbrs) as Hrow'.
  { apply dict_get_elem; [|done]. destruct Hwf as (Hnd & -> & _). done. }
  simpl in Hrow. rewrite Hrow' in Hrow. injection Hrow as <-.
  unfold nx.degree_of. destruct nbrs; [by apply elem_of_nil in Hv|simpl; lia].
Qed.

(** *** The analysis of a built graph *)

Lemma analyze_graph_built data :
  nx.nodes (built_graph data) ≠ [] →
  analyze_graph (built_graph data) (built_station_lines data) =
  Return (nx.degree (built_graph data),
          transfer_stations (built_station_lines data)).
Proof.
  intros Hnodes. destruct (built_spec data) as [Hinv _].
  pose proof (build_keys _ _ Hinv) as Hkeys. simpl in Hkeys.
  pose proof (built_wf data) as (Hnd & Hadjkeys & _).
  assert (dict_keys (nx.degree (built_graph data)) = nx.nodes (built_graph data))
    as Hdeg.
  { rewrite <-Hadjkeys. unfold nx.degree, dict_keys.
    rewrite <-list_fmap_compose. apply list_fmap_ext. by intros ? []. }
  unfold analyze_graph. rewrite decide_False.
  2:{ intros Hnil. apply Hnodes. by rewrite <-Hdeg, Hnil. }
  destruct (forallb _ _) eqn:Hcheck; [done|].
  assert (Forall (λ x : string * nat * list string,
                    dict_mem x.1.1 (nx.degree (built_graph data)))
                 (take 10 (transfer_stations (built_station_lines data))))
    as Hall.
  { apply Forall_take, Forall_forall. intros x Hx.
    apply transfer_stations_elem in Hx as (item & Hitem & Hent).
    apply transfer_entry_Some in Hent as [_ ->]. simpl.
    apply Is_true_true, dict_mem_true. rewrite Hdeg, <-Hkeys.
    apply list_elem_of_fmap. by exists item. }
  apply forallb_True in Hall. rewrite Hcheck in Hall. done.
Qed.

Lemma analyze_graph_empty G sl :
  nx.wf G → nx.nodes G = [] → analyze_graph G sl = Raise ZeroDivisionError.
Proof.
  intros (_ & Hkeys & _) Hnodes. unfold analyze_graph, nx.degree.
  rewrite Hnodes in Hkeys. destruct (g_adj G); [done|]. done.
Qed.

(** *** The stations drawn as transfer stations *)

Lemma built_is_transfer data s ls :
  dict_get s (built_station_lines data) = Some ls →
  is_transfer (built_graph data) s =
  bool_decide (1 < size (list_to_set ls : gset string)).
Proof.
  intros Hls. destruct (built_spec data) as [_ Hattr].
  unfold is_transfer. by rewrite (Hattr _ _ Hls).
Qed.

(** * The claims *)

(** Decidable side conditions on concrete graphs are settled by evaluation. *)
Ltac by_evaluation := apply (bool_decide_unpack _); vm_compute; exact I.

(** The number of edges of a route. *)
Definition edge_count (p : list string) : nat := length p - 1.

(** The example network with the weights that [add_random_weights] gives it
    from the example generator. *)
Definition demo_weighted : Graph :=
  Eval vm_compute in
    match add_random_weights demo_generator demo_graph 2 3 42 0 with
    | Return r => r.1
    | _ => nx.empty_graph
    end.

Lemma demo_graph_wf : nx.wf demo_graph.
Proof. by_evaluation. Qed.

Lemma demo_weighted_wf : nx.wf demo_weighted.
Proof. by_evaluation. Qed.

Lemma demo_walk_A_E g :
  adjacent g "A" "B" → adjacent g "B" "C" → adjacent g "C" "E" →
  walk g "A" "E" ["A"; "B"; "C"; "E"].
Proof.
  intros HAB HBC HCE.
  apply (walk_step g "A" "C" "E" ["A"; "B"; "C"]); [|done].
  apply (walk_step g "A" "B" "C" ["A"; "B"]); [|done].
  apply (walk_step g "A" "A" "B" ["A"]); [|done].
  apply walk_start.
Qed.

(** ** C1 *)

(** C1. For a graph and two of its stations that a walk joins (they lie in
    the same connected component), [bfs_path] returns a route from start to
    goal, and no route from start to goal has fewer edges.  [dfs_path]
    returns a route as well, so the route of [bfs_path] has at most as many
    edges as the route of [dfs_path]. *)
Theorem bfs_path_shortest (g : Graph) (start goal : string) :
  nx.wf g → start ∈ nx.nodes g → goal ∈ nx.nodes g →
  (∃ q, walk g start goal q) →
  ∃ p, bfs_path g start goal = Return (Some p) ∧
       walk g start goal p ∧
       (∀ q, walk g start goal q → edge_count p ≤ edge_count q) ∧
       ∃ q, dfs_path g start goal = Return (Some q) ∧
            walk g start goal q ∧ edge_count p ≤ edge_count q.
Proof.
  intros Hwf Hs Ht [q0 Hq0].
  destruct (bfs_path_correct g start goal Hwf Hs Ht) as ([p|] & Hbfs & Hp);
    [|by destruct (Hp q0)].
  destruct Hp as [Hp Hmin].
  destruct (dfs_path_correct g start goal Hwf Hs Ht) as ([q|] & Hdfs & Hq);
    [|by destruct (Hq q0)].
  assert (∀ q', walk g start goal q' → edge_count p ≤ edge_count q') as Hmin'.
  { intros q' Hq'. specialize (Hmin q' Hq'). unfold edge_count. lia. }
  exists p. split; [done|]. split; [done|]. split; [done|].
  exists q. auto.
Qed.

Lemma bfs_path_shortest_witness :
  ∃ p, bfs_path demo_graph "A" "E" = Return (Some p) ∧
       walk demo_graph "A" "E" p ∧
       (∀ q, walk demo_graph "A" "E" q → edge_count p ≤ edge_count q) ∧
       ∃ q, dfs_path demo_graph "A" "E" = Return (Some q) ∧
            walk demo_graph "A" "E" q ∧ edge_count p ≤ edge_count q.
Proof.
  apply (bfs_path_shortest demo_graph "A" "E").
  - by_evaluation.
  - by_evaluation.
  - by_evaluation.
  - exists ["A"; "B"; "C"; "E"].
    apply demo_walk_A_E; by_evaluation.
Defined.

(** ** C10 *)

(** C10. A query from a station of the graph to itself succeeds in both
    searches, with the route that consists of that station alone. *)
Theorem path_to_itself (g : Graph) (s : string) :
  s ∈ nx.nodes g →
  dfs_path g s s = Return (Some [s]) ∧ bfs_path g s s = Return (Some [s]).
Proof.
  intros Hs%has_node_true. unfold dfs_path, bfs_path. rewrite Hs.
  cbn [negb orb]. unfold dfs_fuel, bfs_fuel. simpl.
  by rewrite !decide_True.
Qed.

Lemma path_to_itself_witness :
  dfs_path demo_graph "C" "C" = Return (Some ["C"]) ∧
  bfs_path demo_graph "C" "C" = Return (Some ["C"]).
Proof. apply (path_to_itself demo_graph "C"). by_evaluation. Defined.

(** ** C7 *)

(** C7, as the specification states it, fails: a query for a station that
    is not in the graph and a query between two stations that no route
    joins give the same result, in each of the three searches. *)
Lemma failure_kinds_alike :
  ("Q" ∉ nx.nodes demo_graph) ∧
  "A" ∈ nx.nodes demo_graph ∧ "X" ∈ nx.nodes demo_graph ∧
  (∀ q, ¬ walk demo_graph "A" "X" q) ∧
  dfs_path demo_graph "A" "Q" = dfs_path demo_graph "A" "X" ∧
  bfs_path demo_graph "A" "Q" = bfs_path demo_graph "A" "X" ∧
  dijkstra_shortest_path demo_graph "A" "Q" =
  dijkstra_shortest_path demo_graph "A" "X".
Proof.
  split; [by_evaluation|]. split; [by_evaluation|]. split; [by_evaluation|].
  split; [|by vm_compute].
  destruct (bfs_path_correct demo_graph "A" "X" demo_graph_wf)
    as (r & Hr & Hpost); [by_evaluation..|].
  vm_compute in Hr. by simplify_eq.
Qed.

(** C7, amended.  In an undirected graph, both when start or goal is not a
    station of the graph and when both are but no route joins them,
    [dfs_path] and [bfs_path] return [None], and [dijkstra_shortest_path]
    returns the triple of [None]s if the graph has no negative weight.
    The two kinds of failure give one and the same result. *)
Theorem failed_queries_give_None (g : Graph) (start goal : string) :
  nx.wf g →
  start ∉ nx.nodes g ∨ goal ∉ nx.nodes g ∨ (∀ q, ¬ walk g start goal q) →
  dfs_path g start goal = Return None ∧
  bfs_path g start goal = Return None ∧
  (weights_nonneg g → dijkstra_shortest_path g start goal = Return None).
Proof.
  intros Hwf Hfail.
  destruct (decide (start ∈ nx.nodes g)) as [Hs|Hs].
  - assert (∀ q, ¬ walk g start goal q) as Hno.
    { destruct Hfail as [?|[Ht|?]]; [done| |done].
      intros q Hq. by apply Ht, (walk_node g start goal q). }
    split; [|split].
    + destruct (decide (goal ∈ nx.nodes g)) as [Ht|Ht];
        [|apply dfs_path_unknown; by right].
      destruct (dfs_path_correct g start goal Hwf Hs Ht) as ([p|] & -> & Hp);
        [by destruct (Hno p)|done].
    + destruct (decide (goal ∈ nx.nodes g)) as [Ht|Ht];
        [|apply bfs_path_unknown; by right].
      destruct (bfs_path_correct g start goal Hwf Hs Ht) as ([p|] & -> & Hp);
        [by destruct Hp as [?%Hno _]|done].
    + intros Hnn. by apply dijkstra_shortest_path_no_walk.
  - split; [apply dfs_path_unknown; by left|].
    split; [apply bfs_path_unknown; by left|].
    intros _. by apply dijkstra_shortest_path_unknown.
Qed.

Lemma failed_queries_give_None_witness :
  (dfs_path demo_weighted "A" "Q" = Return None ∧
   bfs_path demo_weighted "A" "Q" = Return None ∧
   (weights_nonneg demo_weighted →
    dijkstra_shortest_path demo_weighted "A" "Q" = Return None)) ∧
  (dfs_path demo_weighted "A" "X" = Return None ∧
   bfs_path demo_weighted "A" "X" = Return None ∧
   (weights_nonneg demo_weighted →
    dijkstra_shortest_path demo_weighted "A" "X" = Return None)) ∧
  weights_nonneg demo_weighted.
Proof.
  split; [|split].
  - apply (failed_queries_give_None demo_weighted "A" "Q"); [by_evaluation|].
    right. left. by_evaluation.
  - apply (failed_queries_give_None demo_weighted "A" "X"); [by_evaluation|].
    right. right.
    destruct (bfs_path_correct demo_weighted "A" "X" demo_weighted_wf)
      as (r & Hr & Hpost); [by_evaluation..|].
    vm_compute in Hr. by simplify_eq.
  - by_evaluation.
Defined.

(** ** C2 *)

(** C2. In a graph whose edges all carry a weight and none a negative one,
    for two stations that a route joins, [dijkstra_shortest_path] returns a
    total distance that is at most the sum of the weights along the route
    of the unweighted breadth-first query, the sum [compare_with_bfs]
    forms.  The same bound holds against every route from start to goal,
    so also against the one [nx.shortest_path] picks. *)
Theorem dijkstra_le_bfs (g : Graph) (start goal : string) :
  nx.wf g → weights_present g → weights_nonneg g →
  start ∈ nx.nodes g → goal ∈ nx.nodes g →
  (∃ q, walk g start goal q) →
  ∃ path total details bfs cost,
    dijkstra_shortest_path g start goal = Return (Some (path, total, details)) ∧
    bfs_path g start goal = Return (Some bfs) ∧
    bfs_weighted_distance g bfs = Return cost ∧
    (total <= cost)%Q ∧
    ∀ q, walk g start goal q →
      ∃ c, bfs_weighted_distance g q = Return c ∧ (total <= c)%Q.
Proof.
  intros Hwf Hpr Hnn Hs Ht Hq.
  destruct (dijkstra_shortest_path_found g start goal Hwf Hnn Hpr Hs Hq)
    as (path & total & details & Hrun & _ & Hall).
  destruct (bfs_path_correct g start goal Hwf Hs Ht) as ([bfs|] & Hbfs & Hpost);
    [|destruct Hq as [q Hq]; by destruct (Hpost q)].
  destruct Hpost as [Hwalk _].
  destruct (Hall bfs Hwalk) as (cost & Hcost & Hle).
  by exists path, total, details, bfs, cost.
Qed.

Lemma dijkstra_le_bfs_witness :
  ∃ path total details bfs cost,
    dijkstra_shortest_path demo_weighted "A" "E"
      = Return (Some (path, total, details)) ∧
    bfs_path demo_weighted "A" "E" = Return (Some bfs) ∧
    bfs_weighted_distance demo_weighted bfs = Return cost ∧
    (total <= cost)%Q ∧
    ∀ q, walk demo_weighted "A" "E" q →
      ∃ c, bfs_weighted_distance demo_weighted q = Return c ∧ (total <= c)%Q.
Proof.
  apply (dijkstra_le_bfs demo_weighted "A" "E"); try by_evaluation.
  exists ["A"; "B"; "C"; "E"]. apply demo_walk_A_E; by_evaluation.
Defined.

(** ** C3 *)

Lemma consecutive_elem l a b :
  (a, b) ∈ consecutive l → a ∈ l ∧ b ∈ l ∧ 2 ≤ length l.
Proof.
  induction l as [|x l IH]; [by intros ?%elem_of_nil|].
  destruct l as [|y l]; [by intros ?%elem_of_nil|].
  change (consecutive (x :: y :: l)) with ((x, y) :: consecutive (y :: l)).
  intros [[= -> ->]|Hin]%elem_of_cons.
  - split; [by left|]. split; [right; by left|simpl; lia].
  - destruct (IH Hin) as (? & ? & ?). split; [by right|].
    split; [by right|simpl; lia].
Qed.

Lemma consecutive_cover l s :
  s ∈ l → 2 ≤ length l → ∃ v, (s, v) ∈ consecutive l ∨ (v, s) ∈ consecutive l.
Proof.
  induction l as [|x l IH]; [by intros ?%elem_of_nil|].
  destruct l as [|y l]; [simpl; lia|].
  change (consecutive (x :: y :: l)) with ((x, y) :: consecutive (y :: l)).
  intros [->|Hin]%elem_of_cons _.
  - exists y. left. by left.
  - destruct l as [|z l].
    + apply list_elem_of_singleton in Hin as ->. exists x. right. by left.
    + destruct (IH Hin) as [v [?|?]]; [simpl; lia|..]; exists v;
        [left|right]; by right.
Qed.

Lemma events_elem data ev :
  ev ∈ events data ↔
  ∃ name d, (name, d) ∈ data ∧ ev.1 = (name, color d) ∧
            ev.2 ∈ consecutive (stations d).
Proof.
  unfold events, line_events. rewrite list_elem_of_bind. split.
  - intros ([name d] & (pr & -> & ?)%list_elem_of_fmap & ?). by exists name, d.
  - intros (name & d & ? & Hev & ?). exists (name, d). split; [|done].
    apply list_elem_of_fmap. exists ev.2. split; [|done].
    destruct ev as [[? ?] ?]. simpl in *. by simplify_eq.
Qed.

(** Which stations [create_graph_from_ubahn] registers: each once, and
    exactly those of the lines that have two stations or more. *)
Lemma registered_stations data G sl lc :
  create_graph_from_ubahn data = (G, sl, lc) →
  NoDup (nx.nodes G) ∧
  ∀ s, s ∈ nx.nodes G ↔
       ∃ name d, (name, d) ∈ data ∧ s ∈ stations d ∧ 2 ≤ length (stations d).
Proof.
  intros [Hinv _]%create_graph_spec.
  split; [by destruct (build_wf _ _ Hinv)|].
  intros s. rewrite (build_nodes _ _ Hinv). simpl. split.
  - intros (ev & v & (name & d & ? & _ & Hpr)%events_elem & Hj).
    exists name, d. split; [done|].
    destruct Hj as [Hj|Hj]; rewrite Hj in Hpr;
      apply consecutive_elem in Hpr; naive_solver.
  - intros (name & d & Hd & Hs & Hlen).
    destruct (consecutive_cover _ _ Hs Hlen) as [v Hv].
    destruct Hv as [Hv|Hv].
    + exists (name, color d, (s, v)), v. split; [|by left].
      apply events_elem. by exists name, d.
    + exists (name, color d, (v, s)), v. split; [|by right].
      apply events_elem. by exists name, d.
Qed.

(** C3.  The code at the failing input: a line with one station only
    leaves the graph without any station, so the station of that line is
    not registered.  (Lemma [registered_stations] says which stations are:
    each once, those of the lines with at least two stations.) *)
Theorem single_station_line_not_registered :
  nx.nodes (create_graph_from_ubahn
              [("U55", LineData ["Hauptbahnhof"] "brown")]).1.1 = [].
Proof. reflexivity. Qed.

(** ** C4 *)

(** The set of line names recorded at a station: [G.nodes[s]['lines']]. *)
Definition station_line_set (G : Graph) (s : string) : option (gset string) :=
  dict_get s (g_node G) ≫= n_lines.

(** The line names on the edges at a station. *)
Definition incident_lines (G : Graph) (s : string) : gset string :=
  list_to_set (omap (λ x, e_line x.2) (default [] (dict_get s (g_adj G)))).

Lemma incident_lines_elem G s l :
  nx.wf G →
  l ∈ incident_lines G s ↔
  ∃ v e, nx.edge_data G s v = Some e ∧ e_line e = Some l.
Proof.
  intros (_ & _ & Hnd & _)%wf_alt. unfold incident_lines.
  rewrite elem_of_list_to_set, list_elem_of_omap. split.
  - intros ([v e] & Hin & Hl).
    destruct (dict_get s (g_adj G)) as [nbrs|] eqn:Hs;
      [|by apply elem_of_nil in Hin].
    exists v, e. split; [|done]. unfold nx.edge_data. rewrite Hs. simpl.
    apply dict_get_elem; [by eapply Hnd|done].
  - intros (v & e & (nbrs & Hs & _ & Hv)%edge_data_elem & Hl).
    exists (v, e). rewrite Hs. done.
Qed.

(** No two lines connect the same two stations directly. *)
Definition no_shared_pair (data : list (string * line_data)) : Prop :=
  Forall (λ e1 : event,
    Forall (λ e2 : event, joins e2 e1.2.1 e1.2.2 → e1.1.1 = e2.1.1)
           (events data))
    (events data).

#[global] Instance no_shared_pair_dec data : Decision (no_shared_pair data).
Proof. unfold no_shared_pair. apply _. Defined.

(** Two lines over the same two stations. *)
Definition twin_lines : list (string * line_data) :=
  [("U1", LineData ["Warschauer Str."; "Schlesisches Tor"] "green");
   ("U3", LineData ["Warschauer Str."; "Schlesisches Tor"] "teal")].

(** Two lines that cross at one station. *)
Definition crossing_lines : list (string * line_data) :=
  [("Red", LineData ["S1"; "S2"; "S3"] "red");
   ("Blue", LineData ["S3"; "S4"; "S5"] "blue")].

(** C4, as the specification states it, fails where the tag of an edge is
    overwritten: the station keeps both line names, the edge only the name
    of the line that came last. *)
Lemma overwritten_tag_lost :
  let G := (create_graph_from_ubahn twin_lines).1.1 in
  "Warschauer Str." ∈ nx.nodes G ∧
  station_line_set G "Warschauer Str." ≠ Some (incident_lines G "Warschauer Str.").
Proof.
  split; [by_evaluation|]. intros Heq.
  assert ("U1" ∈ incident_lines
            (create_graph_from_ubahn twin_lines).1.1 "Warschauer Str.") as Hin.
  { assert (Some (list_to_set ["U1"; "U3"])
            = Some (incident_lines (create_graph_from_ubahn twin_lines).1.1
                      "Warschauer Str.")) as Hboth
      by (rewrite <-Heq; by vm_compute).
    apply (inj Some) in Hboth. rewrite <-Hboth. set_solver. }
  apply incident_lines_elem in Hin as (v & e & He & Hl); [|by_evaluation].
  apply edge_data_elem in He as (nbrs & Hnbrs & _ & Hv).
  clear Heq. vm_compute in Hnbrs. injection Hnbrs as <-.
  apply list_elem_of_singleton in Hv. injection Hv as -> ->. done.
Qed.

(** C4, amended.  In a graph built from line data, the line names on the
    edges at a station all belong to the set of line names recorded at the
    station; the two sets are equal when no two lines connect the same two
    stations directly. *)
Theorem station_lines_cover_tags (data : list (string * line_data))
    (G : Graph) (sl : list (string * list string)) (lc : list (string * string))
    (s : string) :
  create_graph_from_ubahn data = (G, sl, lc) → s ∈ nx.nodes G →
  ∃ L, station_line_set G s = Some L ∧
       incident_lines G s ⊆ L ∧
       (no_shared_pair data → L = incident_lines G s).
Proof.
  intros [Hinv Hattr]%create_graph_spec Hs.
  pose proof (build_wf _ _ Hinv) as Hwf. simpl in Hwf.
  pose proof (build_keys _ _ Hinv) as Hkeys. simpl in Hkeys.
  rewrite <-Hkeys in Hs. apply dict_get_is_Some in Hs as [ls Hls].
  exists (list_to_set ls). split; [|split].
  - unfold station_line_set. by rewrite (Hattr _ _ Hls).
  - intros l (v & e & He & Hl)%incident_lines_elem; [|done].
    apply elem_of_list_to_set.
    destruct (build_edge _ _ Hinv _ _ _ He) as (ev & Hev & Hj & Hline).
    assert (∃ ls', dict_get s sl = Some ls' ∧ l ∈ ls') as (ls' & Hls' & ?).
    { apply (build_lines _ _ Hinv). exists ev, v. split; [done|].
      split; [congruence|done]. }
    by simplify_eq.
  - intros Hno. apply set_eq. intros l. split.
    + intros Hl%elem_of_list_to_set.
      assert (∃ ev v, ev ∈ events data ∧ ev.1.1 = l ∧ joins ev s v)
        as (ev & v & Hev & <- & Hj).
      { apply (build_lines _ _ Hinv s l). eauto. }
      destruct (build_event _ _ Hinv ev s v Hev Hj) as [e He].
      destruct (build_edge _ _ Hinv _ _ _ He) as (ev' & Hev' & Hj' & Hline).
      apply incident_lines_elem; [done|]. exists v, e. split; [done|].
      rewrite Hline. f_equal. symmetry.
      unfold no_shared_pair in Hno. rewrite Forall_forall in Hno.
      specialize (Hno _ Hev). rewrite Forall_forall in Hno.
      apply (Hno _ Hev').
      destruct Hj as [Hj|Hj]; rewrite Hj; simpl; [done|].
      destruct Hj' as [?|?]; [by right|by left].
    + intros (v & e & He & Hl)%incident_lines_elem; [|done].
      apply elem_of_list_to_set.
      destruct (build_edge _ _ Hinv _ _ _ He) as (ev & Hev & Hj & Hline).
      assert (∃ ls', dict_get s sl = Some ls' ∧ l ∈ ls') as (ls' & Hls' & ?).
      { apply (build_lines _ _ Hinv). exists ev, v. split; [done|].
        split; [congruence|done]. }
      by simplify_eq.
Qed.

Lemma station_lines_cover_tags_witness :
  ∃ L, station_line_set (create_graph_from_ubahn crossing_lines).1.1 "S3" = Some L ∧
       incident_lines (create_graph_from_ubahn crossing_lines).1.1 "S3" ⊆ L ∧
       (no_shared_pair crossing_lines →
        L = incident_lines (create_graph_from_ubahn crossing_lines).1.1 "S3").
Proof.
  apply (station_lines_cover_tags crossing_lines _
           (create_graph_from_ubahn crossing_lines).1.2
           (create_graph_from_ubahn crossing_lines).2).
  - by destruct (create_graph_from_ubahn crossing_lines) as [[? ?] ?].
  - by_evaluation.
Defined.

(** ** C9 *)

(** The order the specification asks of the listing: more lines first, and
    among stations with equally many lines the names ascending. *)
Definition by_count_then_name (x y : string * nat * list string) : Prop :=
  y.1.2 < x.1.2 ∨ (x.1.2 = y.1.2 ∧ String.leb x.1.1 y.1.1 = true).


(** The lines that name a station, of the lines with two stations or more:
    a line with one station has no segment and leaves no trace in the
    graph. *)
Definition names_station (s : string) (item : string * line_data)
    : option string :=
  if decide (s ∈ stations item.2 ∧ 2 ≤ length (stations item.2))
  then Some item.1 else None.

Definition lines_through (data : list (string * line_data)) (s : string)
    : gset string :=
  list_to_set (omap (names_station s) data).

Lemma lines_through_elem data s l :
  l ∈ lines_through data s ↔
  ∃ d, (l, d) ∈ data ∧ s ∈ stations d ∧ 2 ≤ length (stations d).
Proof.
  unfold lines_through. rewrite elem_of_list_to_set, list_elem_of_omap.
  unfold names_station. split.
  - intros ([name d] & Hin & Hname). simpl in Hname.
    case_decide as Hd; [|done]. injection Hname as ->. by exists d.
  - intros (d & Hin & Hs & Hlen). exists (l, d). split; [done|]. simpl.
    by rewrite decide_True.
Qed.

(** What [station_lines] records for a station, as a set. *)
Lemma station_lines_through data G sl lc s ls :
  create_graph_from_ubahn data = (G, sl, lc) →
  dict_get s sl = Some ls → list_to_set ls = lines_through data s.
Proof.
  intros [Hinv _]%create_graph_spec Hls. apply set_eq. intros l.
  rewrite elem_of_list_to_set, lines_through_elem. split.
  - intros Hl.
    assert (∃ ev v, ev ∈ events data ∧ ev.1.1 = l ∧ joins ev s v)
      as (ev & v & Hev & <- & Hj).
    { apply (build_lines _ _ Hinv s l). eauto. }
    apply events_elem in Hev as (name & d & Hd & Hname & Hpair).
    exists d. rewrite Hname. simpl. split; [done|].
    destruct Hj as [Hj|Hj]; rewrite Hj in Hpair;
      apply consecutive_elem in Hpair; tauto.
  - intros (d & Hd & Hin & Hlen).
    assert (∃ ls', dict_get s sl = Some ls' ∧ l ∈ ls') as (ls' & Hls' & Hl).
    { apply (build_lines _ _ Hinv s l).
      destruct (consecutive_cover _ _ Hin Hlen) as [v [Hv|Hv]].
      - exists (l, color d, (s, v)), v. split; [|split; [done|by left]].
        apply events_elem. by exists l, d.
      - exists (l, color d, (v, s)), v. split; [|split; [done|by right]].
        apply events_elem. by exists l, d. }
    simpl in Hls'. by simplify_eq.
Qed.

(** Five lines: three stations that two or three of them name, a tie in
    the number of lines between "Zoo" and "Bahnhof", and a line of one
    station. *)
Definition tied_lines : list (string * line_data) :=
  [("U1", LineData ["Zoo"; "Bahnhof"; "Center"] "green");
   ("U2", LineData ["Bahnhof"; "Center"; "Dom"] "red");
   ("U3", LineData ["Center"; "Ende"] "blue");
   ("U4", LineData ["Zoo"; "Feld"] "teal");
   ("U5", LineData ["Zoo"] "grey")].

(** The listing for these lines: "Center" with three lines first, then
    "Zoo" before "Bahnhof", as the input first names them; the line of one
    station does not count for "Zoo". *)
Lemma tied_lines_listing :
  ∃ degrees,
    analyze_graph (create_graph_from_ubahn tied_lines).1.1
                  (create_graph_from_ubahn tied_lines).1.2
    = Return (degrees, [("Center", 3, ["U1"; "U2"; "U3"]);
                        ("Zoo", 2, ["U1"; "U4"]);
                        ("Bahnhof", 2, ["U1"; "U2"])]).
Proof. eexists. by vm_compute. Qed.



(** ** C5 *)

(** C5. [add_random_weights] seeds the shared generator before it draws,
    so its result (the weighted graph, and the state it leaves the generator
    in) is the same whatever state the generator was in before: two
    invocations with the same graph, range and seed, one after the other or
    otherwise, give the same weights on every edge. *)
Theorem add_random_weights_deterministic (R : generator) (graph : Graph)
    (min_weight max_weight : Q) (seed : Z) (shared1 shared2 : gen_state R) :
  add_random_weights R graph min_weight max_weight seed shared1 =
  add_random_weights R graph min_weight max_weight seed shared2.
Proof. reflexivity. Qed.

(** ** C6 *)

(** The weighted example network with one more edge, which has no weight. *)
Definition demo_unweighted_edge : Graph :=
  nx.add_edge "E" "F" (plain "U2") demo_weighted.

(** The weighted example network with one more edge, of weight -1. *)
Definition demo_negative_edge : Graph :=
  nx.add_edge "E" "F" (EdgeAttr (Some "U2") (Some "grey") (Some (-1)%Q))
              demo_weighted.

Lemma dijkstra_shortest_path_Return g s t path total details :
  dijkstra_shortest_path g s t = Return (Some (path, total, details)) →
  nx.dijkstra_path g s t = Return path ∧
  nx.dijkstra_path_length g s t = Return total ∧
  edge_details g path = Return details.
Proof.
  unfold dijkstra_shortest_path.
  destruct (nx.dijkstra_path g s t) as [p|e|]; cbn [obind];
    [|by destruct e|done].
  destruct (nx.dijkstra_path_length g s t) as [d|e|]; cbn [obind];
    [|by destruct e|done].
  destruct (edge_details g p) as [det|e|] eqn:Hdet; cbn [obind];
    [|by destruct e|done].
  intros Hr. by simplify_eq.
Qed.



(** ** C8 *)

(** C8, as the specification states it, fails where rounding leaves the
    range: between 0.001 and 0.004 the draw 0.00175 is rounded to 0, which
    is neither in the range nor positive. *)
Lemma rounded_weight_leaves_range :
  (0 < 1 # 1000)%Q ∧ (1 # 1000 < 4 # 1000)%Q ∧
  ∃ wg st e w,
    add_random_weights demo_generator demo_graph (1 # 1000) (4 # 1000) 42 0
      = Return (wg, st) ∧
    nx.edge_data wg "A" "B" = Some e ∧ e_weight e = Some w ∧
    ¬ (1 # 1000 <= w)%Q ∧ ¬ (0 < w)%Q.
Proof.
  split; [reflexivity|]. split; [reflexivity|].
  eexists _, _, _, _. split; [by vm_compute|].
  split; [by vm_compute|]. split; [reflexivity|].
  split; by intros H; vm_compute in H.
Qed.

(** C8, amended.  For a graph and a range with 0 < min_weight < max_weight,
    every edge of the graph that [add_random_weights] returns has a weight
    that equals its value rounded to two decimals, lies between the rounded
    bounds, and is not negative.  When the two bounds have at most two
    decimals themselves, the weight lies between the bounds and is
    strictly positive. *)
Theorem weights_rounded_in_range (R : generator) (graph : Graph)
    (min_weight max_weight : Q) (seed : Z) (shared : gen_state R) :
  nx.wf graph → (0 < min_weight)%Q → (min_weight < max_weight)%Q →
  ∃ wg st,
    add_random_weights R graph min_weight max_weight seed shared
      = Return (wg, st) ∧
    ∀ u v e, nx.edge_data wg u v = Some e →
      ∃ w, e_weight e = Some w ∧ round2 w = w ∧
           (round2 min_weight <= w <= round2 max_weight)%Q ∧ (0 <= w)%Q ∧
           ((round2 min_weight == min_weight)%Q →
            (round2 max_weight == max_weight)%Q →
            (min_weight <= w <= max_weight)%Q ∧ (0 < w)%Q).
Proof.
  intros Hwf Hpos Hlt.
  destruct (add_random_weights_drawn R graph min_weight max_weight seed shared)
    as (wg & st & Hrun & _ & Hdrawn); [done|lra|].
  exists wg, st. split; [done|]. intros u v e He.
  destruct (Hdrawn u v e He) as (x & [Hlo Hhi] & Hw).
  exists (round2 x). split; [done|]. split; [apply round2_idempotent|].
  pose proof (round2_mono _ _ Hlo). pose proof (round2_mono _ _ Hhi).
  split; [done|]. split; [apply round2_nonneg; lra|].
  intros Hmin Hmax. lra.
Qed.

Lemma weights_rounded_in_range_witness :
  ∃ wg st,
    add_random_weights demo_generator demo_graph 2 3 42 0 = Return (wg, st) ∧
    ∀ u v e, nx.edge_data wg u v = Some e →
      ∃ w, e_weight e = Some w ∧ round2 w = w ∧
           (round2 2 <= w <= round2 3)%Q ∧ (0 <= w)%Q ∧
           ((round2 2 == 2)%Q → (round2 3 == 3)%Q →
            (2 <= w <= 3)%Q ∧ (0 < w)%Q).
Proof.
  apply (weights_rounded_in_range demo_generator demo_graph 2 3 42 0).
  - by_evaluation.
  - reflexivity.
  - reflexivity.
Defined.

(** ** The result of the weighted query *)

(** The sum of the weights in a list of edge details. *)
Definition details_total (details : list (string * string * Q)) : Q :=
  fold_left (λ acc x, (acc + x.2)%Q) details 0%Q.

Lemma wwalk_details g s x p d :
  weights_present g → wwalk g s x p d →
  ∃ details, edge_details g p = Return details ∧
             details_total details = d ∧
             length details = length p - 1.
Proof.
  intros Hpr. induction 1 as [|u v p d e Hp IH He].
  - by exists [].
  - destruct IH as (details & Hdet & Htotal & Hlen).
    pose proof (walk_last _ _ _ _ (wwalk_walk _ _ _ _ _ Hp)) as Hlast.
    pose proof (walk_nonempty _ _ _ _ (wwalk_walk _ _ _ _ _ Hp)) as Hne.
    rewrite (edge_details_snoc _ _ u v Hlast), Hdet. cbn [obind].
    rewrite (edge_weight_present _ _ _ _ Hpr He). cbn [obind].
    eexists. split; [done|]. split.
    + unfold details_total in *. rewrite fold_left_app. simpl. by rewrite Htotal.
    + rewrite !length_app. simpl. lia.
Qed.

Lemma dijkstra_path_Return_node g s t p :
  nx.dijkstra_path g s t = Return p → s ∈ nx.nodes g.
Proof.
  unfold nx.dijkstra_path. destruct (nx.has_node g s) eqn:Hs; [|done].
  intros _. by apply has_node_true.
Qed.

(** A successful query: the route, its total, its details, and that no
    route is lighter. *)
Lemma dijkstra_shortest_path_optimal g s t :
  nx.wf g → weights_nonneg g → weights_present g → s ∈ nx.nodes g →
  (∃ q, walk g s t q) →
  ∃ path total details d,
    dijkstra_shortest_path g s t = Return (Some (path, total, details)) ∧
    wwalk g s t path d ∧ (d == total)%Q ∧
    edge_details g path = Return details ∧
    details_total details = d ∧
    length details = length path - 1 ∧
    ∀ q c, wwalk g s t q c → (total <= c)%Q.
Proof.
  intros Hwf Hnn Hpr Hs [q0 Hq0].
  destruct (decide (s = t)) as [<-|Hst].
  { rewrite dijkstra_shortest_path_same by done.
    exists [s], 0%Q, [], 0%Q. split; [done|]. split; [constructor|].
    split; [lra|]. split; [done|]. split; [done|]. split; [done|].
    intros q c Hq. by eapply wwalk_nonneg. }
  unfold dijkstra_shortest_path.
  destruct (dijkstra_path_correct g s t Hwf Hnn Hs Hst)
    as [(p & d & -> & Hp & Hoptp)|[_ Hno]];
    [|apply walk_wwalk in Hq0 as [c Hc]; by destruct (Hno q0 c)].
  destruct (dijkstra_path_length_correct g s t Hwf Hnn Hs Hst)
    as [(total & -> & [p' Hp'] & Hopt)|[_ Hno]]; [|by destruct (Hno p d)].
  destruct (wwalk_details _ _ _ _ _ Hpr Hp) as (details & Hdet & Htot & Hlen).
  cbn [obind]. rewrite Hdet. cbn [obind].
  exists p, total, details, d. split; [done|]. split; [done|].
  split; [|done].
  apply Qle_antisym; [by eapply Hoptp|by eapply Hopt].
Qed.

(** What a returned route tells about the query. *)
Lemma dijkstra_shortest_path_Some g s t path total details :
  nx.wf g → weights_nonneg g →
  dijkstra_shortest_path g s t = Return (Some (path, total, details)) →
  s ∈ nx.nodes g ∧ walk g s t path.
Proof.
  intros Hwf Hnn (Hpath & _ & _)%dijkstra_shortest_path_Return.
  pose proof (dijkstra_path_Return_node _ _ _ _ Hpath) as Hs.
  split; [done|].
  destruct (decide (s = t)) as [<-|Hst].
  - unfold nx.dijkstra_path in Hpath.
    rewrite (proj2 (has_node_true g s) Hs) in Hpath. simpl in Hpath.
    rewrite decide_True in Hpath by done. injection Hpath as <-. constructor.
  - destruct (dijkstra_path_correct g s t Hwf Hnn Hs Hst)
      as [(p & d & Hp & Hw & _)|[Hp _]]; rewrite Hp in Hpath; [|done].
    injection Hpath as <-. by eapply wwalk_walk.
Qed.

(** ** Copying a graph *)

Lemma attr_update_same dd : nx.attr_update dd dd = dd.
Proof. by destruct dd as [[?|] [?|] [?|]]. Qed.

Lemma attr_update_empty dd : nx.attr_update nx.no_edge_attr dd = dd.
Proof. by destruct dd as [[?|] [?|] [?|]]. Qed.

Lemma add_edge_g_node g u v a :
  u ∈ nx.nodes g → v ∈ nx.nodes g → g_node (nx.add_edge u v a g) = g_node g.
Proof.
  intros Hu%has_node_true Hv%has_node_true. unfold nx.add_edge. simpl.
  unfold nx.touch_node. rewrite Hu. by rewrite Hv.
Qed.

Lemma copy_fold g items : ∀ h,
  nx.wf h → g_node h = g_node g →
  (∀ u v dd, (u, v, dd) ∈ items →
     nx.edge_data g u v = Some dd ∧ nx.edge_data g v u = Some dd ∧
     u ∈ nx.nodes g ∧ v ∈ nx.nodes g) →
  (∀ x y e, nx.edge_data h x y = Some e → nx.edge_data g x y = Some e) →
  g_node (fold_left (λ h '(u, v, dd), nx.add_edge u v dd h) items h) = g_node g ∧
  (∀ x y e,
     nx.edge_data (fold_left (λ h '(u, v, dd), nx.add_edge u v dd h) items h) x y
       = Some e →
     nx.edge_data g x y = Some e) ∧
  (∀ u v dd, (u, v, dd) ∈ items →
     nx.edge_data (fold_left (λ h '(u, v, dd), nx.add_edge u v dd h) items h) u v
       = Some dd) ∧
  (∀ x y e, nx.edge_data h x y = Some e →
     nx.edge_data (fold_left (λ h '(u, v, dd), nx.add_edge u v dd h) items h) x y
       = Some e).
Proof.
  induction items as [|[[u v] dd] items IH]; intros h Hwf Hnode Hitems Hcons.
  { simpl. split; [done|]. split; [done|]. split; [|done].
    by intros ??? ?%elem_of_nil. }
  cbn [fold_left].
  destruct (Hitems u v dd) as (Huv & Hvu & Hu & Hv); [by left|].
  assert (∀ x y, nx.edge_data (nx.add_edge u v dd h) x y =
                 if decide ((x = u ∧ y = v) ∨ (x = v ∧ y = u)) then Some dd
                 else nx.edge_data h x y) as Hdata1.
  { intros x y. rewrite add_edge_edge_data by done. case_decide; [|done].
    f_equal. destruct (nx.edge_data h u v) as [e|] eqn:He; simpl.
    - apply Hcons in He. rewrite Huv in He. injection He as <-.
      apply attr_update_same.
    - apply attr_update_empty. }
  assert (∀ x y e, nx.edge_data (nx.add_edge u v dd h) x y = Some e →
                   nx.edge_data g x y = Some e) as Hcons1.
  { intros x y e. rewrite Hdata1. case_decide as Hj; [|apply Hcons].
    intros [= <-]. by destruct Hj as [[-> ->]|[-> ->]]. }
  destruct (IH (nx.add_edge u v dd h)) as (Hn' & Hc' & Hit' & Hmono').
  { by apply wf_add_edge. }
  { rewrite add_edge_g_node; [done|unfold nx.nodes; by rewrite Hnode..]. }
  { intros u' v' dd' Hin. apply Hitems. by right. }
  { done. }
  split; [done|]. split; [done|]. split.
  - intros u' v' dd' [[= -> -> ->]|Hin]%elem_of_cons; [|by apply Hit'].
    apply Hmono'. rewrite Hdata1. by rewrite decide_True by auto.
  - intros x y e He. apply Hmono'. rewrite Hdata1.
    case_decide as Hj; [|done]. apply Hcons in He.
    destruct Hj as [[-> ->]|[-> ->]]; congruence.
Qed.

Lemma dict_get_blank {V W} (c : W) x (d : list (string * V)) :
  dict_get x ((λ '(n, _), (n, c)) <$> d) = (λ _, c) <$> dict_get x d.
Proof.
  induction d as [|[k v] d IH]; [done|]. csimpl. by case_decide.
Qed.

(** [copy] keeps the nodes with their attributes and the edges with
    theirs. *)
Lemma copy_spec g :
  nx.wf g →
  nx.wf (nx.copy g) ∧ g_node (nx.copy g) = g_node g ∧
  ∀ x y, nx.edge_data (nx.copy g) x y = nx.edge_data g x y.
Proof.
  intros Hwf. split; [apply wf_copy; by destruct Hwf|].
  assert (∀ u v dd, (u, v, dd) ∈ nx.adjacency_items g →
            nx.edge_data g u v = Some dd ∧ nx.edge_data g v u = Some dd ∧
            u ∈ nx.nodes g ∧ v ∈ nx.nodes g) as Hitems.
  { intros u v dd (nbrs & Hu & Hv)%adjacency_items_elem.
    assert (nx.edge_data g u v = Some dd) as Huv.
    { apply (wf_item_edge g u nbrs); [done| |done].
      apply dict_get_elem; [|done]. destruct Hwf as (Hnd & -> & _). done. }
    split; [done|]. split; [by apply wf_edge_sym|].
    split; [eapply adjacent_node_l|eapply adjacent_node_r]; try done;
      by exists dd. }
  destruct (copy_fold g (nx.adjacency_items g)
              (MkGraph (g_node g) ((λ '(n, _), (n, [])) <$> g_node g)))
    as (Hnode & Hcons & Hall & _).
  { split; [by destruct Hwf|]. split.
    - unfold nx.nodes, dict_keys. simpl. rewrite <-list_fmap_compose.
      apply list_fmap_ext. by intros ? [].
    - simpl. apply Forall_fmap, Forall_forall. intros [n a] _. simpl.
      split; constructor. }
  { done. }
  { done. }
  { intros x y e. unfold nx.edge_data. simpl. rewrite dict_get_blank.
    by destruct (dict_get x (g_node g)). }
  split; [done|]. intros x y. unfold nx.copy.
  destruct (nx.edge_data g x y) as [e|] eqn:He.
  - apply Hall. apply adjacency_items_elem.
    apply edge_data_elem in He as (nbrs & _ & ? & ?). eauto.
  - destruct (nx.edge_data (fold_left _ _ _) x y) as [e|] eqn:He'; [|done].
    apply Hcons in He'. congruence.
Qed.

(** ** Setting an edge attribute *)

(** The keys of the adjacency, row by row. *)
Definition adj_shape (adj : list (string * list (string * edge_attr)))
    : list (string * list string) :=
  (λ x, (x.1, dict_keys x.2)) <$> adj.

Lemma edges_from_shape adj : ∀ adj' seen,
  adj_shape adj = adj_shape adj' →
  nx.edges_from seen adj = nx.edges_from seen adj'.
Proof.
  induction adj as [|[n nb] adj IH]; intros [|[n' nb'] adj'] seen Hshape;
    try done.
  injection Hshape as -> Hnb Hrest. simpl. rewrite Hnb. f_equal. by apply IH.
Qed.

Lemma adj_shape_alter (F : list (string * edge_attr) → list (string * edge_attr))
    k adj :
  (∀ nb, dict_keys (F nb) = dict_keys nb) →
  adj_shape (dict_alter F k adj) = adj_shape adj.
Proof.
  intros HF. induction adj as [|[n nb] adj IH]; [done|]. cbn [dict_alter].
  unfold adj_shape in *. case_decide; csimpl; [by rewrite HF|by rewrite IH].
Qed.

Lemma adj_shape_keys adj : dict_keys adj = (adj_shape adj).*1.
Proof. unfold dict_keys, adj_shape. by rewrite <-list_fmap_compose. Qed.

Lemma adj_shape_row adj adj' u nb :
  adj_shape adj' = adj_shape adj → NoDup (dict_keys adj) →
  dict_get u adj' = Some nb →
  ∃ nb0, dict_get u adj = Some nb0 ∧ dict_keys nb0 = dict_keys nb.
Proof.
  intros Hshape Hnd Hrow. apply dict_get_Some_elem in Hrow.
  assert ((u, dict_keys nb) ∈ adj_shape adj) as Hin.
  { rewrite <-Hshape. apply list_elem_of_fmap. by exists (u, nb). }
  apply list_elem_of_fmap in Hin as ([u' nb0] & [= -> Hkeys] & Hin).
  exists nb0. split; [by apply dict_get_elem|done].
Qed.

Lemma set_edge_attr_spec u v f g :
  nx.wf g → is_Some (nx.edge_data g u v) →
  ∃ g', nx.set_edge_attr u v f g = Return g' ∧
        nx.wf g' ∧ g_node g' = g_node g ∧ nx.edges g' = nx.edges g ∧
        ∀ x y, nx.edge_data g' x y =
               if decide ((x = u ∧ y = v) ∨ (x = v ∧ y = u))
               then f <$> nx.edge_data g x y
               else nx.edge_data g x y.
Proof.
  intros Hwf Huv.
  destruct (set_edge_attr_Return u v f g Huv) as (g' & Hrun & Hnodes & Hdata).
  exists g'. split; [done|].
  assert (g_node g' = g_node g ∧ adj_shape (g_adj g') = adj_shape (g_adj g))
    as [Hnode Hshape].
  { unfold nx.set_edge_attr in Hrun. destruct (nx.edge_data g u v); [|done].
    injection Hrun as <-. simpl. split; [done|].
    assert (∀ a b adj,
      adj_shape (dict_alter (dict_alter f b) a adj) = adj_shape adj) as Hone.
    { intros a b adj. apply adj_shape_alter. intros nb. apply dict_keys_alter. }
    case_decide; by rewrite ?Hone. }
  apply wf_alt in Hwf as (Hnd & Hkeys & Hrows & Hsym).
  split; [|split; [done|split; [|done]]].
  - apply wf_alt. split; [by rewrite Hnodes|]. split; [|split].
    + by rewrite Hnodes, <-Hkeys, !adj_shape_keys, Hshape.
    + intros x nb Hrow.
      destruct (adj_shape_row (g_adj g) (g_adj g') x nb) as (nb0 & Hnb0 & <-);
        [done|by rewrite Hkeys|done|]. by eapply Hrows.
    + intros x y e. rewrite !Hdata.
      assert ((y = u ∧ x = v) ∨ (y = v ∧ x = u) ↔
              (x = u ∧ y = v) ∨ (x = v ∧ y = u)) as Hswap by tauto.
      rewrite (decide_ext _ _ _ _ Hswap). case_decide.
      * intros (e0 & He0 & ->)%fmap_Some. by rewrite (Hsym _ _ _ He0).
      * apply Hsym.
  - unfold nx.edges. by apply edges_from_shape.
Qed.

(** ** The loop of [add_random_weights] *)

(** Two attribute dictionaries of an edge that differ in the weight at
    most, or two missing edges. *)
Definition reweighted (old new : option edge_attr) : Prop :=
  match old, new with
  | Some a, Some b => e_line b = e_line a ∧ e_color b = e_color a
  | None, None => True
  | _, _ => False
  end.

Lemma reweighted_refl e : reweighted e e.
Proof. by destruct e. Qed.

Lemma reweighted_trans a b c : reweighted a b → reweighted b c → reweighted a c.
Proof.
  destruct a, b, c; simpl; try done. intros [-> ->] [-> ->]. done.
Qed.

Section assign_run.
Variables (R : generator) (min_weight max_weight : Q).
Variable P : Q → Prop.
Hypothesis Hdraw : ∀ st, P (round2 (random_uniform R min_weight max_weight st).1).

(** [random.random()] moves the generator on by one state. *)
Definition next_state (st : gen_state R) : gen_state R := (gen_random R st).2.

Lemma assign_weights_run es : ∀ g st (seen : list (string * string)),
  nx.wf g →
  (∀ u v, (u, v) ∈ es → is_Some (nx.edge_data g u v)) →
  (∀ u v e, (u, v) ∈ seen → nx.edge_data g u v = Some e →
            ∃ w, e_weight e = Some w ∧ P w) →
  ∃ g',
    fold_left (assign_weight R min_weight max_weight) es (Return (g, st))
      = Return (g', Nat.iter (length es) next_state st) ∧
    nx.wf g' ∧ g_node g' = g_node g ∧ nx.edges g' = nx.edges g ∧
    (∀ x y, reweighted (nx.edge_data g x y) (nx.edge_data g' x y)) ∧
    (∀ u v e, (u, v) ∈ seen ++ es → nx.edge_data g' u v = Some e →
              ∃ w, e_weight e = Some w ∧ P w).
Proof.
  induction es as [|[a b] es IH]; intros g st seen Hwf Hes Hseen.
  { exists g. rewrite app_nil_r. split; [done|]. split; [done|].
    split; [done|]. split; [done|]. split; [|done].
    intros x y. apply reweighted_refl. }
  cbn [fold_left]. unfold assign_weight at 2. cbn [obind fst snd].
  destruct (set_edge_attr_spec a b
              (set_weight (round2 (random_uniform R min_weight max_weight st).1))
              g Hwf)
    as (g1 & -> & Hwf1 & Hnode1 & Hedges1 & Hdata1); [apply Hes; by left|].
  cbn [obind].
  destruct (IH g1 (random_uniform R min_weight max_weight st).2
              (seen ++ [(a, b)]) Hwf1)
    as (g' & Hrun & Hwf' & Hnode' & Hedges' & Hre' & Hall').
  { intros u v Hin. rewrite Hdata1.
    case_decide; [apply fmap_is_Some|]; apply Hes; by right. }
  { intros u v e Hin. rewrite Hdata1. case_decide as Hj.
    - intros (e0 & _ & ->)%fmap_Some. eexists. split; [done|]. apply Hdraw.
    - apply elem_of_app in Hin as [Hin|Hin%list_elem_of_singleton];
        [by apply Hseen|].
      injection Hin as -> ->. destruct Hj. auto. }
  exists g'. split.
  { rewrite Hrun. do 2 f_equal.
    change (length ((a, b) :: es)) with (S (length es)).
    by rewrite Nat.iter_succ_r. }
  split; [done|]. split; [congruence|]. split; [congruence|]. split.
  - intros x y. eapply reweighted_trans; [|apply Hre'].
    rewrite Hdata1. case_decide; [|apply reweighted_refl].
    by destruct (nx.edge_data g x y).
  - intros u v e Hin. apply Hall'. by rewrite <-app_assoc.
Qed.

(** [add_random_weights] on an undirected graph: it ends, it leaves the
    generator one draw per edge past the seed, and the graph it returns
    has the nodes, node attributes and edges of the argument, with lines
    and colours as before and a weight on every edge. *)
Lemma add_random_weights_run g seed shared :
  nx.wf g →
  ∃ wg,
    add_random_weights R g min_weight max_weight seed shared
      = Return (wg, Nat.iter (length (nx.edges wg)) next_state (gen_seed R seed)) ∧
    nx.wf wg ∧ g_node wg = g_node g ∧
    (∀ x y, reweighted (nx.edge_data g x y) (nx.edge_data wg x y)) ∧
    (∀ u v e, nx.edge_data wg u v = Some e → ∃ w, e_weight e = Some w ∧ P w).
Proof.
  intros Hwf. unfold add_random_weights, random_seed.
  destruct (copy_spec g Hwf) as (Hwfc & Hnodec & Hdatac).
  destruct (assign_weights_run (nx.edges (nx.copy g)) (nx.copy g)
              (gen_seed R seed) [] Hwfc)
    as (wg & Hrun & Hwfw & Hnode & Hedges & Hre & Hall).
  { intros u v Hin. by apply edges_adjacent. }
  { by intros u v e ?%elem_of_nil. }
  exists wg. split; [by rewrite Hedges|]. split; [done|].
  split; [congruence|]. split.
  - intros x y. rewrite <-Hdatac. apply Hre.
  - intros u v e He.
    assert (adjacent wg u v) as Hadj by (by exists e).
    destruct (edges_cover _ _ _ Hwfw Hadj) as [Hin|Hin];
      rewrite Hedges in Hin.
    + by apply (Hall u v e).
    + apply (Hall v u e); [done|]. by apply wf_edge_sym.
Qed.
End assign_run.

(** ** [edges()] lists every edge once *)

Lemma edges_from_fresh adj : ∀ seen u v,
  (u, v) ∈ nx.edges_from seen adj → u ∈ dict_keys adj ∧ v ∉ seen.
Proof.
  induction adj as [|[n nb] adj IH]; intros seen u v; simpl.
  { by intros ?%elem_of_nil. }
  intros [Hin|Hin]%elem_of_app.
  - apply list_elem_of_fmap in Hin as (nbr & [= -> ->] & [? _]%list_elem_of_filter).
    split; [by left|done].
  - apply IH in Hin as [? ?]. split; [by right|set_solver].
Qed.

Lemma edges_from_once adj : ∀ seen,
  NoDup (dict_keys adj) → Forall (λ x, NoDup (dict_keys x.2)) adj →
  NoDup (nx.edges_from seen adj) ∧
  ∀ u v, u ≠ v → (u, v) ∈ nx.edges_from seen adj →
         (v, u) ∉ nx.edges_from seen adj.
Proof.
  induction adj as [|[n nb] adj IH]; intros seen Hnd Hrows; simpl.
  { split; [constructor|]. by intros u v _ ?%elem_of_nil. }
  unfold dict_keys in Hnd. simpl in Hnd. apply NoDup_cons in Hnd as [Hn Hnd].
  apply Forall_cons in Hrows as [Hrow Hrows]. simpl in Hrow.
  destruct (IH ({[n]} ∪ seen) Hnd Hrows) as [IHnd IHonce]. split.
  - apply NoDup_app. split; [|split; [|done]].
    + apply NoDup_fmap_2; [by intros ?? [= ->]|]. by apply NoDup_filter.
    + intros [u v] (nbr & [= -> ->] & _)%list_elem_of_fmap [Hu _]%edges_from_fresh.
      done.
  - intros u v Huv Hin Hin'.
    apply elem_of_app in Hin as [Hin|Hin];
      apply elem_of_app in Hin' as [Hin'|Hin'].
    + apply list_elem_of_fmap in Hin as (? & [= -> ->] & _).
      apply list_elem_of_fmap in Hin' as (? & [= -> ->] & _). done.
    + apply list_elem_of_fmap in Hin as (? & [= -> ->] & _).
      apply edges_from_fresh in Hin' as [_ Hn']. set_solver.
    + apply list_elem_of_fmap in Hin' as (? & [= -> ->] & _).
      apply edges_from_fresh in Hin as [_ Hn']. set_solver.
    + by apply (IHonce u v).
Qed.

Lemma edges_once g :
  nx.wf g →
  NoDup (nx.edges g) ∧
  ∀ u v, u ≠ v → (u, v) ∈ nx.edges g → (v, u) ∉ nx.edges g.
Proof.
  intros (Hnd & Hkeys & Hrows). apply edges_from_once; [by rewrite Hkeys|].
  eapply Forall_impl; [done|]. by intros x [? _].
Qed.

(** ** From facts about edges to facts about the adjacency *)

Lemma wf_row_edge g x nbrs y e :
  nx.wf g → (x, nbrs) ∈ g_adj g → (y, e) ∈ nbrs → nx.edge_data g x y = Some e.
Proof.
  intros Hwf Hx Hy. apply (wf_item_edge g x nbrs); [done| |done].
  apply dict_get_elem; [|done]. destruct Hwf as (Hnd & -> & _). done.
Qed.

Lemma weights_nonneg_intro g :
  nx.wf g →
  (∀ u v e, nx.edge_data g u v = Some e → (0 <= nx.weight_of e)%Q) →
  weights_nonneg g.
Proof.
  intros Hwf Hall. apply Forall_forall. intros [x nbrs] Hx.
  apply Forall_forall. intros [y e] Hy. simpl in *.
  apply (Hall x y). by eapply wf_row_edge.
Qed.

Lemma weights_present_intro g :
  nx.wf g →
  (∀ u v e, nx.edge_data g u v = Some e → is_Some (e_weight e)) →
  weights_present g.
Proof.
  intros Hwf Hall. apply Forall_forall. intros [x nbrs] Hx.
  apply Forall_forall. intros [y e] Hy. simpl in *.
  apply (Hall x y). by eapply wf_row_edge.
Qed.

Lemma edge_data_sym g u v :
  nx.wf g → nx.edge_data g u v = nx.edge_data g v u.
Proof.
  intros Hwf.
  destruct (nx.edge_data g u v) as [e|] eqn:Huv.
  - symmetry. by apply wf_edge_sym.
  - destruct (nx.edge_data g v u) as [e|] eqn:Hvu; [|done].
    apply (wf_edge_sym _ _ _ _ Hwf) in Hvu. congruence.
Qed.

Lemma walk_transfer g g' s t p :
  (∀ u v, adjacent g u v → adjacent g' u v) → walk g s t p → walk g' s t p.
Proof.
  intros Hadj. induction 1; [constructor|]. econstructor; [done|by apply Hadj].
Qed.

Lemma reweighted_adjacent g g' :
  (∀ x y, reweighted (nx.edge_data g x y) (nx.edge_data g' x y)) →
  ∀ u v, adjacent g u v ↔ adjacent g' u v.
Proof.
  intros Hre u v. specialize (Hre u v). unfold adjacent.
  destruct (nx.edge_data g u v), (nx.edge_data g' u v); simpl in Hre;
    try done; split; intros [? ?]; by eauto.
Qed.

(** ** The sample of weights that [demonstrate_dijkstra] prints *)

Lemma sample_weights_Return l :
  Forall (λ edge, is_Some (e_weight edge.2)) l →
  ∃ ws, sample_weights l = Return ws.
Proof.
  induction 1 as [|edge l [w Hw] _ [ws IH]]; [by exists []|].
  simpl. unfold sample_weight. rewrite Hw. cbn [obind]. rewrite IH.
  by eexists.
Qed.

Lemma sample_weights_present g n :
  nx.wf g → weights_present g →
  ∃ ws, sample_weights (take n (edges_with_data g)) = Return ws.
Proof.
  intros Hwf Hpr. apply sample_weights_Return, Forall_take.
  unfold edges_with_data. apply Forall_fmap, Forall_forall.
  intros [u v] Hin. simpl.
  destruct (edges_adjacent _ _ _ Hwf Hin) as [e He]. rewrite He. simpl.
  by eapply weights_present_edge.
Qed.

(** ** The analysis of [compare_with_bfs] *)

Lemma analyse_Return bfs_distance dijkstra_distance :
  (0 <= dijkstra_distance)%Q → (dijkstra_distance <= bfs_distance)%Q →
  ∃ a, analyse bfs_distance dijkstra_distance = Return a ∧
       match a with
       | SameDistance => (bfs_distance - dijkstra_distance < 1 # 100)%Q
       | DijkstraShorter savings savings_percent =>
           (savings == bfs_distance - dijkstra_distance)%Q ∧
           (1 # 100 <= savings)%Q ∧
           (0 < savings_percent)%Q ∧ (savings_percent <= 100)%Q
       end.
Proof.
  intros Hpos Hle. unfold analyse.
  assert (Qabs.Qabs (bfs_distance - dijkstra_distance)
          == bfs_distance - dijkstra_distance)%Q as Habs.
  { apply Qabs.Qabs_pos. lra. }
  destruct (Qlt_le_dec _ _) as [Hlt|Hge].
  { eexists. split; [done|]. simpl. lra. }
  rewrite Habs in Hge.
  assert (0 < bfs_distance)%Q as Hbfs by lra.
  destruct (Qeq_bool bfs_distance 0) eqn:Hzero.
  { apply Qeq_bool_iff in Hzero. lra. }
  eexists. split; [done|]. simpl. split; [lra|]. split; [done|].
  assert (0 < / bfs_distance)%Q as Hinv by (by apply Qinv_lt_0_compat).
  split.
  - apply (Qmult_lt_0_compat _ 100); [|done].
    apply Qmult_lt_0_compat; [lra|done].
  - assert ((bfs_distance - dijkstra_distance) / bfs_distance <= 1)%Q as H1.
    { apply Qle_shift_div_r; [done|]. lra. }
    lra.
Qed.

(** ** Graphs without weights *)

Lemma walk_first_step g s x p :
  walk g s x p → p = [s] ∨ ∃ u rest, p = s :: u :: rest ∧ adjacent g s u.
Proof.
  induction 1 as [|u v p Hp IH Huv]; [by left|]. right.
  destruct IH as [->|(u' & rest & -> & Hadj)].
  - apply walk_last in Hp. injection Hp as <-. by exists v, [].
  - exists u', (rest ++ [v]). by rewrite <-!app_comm_cons.
Qed.

Lemma edge_details_missing g s u rest :
  nx.edge_data g s u ≫= e_weight = None →
  edge_details g (s :: u :: rest) = Raise KeyError.
Proof.
  intros Hw. rewrite edge_details_cons. unfold edge_weight. by rewrite Hw.
Qed.

Lemma sample_weights_Raise l :
  Exists (λ edge, e_weight edge.2 = None) l →
  sample_weights l = Raise ValueError.
Proof.
  induction 1 as [edge l Hw|edge l _ IH]; simpl; unfold sample_weight.
  - by rewrite Hw.
  - destruct (e_weight edge.2); [|done]. cbn [obind]. by rewrite IH.
Qed.

(** ** A query without result in [demonstrate_dijkstra] *)

Lemma demonstrate_dijkstra_UnpackNone
    (nx_shortest_path : Graph → string → string → outcome (list string))
    g start goal :
  nx.wf g → weights_nonneg g → weights_present g →
  start ∉ nx.nodes g ∨ (∀ q, ¬ walk g start goal q) →
  demonstrate_dijkstra nx_shortest_path g start goal = UnpackNone.
Proof.
  intros Hwf Hnn Hpr Hfail. unfold demonstrate_dijkstra.
  destruct (sample_weights_present g 5 Hwf Hpr) as [ws ->].
  assert (dijkstra_shortest_path g start goal = Return None) as Hnone.
  { destruct (decide (start ∈ nx.nodes g)) as [Hs|Hs].
    - destruct Hfail as [?|Hno]; [done|].
      by apply dijkstra_shortest_path_no_walk.
    - by apply dijkstra_shortest_path_unknown. }
  unfold display_shortest_path. by rewrite Hnone.
Qed.

(** * Further properties *)

(** A sample of the network: two abridged lines that cross, and a line of
    one station. *)
Definition berlin_sample : list (string * line_data) :=
  [("U2", LineData ["Pankow"; "Alexanderplatz"; "Zoologischer Garten";
                    "Bismarckstr."] "red");
   ("U7", LineData ["Rathaus Spandau"; "Bismarckstr."; "Rudow"] "blue");
   ("U55", LineData ["Hauptbahnhof"] "brown")].

Definition berlin_graph : Graph := built_graph berlin_sample.

(** ** task_1.py *)

Lemma built_results data :
  create_graph_from_ubahn data =
  (built_graph data, built_station_lines data, built_line_colors data).
Proof.
  unfold built_graph, built_station_lines, built_line_colors.
  by destruct (create_graph_from_ubahn data) as [[? ?] ?].
Qed.

(** X1. The graph that [create_graph_from_ubahn] builds holds its stations
    in the order in which the input first names them as an end of a
    segment, each once; [station_lines] has the same keys in the same
    order.  The stations are those of the lines with two stations or
    more. *)
Theorem stations_in_order_of_first_visit (data : list (string * line_data)) :
  nx.nodes (built_graph data) = first_visits (station_visits data) ∧
  dict_keys (built_station_lines data) = nx.nodes (built_graph data) ∧
  NoDup (nx.nodes (built_graph data)) ∧
  ∀ s, s ∈ nx.nodes (built_graph data) ↔
       ∃ name d, (name, d) ∈ data ∧ s ∈ stations d ∧ 2 ≤ length (stations d).
Proof.
  split; [apply built_nodes|]. destruct (built_spec data) as [Hinv _].
  split; [apply (build_keys _ _ Hinv)|].
  apply (registered_stations data _ _ _ (built_results data)).
Qed.

(** X2. Two stations of the built graph are joined by an edge exactly when
    some line names them one after the other, in either order.  The edge
    carries the name and the colour of the last such line of the input,
    and no weight. *)
Theorem edge_of_last_segment (data : list (string * line_data)) (u v : string) :
  nx.edge_data (built_graph data) u v =
  segment_attr <$> last (filter (λ ev, joins ev u v) (events data)).
Proof. apply built_edge_data. Qed.

(** X3. For a station of the built graph, the recorded set of line names
    consists of the lines with two stations or more that name the station;
    [station_lines] lists the same names, and [is_transfer] says whether
    there are two or more of them. *)
Theorem station_lines_from_data (data : list (string * line_data)) (s : string) :
  s ∈ nx.nodes (built_graph data) →
  ∃ L, station_line_set (built_graph data) s = Some L ∧
       (∀ l, l ∈ L ↔
             ∃ d, (l, d) ∈ data ∧ s ∈ stations d ∧ 2 ≤ length (stations d)) ∧
       list_to_set <$> dict_get s (built_station_lines data) = Some L ∧
       dict_get s (g_node (built_graph data)) ≫= n_is_transfer
         = Some (bool_decide (2 ≤ size L)).
Proof.
  intros Hs. destruct (built_spec data) as [Hinv Hattr].
  pose proof (build_keys _ _ Hinv) as Hkeys. simpl in Hkeys.
  rewrite <-Hkeys in Hs. apply dict_get_is_Some in Hs as [ls Hls].
  exists (list_to_set ls). split; [|split; [|split]].
  - unfold station_line_set. by rewrite (Hattr _ _ Hls).
  - intros l. rewrite elem_of_list_to_set. split.
    + intros Hl.
      assert (∃ ev v, ev ∈ events data ∧ ev.1.1 = l ∧ joins ev s v)
        as (ev & v & Hev & <- & Hj).
      { apply (build_lines _ _ Hinv s l). eauto. }
      apply events_elem in Hev as (name & d & Hd & Hname & Hpair).
      exists d. rewrite Hname. simpl. split; [done|].
      destruct Hj as [Hj|Hj]; rewrite Hj in Hpair;
        apply consecutive_elem in Hpair; tauto.
    + intros (d & Hd & Hin & Hlen).
      assert (∃ ls', dict_get s (built_station_lines data) = Some ls' ∧ l ∈ ls')
        as (ls' & Hls' & Hl).
      { apply (build_lines _ _ Hinv s l).
        destruct (consecutive_cover _ _ Hin Hlen) as [v [Hv|Hv]].
        - exists (l, color d, (s, v)), v. split; [|split; [done|by left]].
          apply events_elem. by exists l, d.
        - exists (l, color d, (v, s)), v. split; [|split; [done|by right]].
          apply events_elem. by exists l, d. }
      simpl in Hls'. by simplify_eq.
  - by rewrite Hls.
  - by rewrite (Hattr _ _ Hls).
Qed.

Lemma station_lines_from_data_witness :
  ∃ L, station_line_set (built_graph berlin_sample) "Bismarckstr." = Some L ∧
       (∀ l, l ∈ L ↔
             ∃ d, (l, d) ∈ berlin_sample ∧ "Bismarckstr." ∈ stations d ∧
                  2 ≤ length (stations d)) ∧
       list_to_set <$> dict_get "Bismarckstr." (built_station_lines berlin_sample)
         = Some L ∧
       dict_get "Bismarckstr." (g_node (built_graph berlin_sample))
         ≫= n_is_transfer
         = Some (bool_decide (2 ≤ size L)).
Proof.
  apply (station_lines_from_data berlin_sample "Bismarckstr."). by_evaluation.
Defined.

(** X4. [line_colors] maps every line of the input to its colour, in the
    order of the input; a line too short to put a station into the graph
    is listed as well. *)
Theorem line_colors_of_all_lines (data : list (string * line_data)) :
  NoDup (dict_keys data) →
  built_line_colors data = (λ item, (item.1, color item.2)) <$> data.
Proof.
  intros Hnd. unfold built_line_colors. rewrite create_graph_unfold. simpl.
  by apply (dict_set_fresh_fold data []).
Qed.

Lemma line_colors_of_all_lines_witness :
  built_line_colors berlin_sample =
  (λ item, (item.1, color item.2)) <$> berlin_sample.
Proof. apply (line_colors_of_all_lines berlin_sample). by_evaluation. Defined.

(** X5. [analyze_graph], run on what [create_graph_from_ubahn] returns,
    fails in one case only: when no line of the input has two stations
    (the empty input included) the graph has no station and the average
    degree raises [ZeroDivisionError].  Otherwise it returns the degrees of
    the graph and the transfer-station listing. *)
Theorem analyze_graph_needs_a_segment (data : list (string * line_data)) :
  match analyze_graph (built_graph data) (built_station_lines data) with
  | Return r =>
      r = (nx.degree (built_graph data),
           transfer_stations (built_station_lines data)) ∧
      ∃ name d, (name, d) ∈ data ∧ 2 ≤ length (stations d)
  | Raise e =>
      e = ZeroDivisionError ∧
      ∀ name d, (name, d) ∈ data → length (stations d) < 2
  | OutOfFuel => False
  end.
Proof.
  destruct (registered_stations data _ _ _ (built_results data)) as [_ Hreg].
  destruct (nx.nodes (built_graph data)) as [|s l] eqn:Hnodes.
  - rewrite analyze_graph_empty by (done || apply built_wf).
    split; [done|]. intros name d Hd.
    destruct (decide (length (stations d) < 2)) as [|Hlen]; [done|].
    destruct (stations d) as [|s l] eqn:Hst; [simpl in Hlen; lia|].
    assert (s ∈ ([] : list string)) as Hs.
    { apply Hreg. exists name, d. rewrite Hst. split; [done|].
      split; [by left|]. simpl in *. lia. }
    by apply elem_of_nil in Hs.
  - rewrite analyze_graph_built by (by rewrite Hnodes). split; [done|].
    destruct (proj1 (Hreg s)) as (name & d & ? & _ & ?); [by left|].
    eauto.
Qed.

(** X6. The degrees that [analyze_graph] returns for a built graph list
    every station once, in the order of the graph, with the number of
    different stations next to it on some line; a station that a line
    names twice in a row counts itself a second time. *)
Theorem degrees_count_neighbours (data : list (string * line_data))
    (degrees : list (string * nat))
    (listing : list (string * nat * list string)) :
  analyze_graph (built_graph data) (built_station_lines data)
    = Return (degrees, listing) →
  dict_keys degrees = nx.nodes (built_graph data) ∧
  ∀ s, s ∈ nx.nodes (built_graph data) →
       dict_get s degrees =
       Some (size (station_neighbours data s) +
             if decide (s ∈ station_neighbours data s) then 1 else 0).
Proof.
  intros Hrun.
  assert (degrees = nx.degree (built_graph data)) as ->.
  { unfold analyze_graph in Hrun. case_decide; [done|].
    destruct (forallb _ _); [|done]. by injection Hrun as <- _. }
  pose proof (built_wf data) as (Hnd & Hkeys & _).
  split.
  { rewrite <-Hkeys. unfold nx.degree, dict_keys.
    rewrite <-list_fmap_compose. apply list_fmap_ext. by intros ? []. }
  intros s Hs. unfold nx.degree.
  rewrite (dict_get_fmap_values nx.degree_of).
  rewrite <-Hkeys in Hs. apply dict_get_is_Some in Hs as [nbrs Hrow].
  rewrite Hrow. simpl. f_equal.
  destruct (built_row data s nbrs Hrow) as [Hlen Hself].
  unfold nx.degree_of. rewrite Hlen. f_equal.
  destruct (dict_mem s nbrs) eqn:Hmem.
  - by rewrite decide_True by (by apply Hself).
  - rewrite decide_False; [done|]. intros Hin%Hself. congruence.
Qed.

Lemma degrees_count_neighbours_witness :
  dict_keys (nx.degree (built_graph berlin_sample))
    = nx.nodes (built_graph berlin_sample) ∧
  ∀ s, s ∈ nx.nodes (built_graph berlin_sample) →
       dict_get s (nx.degree (built_graph berlin_sample)) =
       Some (size (station_neighbours berlin_sample s) +
             if decide (s ∈ station_neighbours berlin_sample s) then 1 else 0).
Proof.
  apply (degrees_count_neighbours berlin_sample _
           (transfer_stations (built_station_lines berlin_sample))).
  apply analyze_graph_built. by vm_compute.
Defined.

(** X7. The degree statistics of [analyze_graph] on a built graph: without
    stations the average raises [ZeroDivisionError]; with stations the
    minimum degree is at least 1 (no station stands alone), and the average
    lies between the minimum and the maximum. *)
Theorem degree_statistics_of_built_graph (data : list (string * line_data)) :
  match degree_statistics (built_graph data) with
  | Return (avg_degree, max_degree, min_degree) =>
      1 ≤ min_degree ≤ max_degree ∧
      (inject_Z (Z.of_nat min_degree) <= avg_degree)%Q ∧
      (avg_degree <= inject_Z (Z.of_nat max_degree))%Q
  | Raise e => e = ZeroDivisionError ∧ nx.nodes (built_graph data) = []
  | OutOfFuel => False
  end.
Proof.
  pose proof (built_wf data) as (_ & Hkeys & _).
  destruct (g_adj (built_graph data)) as [|row adj] eqn:Hadj.
  - unfold degree_statistics, nx.degree. rewrite Hadj. simpl.
    split; [done|]. by rewrite <-Hkeys.
  - destruct (degree_statistics_Return (built_graph data))
      as (avg & mx & mn & -> & Hmx & Hmn & Hall & Hlo & Hhi);
      [by rewrite Hadj|].
    split; [|done]. split; [by apply (built_degree_positive data)|].
    by apply Hall.
Qed.

Lemma transfer_entry_names (sl : list (string * list string)) :
  (λ x : string * nat * list string, x.1.1) <$> omap transfer_entry sl
  `sublist_of` dict_keys sl.
Proof.
  induction sl as [|item sl IH]; [done|]. csimpl.
  destruct (transfer_entry item) as [x|] eqn:Hx; csimpl.
  - apply transfer_entry_Some in Hx as [_ ->]. simpl. by apply sublist_skip.
  - by apply sublist_cons.
Qed.

(** X8. The stations that [visualize_graph] draws as transfer stations are
    the stations of the transfer-station listing of [analyze_graph], in
    another order at most, so that the listing is as long as the drawing
    has highlighted stations; the stations drawn as regular stations are
    the other stations of the graph. *)
Theorem drawn_transfer_stations_are_listed (data : list (string * line_data))
    (s : string) :
  (s ∈ visualize_transfer_stations (built_graph data) ↔
   ∃ n ls, (s, n, ls) ∈ transfer_stations (built_station_lines data)) ∧
  (s ∈ visualize_regular_stations (built_graph data) ↔
   s ∈ nx.nodes (built_graph data) ∧
   ¬ ∃ n ls, (s, n, ls) ∈ transfer_stations (built_station_lines data)) ∧
  (λ x, x.1.1) <$> transfer_stations (built_station_lines data)
    ≡ₚ visualize_transfer_stations (built_graph data).
Proof.
  enough (∀ s,
    (s ∈ visualize_transfer_stations (built_graph data) ↔
     ∃ n ls, (s, n, ls) ∈ transfer_stations (built_station_lines data)) ∧
    (s ∈ visualize_regular_stations (built_graph data) ↔
     s ∈ nx.nodes (built_graph data) ∧
     ¬ ∃ n ls, (s, n, ls) ∈ transfer_stations (built_station_lines data)))
    as Hboth.
  { destruct (Hboth s) as [? ?]. split; [done|]. split; [done|].
    pose proof (built_wf data) as (Hnd & _).
    destruct (built_spec data) as [Hinv _].
    pose proof (build_keys _ _ Hinv) as Hkeys. simpl in Hkeys.
    apply NoDup_Permutation.
    - unfold transfer_stations.
      rewrite (sort_desc_perm (λ x : string * nat * list string, x.1.2)).
      eapply sublist_NoDup; [|apply transfer_entry_names]. by rewrite Hkeys.
    - by apply NoDup_filter.
    - intros x. rewrite (proj1 (Hboth x)), list_elem_of_fmap. split.
      + intros ([[x' n] ls] & -> & Hin). eauto.
      + intros (n & ls & Hin). by exists (x, n, ls). }
  clear s. intros s.
  destruct (built_spec data) as [Hinv _].
  pose proof (build_keys _ _ Hinv) as Hkeys. simpl in Hkeys.
  pose proof (built_wf data) as (Hnd & _).
  assert (∀ lines, dict_get s (built_station_lines data) = Some lines →
            (is_transfer (built_graph data) s = true ↔
             ∃ n ls, (s, n, ls) ∈ transfer_stations (built_station_lines data)))
    as Hlisted.
  { intros lines Hlines. rewrite (built_is_transfer _ _ _ Hlines).
    rewrite bool_decide_eq_true. split.
    - intros Hsize. eexists _, _. apply transfer_stations_elem.
      exists (s, lines). split; [by apply dict_get_Some_elem|].
      by apply transfer_entry_Some.
    - intros (n & ls & ([s' lines'] & Hin & Hent)%transfer_stations_elem).
      apply transfer_entry_Some in Hent as [Hsize [= -> _ _]]. simpl in *.
      assert (dict_get s' (built_station_lines data) = Some lines') as Hget.
      { apply dict_get_elem; [by rewrite Hkeys|done]. }
      by simplify_eq. }
  assert ((∃ n ls, (s, n, ls) ∈ transfer_stations (built_station_lines data)) →
          s ∈ nx.nodes (built_graph data)) as Hnode.
  { intros (n & ls & ([s' lines'] & Hin & Hent)%transfer_stations_elem).
    apply transfer_entry_Some in Hent as [_ [= -> _ _]].
    rewrite <-Hkeys. apply list_elem_of_fmap. by exists (s', lines'). }
  unfold visualize_transfer_stations, visualize_regular_stations.
  rewrite !list_elem_of_filter. split.
  - split.
    + intros [Htr Hs]. rewrite <-Hkeys in Hs.
      apply dict_get_is_Some in Hs as [lines Hlines]. by eapply Hlisted.
    + intros Hin. pose proof (Hnode Hin) as Hs. split; [|done].
      rewrite <-Hkeys in Hs. apply dict_get_is_Some in Hs as [lines Hlines].
      by eapply Hlisted.
  - split.
    + intros [Htr Hs]. split; [done|]. intros Hin. apply Htr.
      rewrite <-Hkeys in Hs. apply dict_get_is_Some in Hs as [lines Hlines].
      by eapply Hlisted.
    + intros [Hs Hno]. split; [|done]. intros Htr. apply Hno.
      rewrite <-Hkeys in Hs. apply dict_get_is_Some in Hs as [lines Hlines].
      by eapply Hlisted.
Qed.

(** ** task_2.py *)

(** X9. In an undirected graph, for two stations of the graph, [dfs_path]
    ends and finds a route whenever there is one: it returns a route from
    start to goal, or [None] when no route joins the two. *)
Theorem dfs_path_finds_route (g : Graph) (start goal : string) :
  nx.wf g → start ∈ nx.nodes g → goal ∈ nx.nodes g →
  ∃ r, dfs_path g start goal = Return r ∧
       match r with
       | Some p => walk g start goal p
       | None => ∀ q, ¬ walk g start goal q
       end.
Proof. intros Hwf Hs Ht. by apply dfs_path_correct. Qed.

Lemma dfs_path_finds_route_witness :
  ∃ r, dfs_path demo_graph "A" "E" = Return r ∧
       match r with
       | Some p => walk demo_graph "A" "E" p
       | None => ∀ q, ¬ walk demo_graph "A" "E" q
       end.
Proof. apply (dfs_path_finds_route demo_graph "A" "E"); by_evaluation. Defined.

(** X10. The routes that [dfs_path] and [bfs_path] return visit no station
    twice. *)
Theorem search_routes_simple (g : Graph) (start goal : string)
    (dfs_result bfs_result : list string) :
  nx.wf g →
  dfs_path g start goal = Return (Some dfs_result) →
  bfs_path g start goal = Return (Some bfs_result) →
  NoDup dfs_result ∧ NoDup bfs_result.
Proof.
  intros Hwf Hd Hb. split; [by eapply dfs_path_simple|by eapply bfs_path_simple].
Qed.

Lemma search_routes_simple_witness :
  NoDup ["Pankow"; "Alexanderplatz"; "Zoologischer Garten"; "Bismarckstr.";
         "Rudow"] ∧
  NoDup ["Pankow"; "Alexanderplatz"; "Zoologischer Garten"; "Bismarckstr.";
         "Rudow"].
Proof.
  apply (search_routes_simple berlin_graph "Pankow" "Rudow").
  - by_evaluation.
  - reflexivity.
  - reflexivity.
Defined.

(** X11. In an undirected graph the route that [bfs_path] finds from goal
    back to start has as many stations as the one from start to goal. *)
Theorem bfs_path_symmetric_length (g : Graph) (start goal : string)
    (p : list string) :
  nx.wf g → bfs_path g start goal = Return (Some p) →
  ∃ q, bfs_path g goal start = Return (Some q) ∧ length q = length p.
Proof. apply bfs_path_reverse. Qed.

Lemma bfs_path_symmetric_length_witness :
  ∃ q, bfs_path berlin_graph "Rudow" "Pankow" = Return (Some q) ∧
       length q = length ["Pankow"; "Alexanderplatz"; "Zoologischer Garten";
                          "Bismarckstr."; "Rudow"].
Proof.
  apply (bfs_path_symmetric_length berlin_graph "Pankow" "Rudow").
  - by_evaluation.
  - reflexivity.
Defined.

(** X12. [compare_paths] returns the results of the two searches and never
    fails on an undirected graph.  The two results are both [None] or both
    routes; in the comparison of two routes the difference of the lengths
    is not negative, the efficiency figure is not negative (its division
    is safe), and the line "BFS found a shorter path by n stations" comes
    with a positive n only. *)
Theorem compare_paths_consistent (g : Graph) (start goal : string) :
  nx.wf g →
  ∃ dfs_result bfs_result,
    compare_paths g start goal = Return (dfs_result, bfs_result) ∧
    dfs_path g start goal = Return dfs_result ∧
    bfs_path g start goal = Return bfs_result ∧
    match dfs_result, bfs_result with
    | Some d, Some b =>
        ∃ c, compare_lengths d b = Return c ∧
             (0 ≤ cmp_difference c)%Z ∧
             (0 <= cmp_efficiency_diff c)%Q ∧
             (∀ n, cmp_verdict c = BfsShorter n → (0 < n)%Z) ∧
             (cmp_verdict c = SamePath → d = b)
    | None, None => True
    | _, _ => False
    end.
Proof.
  intros Hwf.
  destruct (compare_paths_Return g start goal Hwf) as (dr & br & Hd & Hb & Hrun).
  exists dr, br. split; [done|]. split; [done|]. split; [done|].
  destruct (searches_agree g start goal Hwf)
    as [[Hd' Hb']|(d & b & Hd' & Hb' & _ & _ & Hlen)];
    rewrite Hd' in Hd; rewrite Hb' in Hb; simplify_eq; [done|].
  destruct (compare_lengths_Return d b Hlen) as (c & Hc & _ & ? & ? & ? & ?).
  by exists c.
Qed.

Lemma compare_paths_consistent_witness :
  ∃ dfs_result bfs_result,
    compare_paths berlin_graph "Pankow" "Rudow" = Return (dfs_result, bfs_result) ∧
    dfs_path berlin_graph "Pankow" "Rudow" = Return dfs_result ∧
    bfs_path berlin_graph "Pankow" "Rudow" = Return bfs_result ∧
    match dfs_result, bfs_result with
    | Some d, Some b =>
        ∃ c, compare_lengths d b = Return c ∧
             (0 ≤ cmp_difference c)%Z ∧
             (0 <= cmp_efficiency_diff c)%Q ∧
             (∀ n, cmp_verdict c = BfsShorter n → (0 < n)%Z) ∧
             (cmp_verdict c = SamePath → d = b)
    | None, None => True
    | _, _ => False
    end.
Proof. apply (compare_paths_consistent berlin_graph "Pankow" "Rudow"). by_evaluation. Defined.

(** X13. On an undirected graph [demonstrate_algorithms] ends without an
    exception.  It records one entry per test case, with the lengths of the
    two routes of that case; in every entry the two lengths are both
    missing or both present, the breadth-first one not the larger.  Hence
    the total difference and the average are not negative, as the closing
    line "BFS found shorter or equal paths in all test cases" says without
    checking. *)
Theorem demonstrate_algorithms_summary (g : Graph) :
  nx.wf g →
  ∃ all_results total_diff count avg_diff,
    demonstrate_algorithms g = Return (all_results, total_diff, count, avg_diff) ∧
    Forall2 (records_case g) all_results test_cases ∧
    Forall lengths_agree all_results ∧
    (0 ≤ total_diff)%Z ∧ count ≤ length test_cases ∧
    match avg_diff with
    | Some avg => 0 < count ∧ (0 <= avg)%Q
    | None => count = 0
    end.
Proof.
  intros Hwf. unfold demonstrate_algorithms.
  destruct (run_cases_Return g test_cases Hwf []) as (rs & -> & Hrs & Hcases).
  cbn [obind app].
  destruct (summarize_fold rs (0%Z, 0) Hrs) as (Htotal & _ & Hcount).
  simpl in Htotal, Hcount.
  eexists _, _, _, _. split; [done|]. split; [done|]. split; [done|].
  split; [done|]. split.
  - apply Forall2_length in Hcases. lia.
  - case_decide as Hpos; [|lia]. split; [done|].
    apply Qmult_le_0_compat.
    + change 0%Q with (inject_Z 0). rewrite <-Zle_Qle. lia.
    + apply Qinv_le_0_compat. change 0%Q with (inject_Z 0).
      rewrite <-Zle_Qle. lia.
Qed.

Lemma demonstrate_algorithms_summary_witness :
  ∃ all_results total_diff count avg_diff,
    demonstrate_algorithms berlin_graph
      = Return (all_results, total_diff, count, avg_diff) ∧
    Forall2 (records_case berlin_graph) all_results test_cases ∧
    Forall lengths_agree all_results ∧
    (0 ≤ total_diff)%Z ∧ count ≤ length test_cases ∧
    match avg_diff with
    | Some avg => 0 < count ∧ (0 <= avg)%Q
    | None => count = 0
    end.
Proof. apply (demonstrate_algorithms_summary berlin_graph). by_evaluation. Defined.

(** ** task_3.py *)

(** [nx.shortest_path] for the examples: the breadth-first search of
    task_2.py, with networkx's exceptions. *)
Definition bfs_shortest_path (g : Graph) (source target : string)
    : outcome (list string) :=
  if negb (nx.has_node g source) || negb (nx.has_node g target)
  then Raise NodeNotFound
  else
    call r := bfs_path g source target in
    match r with
    | Some p => Return p
    | None => Raise NetworkXNoPath
    end.

(** X14. A weighted query from a station to itself returns the route of
    that one station, distance 0 and no edge details when the station is
    in the graph, and the triple of [None]s when it is not; the weights of
    the graph play no part. *)
Theorem dijkstra_to_itself (g : Graph) (s : string) :
  dijkstra_shortest_path g s s =
  if nx.has_node g s then Return (Some ([s], 0%Q, [])) else Return None.
Proof.
  destruct (nx.has_node g s) eqn:Hs.
  - by apply dijkstra_shortest_path_same, has_node_true.
  - by apply dijkstra_shortest_path_unknown, has_node_false.
Qed.

(** X15. In an undirected graph whose edges all have a weight, none
    negative, a result of [dijkstra_shortest_path] hangs together: the path
    is a route from start to goal, the edge details list its consecutive
    pairs, each with the weight of that edge, the total distance is the sum
    of the listed weights and is not negative. *)
Theorem dijkstra_result_consistent (g : Graph) (start goal : string)
    (path : list string) (total : Q) (details : list (string * string * Q)) :
  nx.wf g → weights_nonneg g → weights_present g →
  dijkstra_shortest_path g start goal = Return (Some (path, total, details)) →
  walk g start goal path ∧
  (λ x, x.1) <$> details = consecutive path ∧
  Forall (λ x, nx.edge_data g x.1.1 x.1.2 ≫= e_weight = Some x.2) details ∧
  length details = length path - 1 ∧
  (details_total details == total)%Q ∧ (0 <= total)%Q.
Proof.
  intros Hwf Hnn Hpr Hrun.
  destruct (dijkstra_shortest_path_Some _ _ _ _ _ _ Hwf Hnn Hrun) as [Hs Hwalk].
  destruct (dijkstra_shortest_path_optimal g start goal Hwf Hnn Hpr Hs)
    as (path' & total' & details' & d & Hrun' & Hd & Heq & Hdet & Hsum & Hlen & _);
    [by exists path|].
  rewrite Hrun in Hrun'. injection Hrun' as <- <- <-.
  destruct (edge_details_Return _ _ _ Hdet) as [Hpairs Hweights].
  split; [done|]. split; [done|]. split; [done|]. split; [done|].
  split; [by rewrite Hsum|].
  rewrite <-Heq. by eapply wwalk_nonneg.
Qed.

Lemma dijkstra_result_consistent_witness :
  walk demo_weighted "A" "E" ["A"; "B"; "C"; "E"] ∧
  (λ x, x.1) <$> [("A", "B", 225 # 100); ("B", "C", 250 # 100);
                   ("C", "E", 225 # 100)]
    = consecutive ["A"; "B"; "C"; "E"] ∧
  Forall (λ x, nx.edge_data demo_weighted x.1.1 x.1.2 ≫= e_weight = Some x.2)
    [("A", "B", 225 # 100); ("B", "C", 250 # 100); ("C", "E", 225 # 100)] ∧
  length [("A", "B", 225 # 100); ("B", "C", 250 # 100); ("C", "E", 225 # 100)]
    = length ["A"; "B"; "C"; "E"] - 1 ∧
  (details_total [("A", "B", 225 # 100); ("B", "C", 250 # 100);
                  ("C", "E", 225 # 100)]
   == (0 + (225 # 100) + (250 # 100) + (225 # 100)))%Q ∧
  (0 <= 0 + (225 # 100) + (250 # 100) + (225 # 100))%Q.
Proof.
  apply (dijkstra_result_consistent demo_weighted "A" "E").
  - by_evaluation.
  - by_evaluation.
  - by_evaluation.
  - reflexivity.
Defined.





(** X20. [add_random_weights] draws once for every edge: it leaves the
    shared generator in the state reached from the seed by as many draws as
    [edges()] of the returned graph has entries, and [edges()] names every
    edge of the graph, each once and in one direction only. *)
Theorem add_random_weights_draws (R : generator) (g : Graph)
    (min_weight max_weight : Q) (seed : Z) (shared : gen_state R) :
  nx.wf g →
  ∃ wg,
    add_random_weights R g min_weight max_weight seed shared
      = Return (wg, Nat.iter (length (nx.edges wg)) (next_state R)
                      (gen_seed R seed)) ∧
    NoDup (nx.edges wg) ∧
    (∀ u v, (u, v) ∈ nx.edges wg → adjacent g u v) ∧
    (∀ u v, adjacent g u v → (u, v) ∈ nx.edges wg ∨ (v, u) ∈ nx.edges wg) ∧
    (∀ u v, u ≠ v → (u, v) ∈ nx.edges wg → (v, u) ∉ nx.edges wg).
Proof.
  intros Hwf.
  destruct (add_random_weights_run R min_weight max_weight (λ _, True)
              (λ _, I) g seed shared Hwf)
    as (wg & Hrun & Hwfw & _ & Hre & _).
  pose proof (reweighted_adjacent _ _ Hre) as Hadj.
  destruct (edges_once wg Hwfw) as [Hnd Honce].
  exists wg. split; [done|]. split; [done|]. split; [|split; [|done]].
  - intros u v Hin. apply Hadj. by apply edges_adjacent.
  - intros u v Huv. apply edges_cover; [done|]. by apply Hadj.
Qed.

Lemma add_random_weights_draws_witness :
  ∃ wg,
    add_random_weights demo_generator demo_graph 2 3 42 0
      = Return (wg, Nat.iter (length (nx.edges wg)) (next_state demo_generator)
                      (gen_seed demo_generator 42)) ∧
    NoDup (nx.edges wg) ∧
    (∀ u v, (u, v) ∈ nx.edges wg → adjacent demo_graph u v) ∧
    (∀ u v, adjacent demo_graph u v →
            (u, v) ∈ nx.edges wg ∨ (v, u) ∈ nx.edges wg) ∧
    (∀ u v, u ≠ v → (u, v) ∈ nx.edges wg → (v, u) ∉ nx.edges wg).
Proof.
  apply (add_random_weights_draws demo_generator demo_graph 2 3 42 0).
  by_evaluation.
Defined.

(** X21. The weighted route and the unweighted one, as [main] combines
    them: after [add_random_weights] with 0 <= min_weight <= max_weight, for
    two stations that a route joins, [dijkstra_shortest_path] on the
    weighted graph finds a route, which is a route of the unweighted graph
    too and has at least as many edges as the route that [bfs_path] finds
    there; the edge details list one weight for each edge of the route,
    each between the rounded min_weight and the rounded max_weight. *)
Theorem weighted_route_at_least_bfs_edges (R : generator) (g : Graph)
    (min_weight max_weight : Q) (seed : Z) (shared : gen_state R)
    (start goal : string) :
  nx.wf g → (0 <= min_weight)%Q → (min_weight <= max_weight)%Q →
  start ∈ nx.nodes g → (∃ q, walk g start goal q) →
  ∃ wg st path total details hops,
    add_random_weights R g min_weight max_weight seed shared = Return (wg, st) ∧
    dijkstra_shortest_path wg start goal = Return (Some (path, total, details)) ∧
    bfs_path g start goal = Return (Some hops) ∧
    walk g start goal path ∧
    edge_count hops ≤ edge_count path ∧
    length details = edge_count path ∧
    Forall (λ x, (round2 min_weight <= x.2 <= round2 max_weight)%Q) details.
Proof.
  intros Hwf Hmin Hrange Hs [q0 Hq0].
  destruct (add_random_weights_run R min_weight max_weight
              (λ w, (round2 min_weight <= w <= round2 max_weight)%Q))
    with (g := g) (seed := seed) (shared := shared)
    as (wg & Hrun & Hwfw & Hnode & Hre & Hall); [|done|].
  { intros st0.
    pose proof (random_uniform_range R min_weight max_weight st0 Hrange) as [? ?].
    split; by apply round2_mono. }
  pose proof (reweighted_adjacent _ _ Hre) as Hadj.
  pose proof (round2_nonneg _ Hmin) as Hlo.
  assert (weights_nonneg wg) as Hnn.
  { apply weights_nonneg_intro; [done|]. intros u v e He.
    destruct (Hall u v e He) as (w & Hw & ? & ?).
    unfold nx.weight_of. rewrite Hw. simpl. lra. }
  assert (weights_present wg) as Hpr.
  { apply weights_present_intro; [done|]. intros u v e He.
    destruct (Hall u v e He) as (w & -> & _). by eexists. }
  assert (nx.nodes wg = nx.nodes g) as Hnodes by (unfold nx.nodes; by rewrite Hnode).
  pose proof (walk_node _ _ _ _ Hwf Hs Hq0) as Ht.
  destruct (dijkstra_shortest_path_optimal wg start goal Hwfw Hnn Hpr)
    as (path & total & details & d & Hdsp & Hd & _ & Hdet & _ & Hlen & _).
  { by rewrite Hnodes. }
  { exists q0. eapply walk_transfer; [|done]. intros u v. apply Hadj. }
  destruct (bfs_path_correct g start goal Hwf Hs Ht) as ([hops|] & Hbfs & Hpost);
    [|by destruct (Hpost q0)].
  destruct Hpost as [_ Hminimal].
  assert (walk g start goal path) as Hpath.
  { eapply walk_transfer; [|by eapply wwalk_walk]. intros u v. apply Hadj. }
  eexists wg, _, path, total, details, hops.
  split; [done|]. split; [done|]. split; [done|]. split; [done|].
  split; [specialize (Hminimal _ Hpath); unfold edge_count; lia|].
  split; [done|].
  destruct (edge_details_Return _ _ _ Hdet) as [_ Hweights].
  eapply Forall_impl; [exact Hweights|]. intros [[u v] w] Hw. simpl in *.
  destruct (nx.edge_data wg u v) as [e|] eqn:He; [|done]. simpl in Hw.
  destruct (Hall u v e He) as (w' & Hw' & Hin). by simplify_eq.
Qed.

Lemma weighted_route_at_least_bfs_edges_witness :
  ∃ wg st path total details hops,
    add_random_weights demo_generator berlin_graph 2 3 42 0 = Return (wg, st) ∧
    dijkstra_shortest_path wg "Pankow" "Rudow"
      = Return (Some (path, total, details)) ∧
    bfs_path berlin_graph "Pankow" "Rudow" = Return (Some hops) ∧
    walk berlin_graph "Pankow" "Rudow" path ∧
    edge_count hops ≤ edge_count path ∧
    length details = edge_count path ∧
    Forall (λ x, (round2 2 <= x.2 <= round2 3)%Q) details.
Proof.
  apply (weighted_route_at_least_bfs_edges demo_generator berlin_graph 2 3 42 0
           "Pankow" "Rudow").
  - by_evaluation.
  - by vm_compute.
  - by vm_compute.
  - by_evaluation.
  - exists ["Pankow"; "Alexanderplatz"; "Zoologischer Garten"; "Bismarckstr.";
            "Rudow"].
    destruct (bfs_path_correct berlin_graph "Pankow" "Rudow")
      as (r & Hr & Hpost); [by_evaluation..|].
    vm_compute in Hr. injection Hr as <-. apply Hpost.
Defined.

(** X22. [demonstrate_dijkstra] unpacks the result of
    [display_shortest_path] before it tests it.  On a graph with valid
    weights, a query for a station that is not in the graph, or between two
    stations that no route joins, therefore ends in the [TypeError] of
    unpacking [None], whatever [nx.shortest_path] would do. *)
Theorem demonstrate_dijkstra_without_route
    (nx_shortest_path : Graph → string → string → outcome (list string))
    (g : Graph) (start goal : string) :
  nx.wf g → weights_nonneg g → weights_present g →
  start ∉ nx.nodes g ∨ (∀ q, ¬ walk g start goal q) →
  demonstrate_dijkstra nx_shortest_path g start goal = UnpackNone.
Proof. apply demonstrate_dijkstra_UnpackNone. Qed.

Lemma demonstrate_dijkstra_without_route_witness :
  demonstrate_dijkstra bfs_shortest_path demo_weighted "A" "Weberwiese"
    = UnpackNone.
Proof.
  apply (demonstrate_dijkstra_without_route bfs_shortest_path demo_weighted
           "A" "Weberwiese").
  - by_evaluation.
  - by_evaluation.
  - by_evaluation.
  - right. intros q Hq.
    assert ("Weberwiese" ∈ nx.nodes demo_weighted) as Hin.
    { apply (walk_node demo_weighted "A" "Weberwiese" q);
        [by_evaluation|by_evaluation|done]. }
    revert Hin. by_evaluation.
Defined.



(** X24. [main] of task_3.py on an undirected graph in which no route
    joins "Viktoria-Luise-Platz" and "Weberwiese", or which lacks the first
    of them: the weights it adds are valid, the query finds nothing, and
    the run ends in the [TypeError] of unpacking [None]. *)
Theorem task_3_main_without_route
    (nx_shortest_path : Graph → string → string → outcome (list string))
    (R : generator) (G : Graph) (shared : gen_state R) :
  nx.wf G →
  "Viktoria-Luise-Platz" ∉ nx.nodes G ∨
  (∀ q, ¬ walk G "Viktoria-Luise-Platz" "Weberwiese" q) →
  task_3_main nx_shortest_path R G shared = UnpackNone.
Proof.
  intros Hwf Hfail. unfold task_3_main.
  destruct (add_random_weights_run R 2 3 (λ w, (round2 2 <= w <= round2 3)%Q))
    with (g := G) (seed := 42%Z) (shared := shared)
    as (wg & -> & Hwfw & Hnode & Hre & Hall); [|done|].
  { intros st0.
    pose proof (random_uniform_range R 2 3 st0) as [? ?]; [done|].
    split; by apply round2_mono. }
  pose proof (reweighted_adjacent _ _ Hre) as Hadj.
  apply demonstrate_dijkstra_UnpackNone; [done|..].
  - apply weights_nonneg_intro; [done|]. intros u v e He.
    destruct (Hall u v e He) as (w & Hw & Hlo & _).
    unfold nx.weight_of. rewrite Hw. simpl.
    assert (0 <= round2 2)%Q by done. lra.
  - apply weights_present_intro; [done|]. intros u v e He.
    destruct (Hall u v e He) as (w & -> & _). by eexists.
  - destruct Hfail as [Hs|Hno].
    + left. unfold nx.nodes. by rewrite Hnode.
    + right. intros q Hq. apply (Hno q).
      eapply walk_transfer; [|done]. intros u v. apply Hadj.
Qed.

Lemma task_3_main_without_route_witness :
  task_3_main bfs_shortest_path demo_generator berlin_graph 0 = UnpackNone.
Proof.
  apply (task_3_main_without_route bfs_shortest_path demo_generator
           berlin_graph 0).
  - by_evaluation.
  - left. by_evaluation.
Defined.

(** X25. [dijkstra_shortest_path] needs the weights that
    [add_random_weights] adds.  On an undirected graph none of whose edges
    has a weight, as [create_graph_from_ubahn] builds it, the search itself
    counts every edge as 1 and finds a route between two different
    stations that a route joins, but the loop over the route then fails to
    look up the weight: the call raises [KeyError], which the function does
    not catch. *)
Theorem dijkstra_needs_weights (g : Graph) (start goal : string) :
  nx.wf g →
  (∀ u v e, nx.edge_data g u v = Some e → e_weight e = None) →
  start ∈ nx.nodes g → start ≠ goal → (∃ q, walk g start goal q) →
  dijkstra_shortest_path g start goal = Raise KeyError.
Proof.
  intros Hwf Hnone Hs Hne [q0 Hq0].
  assert (weights_nonneg g) as Hnn.
  { apply weights_nonneg_intro; [done|]. intros u v e He.
    unfold nx.weight_of. by rewrite (Hnone _ _ _ He). }
  unfold dijkstra_shortest_path.
  destruct (dijkstra_path_correct g start goal Hwf Hnn Hs Hne)
    as [(p & d & -> & Hp & _)|[_ Hno]];
    [|apply walk_wwalk in Hq0 as [c Hc]; by destruct (Hno q0 c)].
  destruct (dijkstra_path_length_correct g start goal Hwf Hnn Hs Hne)
    as [(total & -> & _)|[_ Hno]]; [|by destruct (Hno p d)].
  cbn [obind].
  pose proof (wwalk_walk _ _ _ _ _ Hp) as Hwalk.
  destruct (walk_first_step _ _ _ _ Hwalk) as [->|(u & rest & -> & [e He])].
  { apply walk_last in Hwalk. by injection Hwalk. }
  rewrite edge_details_missing; [done|].
  rewrite He. simpl. by eapply Hnone.
Qed.

Lemma dijkstra_needs_weights_witness :
  dijkstra_shortest_path berlin_graph "Pankow" "Rudow" = Raise KeyError.
Proof.
  apply (dijkstra_needs_weights berlin_graph "Pankow" "Rudow").
  - by_evaluation.
  - intros u v e. unfold berlin_graph. rewrite built_edge_data.
    by intros (ev & _ & ->)%fmap_Some.
  - by_evaluation.
  - done.
  - exists ["Pankow"; "Alexanderplatz"; "Zoologischer Garten"; "Bismarckstr.";
            "Rudow"].
    destruct (bfs_path_correct berlin_graph "Pankow" "Rudow")
      as (r & Hr & Hpost); [by_evaluation..|].
    vm_compute in Hr. injection Hr as <-. apply Hpost.
Defined.

(** X26. [demonstrate_dijkstra] prints the weights of the first five edges
    with the format [.2f], and the stand-in ['N/A'] for a missing weight is
    a text: when one of these edges has no weight, the call ends in
    [ValueError] before any search, whatever the two stations. *)
Theorem demonstrate_dijkstra_sample_without_weight
    (nx_shortest_path : Graph → string → string → outcome (list string))
    (g : Graph) (start goal : string) :
  Exists (λ edge, e_weight edge.2 = None) (take 5 (edges_with_data g)) →
  demonstrate_dijkstra nx_shortest_path g start goal = Uncaught ValueError.
Proof.
  intros Hmissing. unfold demonstrate_dijkstra.
  by rewrite (sample_weights_Raise _ Hmissing).
Qed.

Lemma demonstrate_dijkstra_sample_without_weight_witness :
  demonstrate_dijkstra bfs_shortest_path berlin_graph "Pankow" "Rudow"
    = Uncaught ValueError.
Proof.
  apply (demonstrate_dijkstra_sample_without_weight bfs_shortest_path
           berlin_graph "Pankow" "Rudow").
  by_evaluation.
Defined.
